(** * pyprudens: rules, literals and knowledge bases of [classes.py]

    A shallow embedding of [src/pyprudens/classes.py] and the properties of
    its parsing, rendering and equality operations.

    Python [str] values are modelled as lists of characters ([list ascii]):
    a character stands for the code point of its number, so that the
    development covers the texts of code points 0 to 255, with Python's
    classification of these code points (white space, digits, letter
    case).  Python exceptions are modelled by the [result] type. *)

From Stdlib Require Import ZArith Lia Ascii String DecimalString DecimalZ.
From stdpp Require Import gmap strings list sorting.

Abbreviation str := (list ascii).

(** A Python string literal. *)
Definition lit (x : string) : str := list_ascii_of_string x.

(** ** Python built-ins used by the source *)
Module Py.

Inductive PyError := AssertionError | IndexError | ValueError.

Inductive result (A : Type) :=
| Ok (a : A)
| Raise (e : PyError).
Arguments Ok {A} a.
Arguments Raise {A} e.

Definition bind {A B} (m : result A) (f : A -> result B) : result B :=
  match m with
  | Ok a => f a
  | Raise e => Raise e
  end.

(** [tuple(map(f, xs))]: left to right, the first exception escapes. *)
Fixpoint map_result {A B} (f : A -> result B) (xs : list A) : result (list B) :=
  match xs with
  | [] => Ok []
  | x :: xs' =>
      bind (f x) (fun y => bind (map_result f xs') (fun ys => Ok (y :: ys)))
  end.

(** [c.isspace()], the white space that [strip] removes: tab, LF, VT, FF,
    CR (9 to 13), FS, GS, RS, US, space (28 to 32), NEL (133) and the
    no-break space (160). *)
Definition is_space (c : ascii) : bool :=
  let n := nat_of_ascii c in
  ((9 <=? n) && (n <=? 13)) || ((28 <=? n) && (n <=? 32))
  || (n =? 133) || (n =? 160).

(** [c in chars] *)
Definition char_in (chars : str) (c : ascii) : bool :=
  existsb (Ascii.eqb c) chars.

Fixpoint drop_while (p : ascii -> bool) (s : str) : str :=
  match s with
  | [] => []
  | c :: s' => if p c then drop_while p s' else s
  end.

(** [s.lstrip(chars)], [s.rstrip(chars)]: [chars] is a set of characters. *)
Definition lstrip_chars (chars : str) (s : str) : str :=
  drop_while (char_in chars) s.
Definition rstrip_chars (chars : str) (s : str) : str :=
  reverse (drop_while (char_in chars) (reverse s)).

(** [s.strip()] *)
Definition strip (s : str) : str :=
  reverse (drop_while is_space (reverse (drop_while is_space s))).

(** [s.startswith(p)] *)
Fixpoint startswith (p s : str) : bool :=
  match p, s with
  | [], _ => true
  | _ :: _, [] => false
  | a :: p', b :: s' => Ascii.eqb a b && startswith p' s'
  end.

(** [s.find(sub)], with [None] for -1. *)
Fixpoint find (sub s : str) : option nat :=
  if startswith sub s then Some 0
  else match s with
       | [] => None
       | _ :: s' => option_map S (find sub s')
       end.

(** [sub in s] *)
Definition contains (sub s : str) : bool :=
  match find sub s with Some _ => true | None => false end.

(** [s.split(sep)] for a non-empty [sep] (every call of the source passes a
    non-empty literal): cut at the occurrences of [sep], found left to
    right and not overlapping.  The fuel is the length of [s]; each cut
    consumes at least one character. *)
Fixpoint split_fuel (n : nat) (sep s : str) : list str :=
  match n with
  | 0 => [s]
  | S n' =>
      match find sep s with
      | None => [s]
      | Some i => firstn i s :: split_fuel n' sep (skipn (i + length sep) s)
      end
  end.
Definition split (sep s : str) : list str := split_fuel (length s) sep s.

(** [sep.join(l)] *)
Fixpoint join (sep : str) (l : list str) : str :=
  match l with
  | [] => []
  | [x] => x
  | x :: l' => x ++ sep ++ join sep l'
  end.

(** [s.replace(old, new)] for a non-empty [old]: the occurrences replaced
    are the ones [split] cuts at. *)
Definition replace (old new s : str) : str := join new (split old s).

(** [x in l] for a list of strings. *)
Definition in_list (x : str) (l : list str) : bool :=
  existsb (fun y => bool_decide (x = y)) l.

(** [str(i)] for an [int], as the f-string [f"R{i}"] formats it. *)
Definition str_of_int (i : Z) : str :=
  list_ascii_of_string (NilZero.string_of_int (Z.to_int i)).

(** [enumerate(l, start)] *)
Fixpoint enumerate {A} (start : nat) (l : list A) : list (nat * A) :=
  match l with
  | [] => []
  | x :: l' => (start, x) :: enumerate (S start) l'
  end.

(** [c.isdecimal()]: the digits [0] to [9].  They are the characters that
    [\d] matches and that [int] reads. *)
Definition is_decimal (c : ascii) : bool :=
  let n := nat_of_ascii c in (48 <=? n) && (n <=? 57).

(** [c.isdigit()]: the decimal digits and the superscript digits two (178),
    three (179) and one (185). *)
Definition is_digit (c : ascii) : bool :=
  let n := nat_of_ascii c in
  is_decimal c || (n =? 178) || (n =? 179) || (n =? 185).

(** [c.lower()]: the letters [A] to [Z] and the capital letters 192 to 222,
    the multiplication sign 215 apart, are moved by 32. *)
Definition lower_char (c : ascii) : ascii :=
  let n := nat_of_ascii c in
  if ((65 <=? n) && (n <=? 90))
     || ((192 <=? n) && (n <=? 222) && negb (n =? 215))
  then ascii_of_nat (n + 32) else c.
Definition lower (s : str) : str := map lower_char s.

(** [s.isdigit()] and [s.isdecimal()]: false on the empty string. *)
Definition isdigit (s : str) : bool :=
  match s with [] => false | _ => forallb is_digit s end.
Definition isdecimal (s : str) : bool :=
  match s with [] => false | _ => forallb is_decimal s end.

(** The number that a string of decimal digits writes. *)
Definition int_of_digits (s : str) : N :=
  fold_left (fun acc c => (10 * acc + (N_of_ascii c - 48))%N) s 0%N.

(** [int(s)] for a string with [s.isdigit()], which is where the source
    calls it: the number when the digits are decimal, and [ValueError] when
    one of them is a superscript. *)
Definition int_of_str (s : str) : result N :=
  if isdecimal s then Ok (int_of_digits s) else Raise ValueError.

(** [re.compile(r"(\d+)").split(s)]: the pieces between the digit runs and
    the digit runs themselves (the pattern is a capturing group), in
    order; the pieces at even indices are the text between the runs, the
    first and the last possibly empty.  [acc] is the piece being read,
    reversed; [in_digits] tells whether it is a digit run. *)
Fixpoint nsre_split_go (in_digits : bool) (acc : str) (s : str) : list str :=
  match s with
  | [] => if in_digits then [reverse acc; []] else [reverse acc]
  | c :: s' =>
      if Bool.eqb (is_decimal c) in_digits
      then nsre_split_go in_digits (c :: acc) s'
      else reverse acc :: nsre_split_go (is_decimal c) [c] s'
  end.
Definition nsre_split (s : str) : list str := nsre_split_go false [] s.

(** Sorting by a key: Python's sort is stable and compares keys with [<]
    only.  [insert_sorted] puts [x] in front of the first element whose key
    is not smaller than the key of [x], so equal keys keep the order of
    [l]. *)
Section Sorted.
Context {A K : Type} (key : A -> K) (ltb : K -> K -> bool).

Fixpoint insert_sorted (x : A) (l : list A) : list A :=
  match l with
  | [] => [x]
  | y :: l' =>
      if ltb (key y) (key x) then y :: insert_sorted x l' else x :: l
  end.

Definition sorted (l : list A) : list A :=
  fold_right insert_sorted [] l.
End Sorted.

(** [sorted(l, key=key)]: the key of every element is computed first, in the
    order of [l], and the first exception of [key] escapes; then the
    elements are sorted by their keys. *)
Definition sorted_by {A K : Type} (key : A -> result K)
    (ltb : K -> K -> bool) (l : list A) : result (list A) :=
  bind (map_result (fun x => bind (key x) (fun k => Ok (k, x))) l)
       (fun decorated => Ok (map snd (sorted fst ltb decorated))).

End Py.

Import Py.

(** ** Literals *)
Module PrudensLiteral.

Record t := mk {
  name : str;
  sign : bool;
  isJS : bool;
  isEquality : bool;
  isInequality : bool;
  isAction : bool;
  arity : Z
}.

(** When [sign] is true the literal is positive, and the reverse. *)
Definition to_string (self : t) : str :=
  (if negb (sign self) then lit "-" else lit "") ++ name self.

End PrudensLiteral.

(** The dict that [PrudensLiteral(...).dict()] returns has the fields of the
    record, so it is modelled by the record.  The [@cache] decorator only
    memoizes this pure function. *)
Definition to_prudens_literal (l : str) : PrudensLiteral.t :=
  PrudensLiteral.mk
    (lstrip_chars (lit "-") l)
    (negb (contains (lit "-") l))
    false false false false 0.

(** ** Rules *)
Module PrudensRule.

Record t := mk {
  body : list str;
  head : str;
  added_as : str;
  active : bool
}.

Definition from_string (rule_string : str) (added_as : str) (active : bool)
  : result t :=
  if negb (forallb (fun p => contains p rule_string)
             [lit " :: "; lit " implies "])
  then Raise AssertionError
  else
    match split (lit " :: ") (rstrip_chars (lit ";") (strip rule_string))
            !! 1%nat with
    | None => Raise IndexError
    | Some seg =>
        match split (lit " implies ") seg with
        | [ctx; head] =>
            Ok (mk (split (lit ", ") ctx) (strip head) added_as active)
        | _ => Raise ValueError
        end
    end.

(** The [rule_name] argument of [to_string]: omitted ([None]), an [int],
    or a string. *)
Inductive rule_name :=
| NameNone
| NameInt (i : Z)
| NameStr (s : str).

(** The first lines of [to_string]: the name that is printed. *)
Definition name_text (rule_name : rule_name) : str :=
  match rule_name with
  | NameNone => lit "R"
  | NameInt i => lit "R" ++ str_of_int i
  | NameStr s => s
  end.

Definition to_string (self : t) (rule_name : rule_name) : str :=
  join (lit " ")
    [name_text rule_name; lit "::"; join (lit ", ") (body self);
     lit "implies"; head self ++ lit ";"].

(** [__eq__]: the bodies are compared as sets, the heads as strings. *)
Definition eqb (self obj : t) : bool :=
  bool_decide (list_to_set (body self) =@{gset str} list_to_set (body obj))
  && bool_decide (head self = head obj).

(** The class defines [__eq__] and no [__hash__], and is decorated with
    [@dataclass(frozen=True)] ([eq] left at its default): the decorator
    then generates [__hash__] as the hash of the tuple of all the fields,
    in the order of their declaration. *)
Definition hash_fields (self : t) : list str * str * str * bool :=
  (body self, head self, added_as self, active self).
Definition hash {H : Type} (tuple_hash : list str * str * str * bool -> H)
    (self : t) : H :=
  tuple_hash (hash_fields self).

(** [__str__] *)
Definition __str__ (self : t) : str := to_string self NameNone.

(** The dict that [from_prudens_rule_json_object] takes: each of the three
    keys that it reads may be missing.  The values are taken at the types
    the function reads them at: [body] is a list of literal dicts and [head]
    is a literal dict, on which [PrudensLiteral.parse_obj] succeeds. *)
Record json_object := mk_json_object {
  jo_name : option str;
  jo_body : option (list PrudensLiteral.t);
  jo_head : option PrudensLiteral.t
}.

(** The [name] field is only asserted to be there; [added_as] and [active]
    get the defaults of the class. *)
Definition from_prudens_rule_json_object
    (prudens_rule_json_object : json_object) : result t :=
  match jo_name prudens_rule_json_object,
        jo_body prudens_rule_json_object,
        jo_head prudens_rule_json_object with
  | Some _, Some body, Some head =>
      Ok (mk (map PrudensLiteral.to_string body)
            (PrudensLiteral.to_string head) (lit "") true)
  | _, _, _ => Raise AssertionError
  end.

End PrudensRule.

(** ** The natural sort key of [get_full_context] *)

(** An element of a key: an [int] for a run of digits, the lower-cased text
    otherwise. *)
Inductive key_elem :=
| KInt (n : N)
| KStr (s : str).

(** The element of the list comprehension of [natural_sort_key] for the
    piece [t]: [int(t)] raises when [t] passes [isdigit] without being
    decimal. *)
Definition key_elem_of (t : str) : result key_elem :=
  if isdigit t then bind (int_of_str t) (fun n => Ok (KInt n))
  else Ok (KStr (lower t)).

Definition natural_sort_key (s : str) : result (list key_elem) :=
  map_result key_elem_of (nsre_split s).

(** [<] on strings: by code point, a proper prefix is smaller. *)
Fixpoint str_ltb (a b : str) : bool :=
  match a, b with
  | _, [] => false
  | [], _ :: _ => true
  | x :: a', y :: b' =>
      if (nat_of_ascii x <? nat_of_ascii y)%nat then true
      else if (nat_of_ascii y <? nat_of_ascii x)%nat then false
      else str_ltb a' b'
  end.

(** [==] and [<] on key elements.  Python raises [TypeError] when [<] meets
    an [int] and a [str]; in the keys of [natural_sort_key] the elements at
    the same index have the same type (lemma [natural_sort_key_shape]), so
    that case is never reached and is given [false]. *)
Definition key_elem_eqb (a b : key_elem) : bool :=
  match a, b with
  | KInt m, KInt n => (m =? n)%N
  | KStr s, KStr t => bool_decide (s = t)
  | _, _ => false
  end.
Definition key_elem_ltb (a b : key_elem) : bool :=
  match a, b with
  | KInt m, KInt n => (m <? n)%N
  | KStr s, KStr t => str_ltb s t
  | _, _ => false
  end.

(** [<] on lists: the first index where the elements differ decides; without
    one, the shorter list is smaller. *)
Fixpoint key_ltb (a b : list key_elem) : bool :=
  match a, b with
  | _, [] => false
  | [], _ :: _ => true
  | x :: a', y :: b' =>
      if key_elem_eqb x y then key_ltb a' b' else key_elem_ltb x y
  end.

(** ** Knowledge bases *)
Module PrudensKnowledgeBase.

Record t := mk { rules : list PrudensRule.t }.

Definition is_empty (self : t) : bool := (length (rules self) =? 0)%nat.
Definition is_not_empty (self : t) : bool := negb (is_empty self).

Definition number_of_active_rules (self : t) : nat :=
  length (filter (fun r => PrudensRule.active r = true) (rules self)).

(** The set [full_context] after the two loops.  The order in which Python
    iterates over a set depends on the calls of [add] that built it, and not
    only on its elements, so the set is modelled by the sequence of these
    calls: its elements are the elements of the sequence. *)
Definition full_context_adds (self : t) : list str :=
  foldl (fun acc rule =>
           foldl (fun acc literal =>
                    if negb (in_list literal [lit "true"; lit "empty"])
                    then acc ++ [replace (lit "-") (lit "") literal]
                    else acc)
                 acc (PrudensRule.body rule))
        [] (rules self).

(** Python does not specify the order in which a set is iterated, so the
    order is a parameter: [set_iter] lists the elements of the set built by
    a sequence of calls of [add], each element once.  [sorted] then computes
    the keys and orders the elements by them. *)
Definition get_full_context (set_iter : list str -> list str) (self : t)
  : result (list str) :=
  sorted_by natural_sort_key key_ltb (set_iter (full_context_adds self)).

Definition copy (self : t) : t := mk (rules self).

(** The list comprehension of [to_string]: the statements of the active
    rules, each under the index that [enumerate] gave it. *)
Definition statements (self : t) : list str :=
  map (fun '(i, rule) =>
         PrudensRule.to_string rule (PrudensRule.NameInt (Z.of_nat i)))
      (filter (fun '(i, rule) => PrudensRule.active rule = true)
         (enumerate 1 (rules self))).

Definition to_string (self : t) (sep : str) : str :=
  join sep (lit "@KnowledgeBase" :: statements self).

(** The default separator of [to_string]. *)
Definition newline : str := [ascii_of_nat 10].

Definition from_string (kb_string : str) : result t :=
  if negb (startswith (lit "@KnowledgeBase") (strip kb_string))
  then Raise AssertionError
  else
    let rules_str :=
      split (lit ";")
        (strip
           (lstrip_chars (lit "@KnowledgeBase")
              (replace newline (lit " ") (strip kb_string)))) in
    let rules_str :=
      map strip (filter (fun r => negb (bool_decide (r = []))) rules_str) in
    bind (map_result (fun r => PrudensRule.from_string r (lit "") true)
            rules_str)
         (fun rs => Ok (mk rs)).

(** The exchange-form objects. *)
Record rule_json := mk_rule_json {
  rj_name : str;
  rj_body : list PrudensLiteral.t;
  rj_head : PrudensLiteral.t
}.
Record kb_json := mk_kb_json {
  kj_type : str;
  kj_kb : list rule_json;
  kj_imports : str;
  kj_warnings : list str
}.

(** The dict of one rule, under the index [i] that [enumerate] gave it. *)
Definition rule_converted (i : nat) (rule : PrudensRule.t) : rule_json :=
  mk_rule_json
    (lit "R" ++ str_of_int (Z.of_nat i))
    (map to_prudens_literal (PrudensRule.body rule))
    (to_prudens_literal (PrudensRule.head rule)).

Definition to_prudens_kb_json_object (self : t) : kb_json :=
  let rules_converted :=
    map (fun '(i, rule) => rule_converted i rule)
        (filter (fun '(i, rule) => PrudensRule.active rule = true)
           (enumerate 0 (rules self))) in
  mk_kb_json (lit "output") rules_converted (lit "") [].

(** [__eq__]: equality of the tuples of rules, that is, the same length and
    [PrudensRule.__eq__] at every index. *)
Fixpoint rules_eqb (a b : list PrudensRule.t) : bool :=
  match a, b with
  | [], [] => true
  | x :: a', y :: b' => PrudensRule.eqb x y && rules_eqb a' b'
  | _, _ => false
  end.
Definition eqb (self obj : t) : bool := rules_eqb (rules self) (rules obj).

(** [__str__] *)
Definition __str__ (self : t) : str := to_string self newline.

(** A rule dict of [to_prudens_kb_json_object], as the dict that
    [PrudensRule.from_prudens_rule_json_object] takes: the three keys are
    there. *)
Definition as_json_object (o : rule_json) : PrudensRule.json_object :=
  PrudensRule.mk_json_object
    (Some (rj_name o)) (Some (rj_body o)) (Some (rj_head o)).

End PrudensKnowledgeBase.

(** ** Well-formed tokens, as the round trips need them *)

(** A character of a token: no white space and no [;]. *)
Definition token_char (c : ascii) : bool :=
  negb (is_space c) && negb (Ascii.eqb c ";").

(** A token: not empty, made of token characters. *)
Definition token_ok (t : str) : bool :=
  negb (bool_decide (t = [])) && forallb token_char t.

(** The last of two or more body tokens.  It stands between the space of a
    [", "] and the space of [" implies "]. *)
Definition closing_token (body : list str) : option str := last (tail body).

(** A rule whose statement text can be read back: a body that is not empty,
    tokens that are well formed, and a closing token that is not one of the
    words [::] and [implies]. *)
Definition rule_ok (r : PrudensRule.t) : bool :=
  negb (bool_decide (PrudensRule.body r = []))
  && forallb token_ok (PrudensRule.body r)
  && token_ok (PrudensRule.head r)
  && negb (bool_decide (closing_token (PrudensRule.body r) = Some (lit "::")))
  && negb (bool_decide (closing_token (PrudensRule.body r)
                        = Some (lit "implies"))).

(** A knowledge base whose block text can be read back: every rule is active
    and well formed. *)
Definition kb_ok (kb : PrudensKnowledgeBase.t) : bool :=
  forallb (fun r => PrudensRule.active r && rule_ok r)
    (PrudensKnowledgeBase.rules kb).

(** A rule name that can be printed in front of a statement: a string name is
    not empty and has no white space. *)
Definition name_ok (n : PrudensRule.rule_name) : bool :=
  match n with
  | PrudensRule.NameStr s =>
      negb (bool_decide (s = [])) && forallb (fun c => negb (is_space c)) s
  | _ => true
  end.

(** ** Notions used by the statements below *)

(** A statement text as the block parser meets it: not empty and with no
    white space at its ends. *)
Definition trimmed (s : str) : Prop :=
  s <> []
  /\ (forall c, head s = Some c -> is_space c = false)
  /\ (forall c, last s = Some c -> is_space c = false).

(** The text of a statement without its final [;]. *)
Definition stmt_text (n : PrudensRule.rule_name) (r : PrudensRule.t) : str :=
  PrudensRule.name_text n ++ lit " :: "
  ++ join (lit ", ") (PrudensRule.body r) ++ lit " implies "
  ++ PrudensRule.head r.

(** The number of active rules among [l]. *)
Definition active_count (l : list PrudensRule.t) : nat :=
  length (filter (fun r => PrudensRule.active r = true) l).

(** The shape of the two comprehensions over [enumerate(self.rules, n)]:
    [f i rule] for the active rules. *)
Definition rendered {X : Type} (f : nat -> PrudensRule.t -> X) (n : nat)
    (l : list PrudensRule.t) : list X :=
  map (fun '(i, rule) => f i rule)
      (filter (fun '(i, rule) => PrudensRule.active rule = true)
         (enumerate n l)).

(** [a] may stand in front of [b] in a list sorted by [key]: the key of [b]
    is not smaller than the key of [a]. *)
Definition key_le {A K : Type} (key : A -> K) (ltb : K -> K -> bool)
    (a b : A) : Prop :=
  ltb (key b) (key a) = false.

(** The key of the name [s] can be built: no piece of [s] passes [isdigit]
    without being decimal. *)
Definition keyed (s : str) : bool :=
  forallb (fun t => negb (isdigit t) || isdecimal t) (nsre_split s).

(** The same for a key that may raise: both keys are built, and the key of
    [b] is not smaller than the key of [a]. *)
Definition built_le {A K : Type} (key : A -> result K) (ltb : K -> K -> bool)
    (a b : A) : Prop :=
  exists ka kb : K, key a = Ok ka /\ key b = Ok kb /\ ltb kb ka = false.

(** The natural order of the names, which compares the keys that were
    built. *)
Definition natural_le : str -> str -> Prop :=
  built_le natural_sort_key key_ltb.

(** The kind of a key element: [true] for an [int]. *)
Definition is_int (e : key_elem) : bool :=
  match e with KInt _ => true | KStr _ => false end.

(** A key whose elements are by turns strings and [int]s, beginning with an
    [int] when [int_first] is true. *)
Fixpoint kinded (int_first : bool) (k : list key_elem) : Prop :=
  match k with
  | [] => True
  | e :: k' => is_int e = int_first /\ kinded (negb int_first) k'
  end.

(** What [nsre_split_go] has read of the current piece. *)
Definition piece_inv (in_digits : bool) (acc : str) : Prop :=
  if in_digits
  then acc <> [] /\ Forall (fun c => is_decimal c = true) acc
  else Forall (fun c => is_decimal c = false) acc.

(** The name that a body token adds to the full context. *)
Definition context_name (t : str) : str := replace (lit "-") (lit "") t.

(** An order of iteration for Python sets: every element of the set built
    by the calls [adds], once. *)
Definition set_listing (set_iter : list str -> list str) : Prop :=
  forall adds : list str,
    NoDup (set_iter adds) /\ forall x, x ∈ set_iter adds <-> x ∈ adds.

(** ** The specification's wording of the behaviours that the code does not
    have *)

(** Numbering by a running index over the active rules (specification,
    sections 3 and 8). *)
Definition statements_by_active_position (kb : PrudensKnowledgeBase.t)
  : list str :=
  map (fun '(i, rule) =>
         PrudensRule.to_string rule (PrudensRule.NameInt (Z.of_nat i)))
      (enumerate 1
         (filter (fun r => PrudensRule.active r = true)
            (PrudensKnowledgeBase.rules kb))).

(** The names [R1], [R2], ... by position among the active rules
    (specification, section 4.3). *)
Definition names_by_active_position (kb : PrudensKnowledgeBase.t) : list str :=
  map (fun i => lit "R" ++ str_of_int (Z.of_nat i))
      (seq 1 (PrudensKnowledgeBase.number_of_active_rules kb)).

(** One leading [-] stripped, and a sign that tells whether there was one
    (specification, section 4.1). *)
Definition strip_one_sign (token : str) : str * bool :=
  match token with
  | c :: n => if Ascii.eqb c "-" then (n, false) else (token, true)
  | [] => (token, true)
  end.

(** A token with at most one leading [-]: the name left by
    [strip_one_sign] does not begin with [-] (specification, section 8). *)
Definition single_sign (token : str) : bool :=
  negb (bool_decide (head (fst (strip_one_sign token)) = Some "-"%char)).

(** A token that is not empty and has none of the delimiters
    (specification, section 8). *)
Definition delimiter_free (t : str) : bool :=
  negb (bool_decide (t = []))
  && negb (contains (lit ";") t)
  && negb (contains (lit ", ") t)
  && negb (contains (lit " :: ") t)
  && negb (contains (lit " implies ") t)
  && negb (contains PrudensKnowledgeBase.newline t).

Definition delimiter_free_rule (r : PrudensRule.t) : bool :=
  forallb delimiter_free (PrudensRule.body r)
  && delimiter_free (PrudensRule.head r).

Definition delimiter_free_kb (kb : PrudensKnowledgeBase.t) : bool :=
  forallb (fun r => PrudensRule.active r && delimiter_free_rule r)
    (PrudensKnowledgeBase.rules kb).

(** ** Notions used by the further properties *)

(** The text of a token after it was parsed as a literal and rendered. *)
Definition normal_token (t : str) : str :=
  PrudensLiteral.to_string (to_prudens_literal t).

(** A token with no [-] after its first character. *)
Definition signed_token (t : str) : bool :=
  negb (contains (lit "-") (drop 1 t)).

(** A rule as the parsers build it from its body and head: [added_as] empty
    and [active] true. *)
Definition fresh_rule (body : list str) (head : str) : PrudensRule.t :=
  PrudensRule.mk body head (lit "") true.

(** The active rules of a knowledge base. *)
Definition active_rules (kb : PrudensKnowledgeBase.t) : list PrudensRule.t :=
  filter (fun r => PrudensRule.active r = true) (PrudensKnowledgeBase.rules kb).

(** A knowledge base whose active rules are well formed; the inactive ones
    may be any. *)
Definition active_ok (kb : PrudensKnowledgeBase.t) : bool :=
  forallb (fun r => implb (PrudensRule.active r) (rule_ok r))
    (PrudensKnowledgeBase.rules kb).

(** A separator made of white space, the empty one included. *)
Definition blank (sep : str) : bool := forallb is_space sep.

(** [t] occurs in [s]. *)
Definition infix_of (t s : str) : Prop := exists l r, s = l ++ t ++ r.

(** A text with no white space at its ends. *)
Definition trimmed_ends (s : str) : Prop :=
  (forall c, head s = Some c -> is_space c = false)
  /\ (forall c, last s = Some c -> is_space c = false).

(** The body tokens of all the rules of a knowledge base. *)
Definition body_tokens (kb : PrudensKnowledgeBase.t) : list str :=
  concat (map PrudensRule.body (PrudensKnowledgeBase.rules kb)).

(** The character [c] replaced by [d]. *)
Definition subst_char (c d x : ascii) : ascii := if Ascii.eqb x c then d else x.

(** A literal that parsing its own text gives back. *)
Definition canonical_literal (l : PrudensLiteral.t) : bool :=
  negb (bool_decide (head (PrudensLiteral.name l) = Some "-"%char))
  && implb (PrudensLiteral.sign l)
       (negb (contains (lit "-") (PrudensLiteral.name l)))
  && negb (PrudensLiteral.isJS l)
  && negb (PrudensLiteral.isEquality l)
  && negb (PrudensLiteral.isInequality l)
  && negb (PrudensLiteral.isAction l)
  && bool_decide (PrudensLiteral.arity l = 0%Z).

(** A rule whose tokens have no [-] after their first character. *)
Definition signed_rule (r : PrudensRule.t) : bool :=
  forallb signed_token (PrudensRule.body r)
  && signed_token (PrudensRule.head r).

(** A knowledge base whose active rules have such tokens. *)
Definition signed_kb (kb : PrudensKnowledgeBase.t) : bool :=
  forallb (fun r => implb (PrudensRule.active r) (signed_rule r))
    (PrudensKnowledgeBase.rules kb).

(** A rule with the tokens that literal conversion and rendering give. *)
Definition normal_rule (r : PrudensRule.t) : PrudensRule.t :=
  fresh_rule (map normal_token (PrudensRule.body r))
    (normal_token (PrudensRule.head r)).

(** Two orders of iteration: the elements in the order of their last call
    of [add], and in the reverse order. *)
Definition added_order (adds : list str) : list str := remove_dups adds.
Definition reverse_order (adds : list str) : list str :=
  reverse (remove_dups adds).

(** No two of the names [l] are tied in the natural order: two different
    names have keys, one of which is smaller than the other. *)
Definition untied (l : list str) : bool :=
  forallb (fun a =>
     forallb (fun b =>
        bool_decide (a = b)
        || match natural_sort_key a, natural_sort_key b with
           | Ok ka, Ok kb => key_ltb ka kb || key_ltb kb ka
           | _, _ => false
           end) l) l.

(** The name in front of a statement: the text before its first space. *)
Definition statement_name (s : str) : str :=
  default [] (head (split (lit " ") s)).

(** ** Sample values *)

Definition rule_of (body : list string) (head : string) (active : bool)
  : PrudensRule.t :=
  PrudensRule.mk (map lit body) (lit head) (lit "") active.

(** Three rules, the second one inactive. *)
Definition kb3 : PrudensKnowledgeBase.t :=
  PrudensKnowledgeBase.mk
    [rule_of ["a"] "x" true; rule_of ["b"] "y" false; rule_of ["c"] "z" true]%string.

(** A text with line feeds for the [|] of [x]. *)
Definition lines (x : string) : str :=
  map (fun c => if Ascii.eqb c "|" then "010"%char else c) (lit x).

(** A rule whose head ends with a space. *)
Definition rule_spaced_head : PrudensRule.t := rule_of ["a"]%string "c " true.

(** A rule whose closing body token is the word [::]. *)
Definition rule_closing_colons : PrudensRule.t :=
  rule_of ["a"; "::"]%string "c" true.

(** A rule without body tokens. *)
Definition rule_empty_body : PrudensRule.t := rule_of [] "c" true.

(** A statement text with a tab in front of its head [:: x]. *)
Definition text_tab_head : str :=
  lit "R :: a implies " ++ ["009"%char] ++ lit ":: x".

(** A rule that is active and its inactive twin. *)
Definition rule_on : PrudensRule.t := rule_of ["a"]%string "c" true.
Definition rule_off : PrudensRule.t := rule_of ["a"]%string "c" false.

(** Two rules with the same body tokens in two orders. *)
Definition rule_ab : PrudensRule.t := rule_of ["a"; "b"]%string "c" true.
Definition rule_ba : PrudensRule.t := rule_of ["b"; "a"]%string "c" true.

(** An inactive rule whose head ends with a space. *)
Definition rule_spaced_head_off : PrudensRule.t :=
  rule_of ["a"]%string "c " false.

(** Two names that only differ by the case of their letters, in the two
    orders. *)
Definition kb_two_cases : PrudensKnowledgeBase.t :=
  PrudensKnowledgeBase.mk [rule_of ["a"; "A"]%string "h" true].
Definition kb_two_cases_swapped : PrudensKnowledgeBase.t :=
  PrudensKnowledgeBase.mk [rule_of ["A"; "a"]%string "h" true].

(** * Facts about the Python built-ins *)

(** A character that is not in a given text: decided by computation. *)
Ltac char_notin := apply (bool_decide_unpack _); vm_compute; exact I.

Section StringFacts.

Lemma startswith_app (p s : str) : startswith p (p ++ s) = true.
Proof.
  induction p as [|a p IH]; simpl; [done|].
  by rewrite Ascii.eqb_refl, IH.
Qed.

Lemma startswith_true (p s : str) :
  startswith p s = true <-> exists r, s = p ++ r.
Proof.
  split.
  - revert s. induction p as [|a p IH]; intros s H; simpl in *.
    + by exists s.
    + destruct s as [|b s]; [done|].
      apply andb_true_iff in H as [Hab H].
      apply Ascii.eqb_eq in Hab as ->.
      destruct (IH _ H) as [r ->]. by exists r.
  - intros [r ->]. apply startswith_app.
Qed.

Lemma startswith_cons_ne (a b : ascii) (p s : str) :
  a <> b -> startswith (a :: p) (b :: s) = false.
Proof.
  intros Hne. simpl. apply andb_false_iff. left.
  by apply Ascii.eqb_neq.
Qed.

Lemma find_nil (c : ascii) (sep : str) : find (c :: sep) [] = None.
Proof. done. Qed.

Lemma find_here (sep s : str) : startswith sep s = true -> find sep s = Some 0.
Proof. intros H. destruct s; simpl; by rewrite H. Qed.

Lemma find_next (sep : str) (c : ascii) (s : str) :
  startswith sep (c :: s) = false ->
  find sep (c :: s) = S <$> find sep s.
Proof. intros H. cbn [find]. by rewrite H. Qed.

(** No occurrence of [c :: sep] starts inside a text without [c]. *)
Lemma find_skip (c : ascii) (sep a rest : str) :
  c ∉ a ->
  find (c :: sep) (a ++ rest) = (fun i => length a + i) <$> find (c :: sep) rest.
Proof.
  induction a as [|x a IH]; intros Hc.
  - simpl. by destruct (find _ rest).
  - rewrite not_elem_of_cons in Hc. destruct Hc as [Hx Ha].
    rewrite <- app_comm_cons, find_next by by apply startswith_cons_ne.
    rewrite (IH Ha). by destruct (find _ rest).
Qed.

(** No occurrence of [c1 :: c2 :: sep] starts inside a text without [c2]
    that is followed by a character other than [c2]. *)
Lemma find_skip2 (c1 c2 : ascii) (sep a rest : str) :
  c2 ∉ a ->
  (forall d r, rest = d :: r -> d <> c2) ->
  find (c1 :: c2 :: sep) (a ++ rest)
  = (fun i => length a + i) <$> find (c1 :: c2 :: sep) rest.
Proof.
  intros Ha Hrest. induction a as [|x a IH].
  - simpl. by destruct (find _ rest).
  - rewrite not_elem_of_cons in Ha. destruct Ha as [Hx Ha].
    rewrite <- app_comm_cons, find_next.
    + rewrite (IH Ha). by destruct (find _ rest).
    + cbn [startswith]. apply andb_false_iff. right.
      destruct a as [|y a]; simpl.
      * destruct rest as [|d r]; [done|].
        apply andb_false_iff. left. apply Ascii.eqb_neq.
        intros ->. by eapply Hrest.
      * apply andb_false_iff. left. apply Ascii.eqb_neq.
        intros ->. apply Ha. left.
Qed.

Lemma find_Some_length (sep s : str) (i : nat) :
  find sep s = Some i -> i + length sep <= length s.
Proof.
  revert i. induction s as [|c s IH]; intros i; cbn [find].
  - destruct (startswith sep []) eqn:E; [|done].
    intros [= <-]. destruct sep; [simpl; lia|done].
  - destruct (startswith sep (c :: s)) eqn:E.
    + intros [= <-]. apply startswith_true in E as [r ->].
      rewrite length_app. lia.
    + destruct (find sep s) as [j|]; [|done].
      intros [= <-]. specialize (IH j eq_refl). simpl. lia.
Qed.

Lemma contains_app (sep a b : str) : contains sep (a ++ sep ++ b) = true.
Proof.
  unfold contains. induction a as [|x a IH]; simpl app.
  - by rewrite find_here by apply startswith_app.
  - cbn [find]. destruct (startswith sep (x :: a ++ sep ++ b)); [done|].
    by destruct (find sep (a ++ sep ++ b)).
Qed.

(** Any fuel from the length of the string on gives the same pieces. *)
Lemma split_fuel_irrel (c : ascii) (sep : str) (n m : nat) (s : str) :
  length s <= n -> length s <= m ->
  split_fuel n (c :: sep) s = split_fuel m (c :: sep) s.
Proof.
  revert m s. induction n as [|n IH]; intros m s Hn Hm.
  - destruct s; [|simpl in Hn; lia]. by destruct m.
  - destruct m as [|m].
    + destruct s; [done|simpl in Hm; lia].
    + cbn [split_fuel].
      destruct (find (c :: sep) s) as [i|] eqn:E; [|done].
      pose proof (find_Some_length _ _ _ E) as Hi.
      f_equal. apply IH; rewrite length_skipn; simpl in *; lia.
Qed.

Lemma split_None (sep s : str) : find sep s = None -> split sep s = [s].
Proof.
  intros H. unfold split. destruct (length s); [done|].
  cbn [split_fuel]. by rewrite H.
Qed.

Lemma split_Some (c : ascii) (sep s : str) (i : nat) :
  find (c :: sep) s = Some i ->
  split (c :: sep) s
  = firstn i s :: split (c :: sep) (skipn (i + length (c :: sep)) s).
Proof.
  intros H. pose proof (find_Some_length _ _ _ H) as Hi.
  unfold split at 1. destruct (length s) as [|n] eqn:En.
  - simpl in Hi. lia.
  - cbn [split_fuel]. rewrite H. f_equal.
    apply split_fuel_irrel; rewrite ?length_skipn; simpl in *; lia.
Qed.

(** The first piece, when the first occurrence of the separator is known. *)
Lemma split_app (c : ascii) (sep a b : str) :
  find (c :: sep) (a ++ (c :: sep) ++ b) = Some (length a) ->
  split (c :: sep) (a ++ (c :: sep) ++ b) = a :: split (c :: sep) b.
Proof.
  intros H. rewrite (split_Some _ _ _ _ H).
  rewrite take_app_length. f_equal. f_equal.
  rewrite app_assoc, <- length_app, drop_app_length. done.
Qed.

(** When a word [w] followed by [sp] starts a text [t ++ rest] in which
    [t] has no [sp] and [rest] does not begin with a character of [w], the
    word is [t] and [rest] begins with [sp]. *)
Lemma startswith_word (sp : ascii) (w t rest : str) :
  startswith (w ++ [sp]) (t ++ rest) = true ->
  sp ∉ t ->
  (forall d r, rest = d :: r -> d ∉ w) ->
  t = w /\ exists r, rest = sp :: r.
Proof.
  revert t. induction w as [|a w IH]; intros t H Ht Hrest.
  - destruct t as [|x t].
    + simpl in H. destruct rest as [|d r]; [done|].
      apply andb_true_iff in H as [H _]. apply Ascii.eqb_eq in H as <-.
      eauto.
    + simpl in H. apply andb_true_iff in H as [H _].
      apply Ascii.eqb_eq in H as <-. exfalso. apply Ht. left.
  - destruct t as [|x t].
    + simpl in H. destruct rest as [|d r]; [done|].
      apply andb_true_iff in H as [H _]. apply Ascii.eqb_eq in H as <-.
      exfalso. eapply Hrest; [done|left].
    + simpl in H. apply andb_true_iff in H as [Hx H].
      apply Ascii.eqb_eq in Hx as <-.
      rewrite not_elem_of_cons in Ht. destruct Ht as [_ Ht].
      destruct (IH t H Ht) as [-> Hr].
      * intros d r Hd Hin. eapply Hrest; [done|by right].
      * done.
Qed.

Lemma join_cons2 (sep x y : str) (l : list str) :
  join sep (x :: y :: l) = x ++ sep ++ join sep (y :: l).
Proof. done. Qed.

Lemma last_cons2 {A} (x y : A) (l : list A) : last (x :: y :: l) = last (y :: l).
Proof. done. Qed.

(** In a body text [t1, t2, ..., tn] followed by a space, no occurrence of
    [" w "] starts before the end of the text, provided that the tokens
    have no space and that, for two tokens or more, the last one is not
    [w]. *)
Lemma find_join_tokens (w : str) (ts : list str) (rest : str) :
  " "%char ∉ w -> ","%char ∉ w ->
  ts <> [] ->
  Forall (fun t => " "%char ∉ t) ts ->
  last (tail ts) <> Some w ->
  (exists r, rest = " "%char :: r) ->
  find (" "%char :: w ++ [" "%char]) (join (lit ", ") ts ++ rest)
  = (fun i => length (join (lit ", ") ts) + i)
    <$> find (" "%char :: w ++ [" "%char]) rest.
Proof.
  intros Hsp Hcomma Hne Hts Hlast Hrest.
  set (sep := " "%char :: w ++ [" "%char]).
  induction ts as [|t ts IH]; [done|]. clear Hne.
  apply Forall_cons in Hts as [Ht Hts].
  destruct ts as [|t2 ts].
  - simpl join. by apply find_skip.
  - rewrite join_cons2, <- !app_assoc.
    unfold sep at 1. rewrite (find_skip _ _ _ _ Ht). fold sep.
    change (lit ", " ++ ?x) with (","%char :: " "%char :: x).
    rewrite find_next by by apply startswith_cons_ne.
    rewrite find_next.
    + rewrite IH; [|done|done|].
      * destruct (find sep rest); [|done]. simpl. f_equal.
        rewrite !length_app. simpl. lia.
      * simpl in Hlast |- *. destruct ts; [done|]. done.
    + destruct (startswith sep _) eqn:E; [|done]. exfalso.
      unfold sep in E. cbn [startswith] in E.
      apply andb_true_iff in E as [_ E].
      apply Forall_cons in Hts as [Ht2 Hts].
      destruct ts as [|t3 ts].
      * simpl join in E.
        destruct (startswith_word _ _ _ _ E Ht2) as [-> _].
        { intros d r ->. destruct Hrest as [r' [= -> ->]]. done. }
        by apply Hlast.
      * rewrite join_cons2, <- !app_assoc in E.
        destruct (startswith_word _ _ _ _ E Ht2) as [_ [r Hr]].
        { intros d r [= <- <-]. done. }
        done.
Qed.

Lemma find_token_None (sep t : str) :
  " "%char ∉ t -> find (" "%char :: sep) t = None.
Proof.
  intros Ht. rewrite <- (app_nil_r t), (find_skip _ _ _ _ Ht). done.
Qed.

Lemma find_space_token (w t : str) :
  " "%char ∉ t -> find (" "%char :: w ++ [" "%char]) (" "%char :: t) = None.
Proof.
  intros Ht. rewrite find_next, (find_token_None _ _ Ht); [done|].
  destruct (startswith _ _) eqn:E; [|done]. exfalso.
  cbn [startswith] in E. apply andb_true_iff in E as [_ E].
  rewrite <- (app_nil_r t) in E.
  by destruct (startswith_word _ _ _ _ E Ht) as [_ [r Hr]].
Qed.

(** [split] undoes [join] on a body text. *)
Lemma split_join_tokens (ts : list str) :
  ts <> [] ->
  Forall (fun t => " "%char ∉ t) ts ->
  split (lit ", ") (join (lit ", ") ts) = ts.
Proof.
  intros Hne Hts. induction ts as [|t ts IH]; [done|]. clear Hne.
  apply Forall_cons in Hts as [Ht Hts].
  change (lit ", ") with [","%char; " "%char] in *.
  destruct ts as [|t2 ts].
  - simpl join. apply split_None.
    rewrite <- (app_nil_r t), (find_skip2 _ _ _ _ _ Ht); done.
  - rewrite join_cons2, split_app; [by rewrite IH|].
    rewrite (find_skip2 _ _ _ _ _ Ht).
    + rewrite find_here by apply startswith_app. simpl. f_equal. lia.
    + by intros d r [= <- _].
Qed.

Lemma drop_while_id (p : ascii -> bool) (s : str) :
  (forall c, head s = Some c -> p c = false) -> drop_while p s = s.
Proof.
  destruct s as [|c s]; [done|]. intros H. simpl. by rewrite (H c).
Qed.

Lemma strip_id (s : str) :
  (forall c, head s = Some c -> is_space c = false) ->
  (forall c, last s = Some c -> is_space c = false) ->
  strip s = s.
Proof.
  intros Hh Hl. unfold strip. rewrite (drop_while_id _ s Hh).
  rewrite drop_while_id; [apply reverse_involutive|].
  intros c. rewrite head_reverse. apply Hl.
Qed.

Lemma strip_space (s : str) : strip (" "%char :: s) = strip s.
Proof. done. Qed.

Lemma rstrip_chars_id (chars s : str) :
  (forall c, last s = Some c -> char_in chars c = false) ->
  rstrip_chars chars s = s.
Proof.
  intros Hl. unfold rstrip_chars.
  rewrite drop_while_id; [apply reverse_involutive|].
  intros c. rewrite head_reverse. apply Hl.
Qed.

Lemma rstrip_chars_snoc (chars s : str) (c : ascii) :
  char_in chars c = true ->
  rstrip_chars chars (s ++ [c]) = rstrip_chars chars s.
Proof.
  intros Hc. unfold rstrip_chars. rewrite reverse_snoc. simpl.
  by rewrite Hc.
Qed.

End StringFacts.

(** * Reading a statement back *)

Section Statements.

Lemma token_ok_spec (t : str) :
  token_ok t = true ->
  t <> [] /\ Forall (fun c => is_space c = false /\ c <> ";"%char) t.
Proof.
  unfold token_ok. rewrite andb_true_iff, negb_true_iff, bool_decide_eq_false.
  intros [Hne Hall]. split; [done|].
  apply Forall_forall. intros c Hc.
  rewrite forallb_forall in Hall. apply list_elem_of_In in Hc.
  specialize (Hall c Hc). unfold token_char in Hall.
  rewrite andb_true_iff, !negb_true_iff in Hall. destruct Hall as [? Hs].
  split; [done|]. by apply Ascii.eqb_neq.
Qed.

Lemma no_space_not_in (t : str) :
  Forall (fun c => is_space c = false) t -> " "%char ∉ t.
Proof.
  intros Ht Hin. rewrite Forall_forall in Ht. by specialize (Ht _ Hin).
Qed.

Lemma head_elem_of {A} (l : list A) (x : A) : head l = Some x -> x ∈ l.
Proof. destruct l; [done|]. intros [= ->]. left. Qed.

Lemma last_elem_of {A} (l : list A) (x : A) : last l = Some x -> x ∈ l.
Proof.
  intros H. apply last_Some in H as [l' ->]. set_solver.
Qed.

Lemma app_last_nonempty {A} (l1 l2 : list A) :
  l2 <> [] -> last (l1 ++ l2) = last l2.
Proof.
  intros H. rewrite last_app. destruct (last l2) eqn:E; [done|].
  destruct l2; [done|]. by rewrite last_cons in E; destruct (last l2).
Qed.

Lemma app_head_nonempty {A} (l1 l2 : list A) :
  l1 <> [] -> head (l1 ++ l2) = head l1.
Proof. by destruct l1. Qed.

(** The statement text [name :: t1, ..., tn implies head], with or without
    its final [;], is read back as the rule of body [t1 ... tn] and of
    head [head]. *)
Lemma parse_statement (name : str) (ts : list str) (hd tail a : str)
    (act : bool) :
  name <> [] ->
  Forall (fun c => is_space c = false) name ->
  ts <> [] ->
  forallb token_ok ts = true ->
  token_ok hd = true ->
  closing_token ts <> Some (lit "::") ->
  closing_token ts <> Some (lit "implies") ->
  tail = [] \/ tail = lit ";" ->
  PrudensRule.from_string
    (name ++ lit " :: " ++ join (lit ", ") ts ++ lit " implies " ++ hd ++ tail)
    a act
  = Ok (PrudensRule.mk ts hd a act).
Proof.
  intros Hname Hnsp Hts Htok Hhd Hc1 Hc2 Htail.
  assert (Forall (fun t => " "%char ∉ t) ts) as Hts_sp.
  { apply Forall_forall. intros t Ht. apply list_elem_of_In in Ht.
    rewrite forallb_forall in Htok. apply Htok, token_ok_spec in Ht as [_ Ht].
    apply no_space_not_in. eapply Forall_impl; [exact Ht|]. by intros ? []. }
  apply token_ok_spec in Hhd as [Hhd_ne Hhd].
  assert (" "%char ∉ hd) as Hhd_sp.
  { apply no_space_not_in. eapply Forall_impl; [exact Hhd|]. by intros ? []. }
  assert (" "%char ∉ name) as Hname_sp by by apply no_space_not_in.
  set (J := join (lit ", ") ts).
  set (S0 := name ++ lit " :: " ++ J ++ lit " implies " ++ hd).
  assert (name ++ lit " :: " ++ J ++ lit " implies " ++ hd ++ tail = S0 ++ tail)
    as -> by (unfold S0; by rewrite <- !app_assoc).
  unfold PrudensRule.from_string.
  (* the assertion *)
  assert (forallb (fun p => contains p (S0 ++ tail))
            [lit " :: "; lit " implies "] = true) as ->.
  { cbn [forallb]. apply andb_true_iff. split; [|apply andb_true_iff; split; [|done]].
    - unfold S0. rewrite <- !app_assoc. apply contains_app.
    - unfold S0.
      replace ((name ++ lit " :: " ++ J ++ lit " implies " ++ hd) ++ tail)
        with ((name ++ lit " :: " ++ J) ++ lit " implies " ++ hd ++ tail)
        by (by rewrite <- !app_assoc).
      apply contains_app. }
  cbn [negb].
  (* strip and rstrip *)
  assert (forall c, last S0 = Some c -> is_space c = false /\ c <> ";"%char)
    as HlastS0.
  { intros c. unfold S0. rewrite !app_assoc, app_last_nonempty by done.
    intros Hc. apply last_elem_of in Hc.
    rewrite Forall_forall in Hhd. by apply Hhd. }
  assert (strip (S0 ++ tail) = S0 ++ tail) as ->.
  { apply strip_id.
    - intros c. unfold S0. rewrite <- app_assoc, app_head_nonempty by done.
      intros Hc. apply head_elem_of in Hc.
      rewrite Forall_forall in Hnsp. by apply Hnsp.
    - destruct Htail as [-> | ->].
      + rewrite app_nil_r. intros c Hc. by apply HlastS0.
      + intros c. change (lit ";") with [";"%char]. rewrite last_snoc.
        by intros [= <-]. }
  assert (rstrip_chars (lit ";") (S0 ++ tail) = S0) as ->.
  { assert (rstrip_chars (lit ";") S0 = S0) as Hid.
    { apply rstrip_chars_id. intros c Hc. apply HlastS0 in Hc as [_ Hc].
      unfold char_in. simpl. rewrite orb_false_r. by apply Ascii.eqb_neq. }
    destruct Htail as [-> | ->].
    - by rewrite app_nil_r.
    - change (lit ";") with [";"%char] at 2.
      by rewrite rstrip_chars_snoc. }
  (* the cut at " :: " *)
  assert (exists r, lit " implies " ++ hd = " "%char :: r) as Hrest by by eexists.
  assert (split (lit " :: ") S0 = [name; J ++ lit " implies " ++ hd]) as ->.
  { unfold S0. change (lit " :: ") with (" "%char :: lit "::" ++ [" "%char]).
    rewrite split_app.
    - f_equal. apply split_None. unfold J.
      rewrite (find_join_tokens (lit "::")); [|char_notin..|done|done|done|done].
      change (lit " implies " ++ hd) with (" "%char :: lit "implies" ++ " "%char :: hd).
      rewrite find_next by done.
      rewrite find_skip by char_notin.
      by rewrite find_space_token.
    - rewrite (find_skip _ _ _ _ Hname_sp).
      rewrite find_here by apply startswith_app. simpl. f_equal. lia. }
  cbn [lookup list_lookup].
  (* the cut at " implies " *)
  assert (split (lit " implies ") (J ++ lit " implies " ++ hd) = [J; hd]) as ->.
  { change (lit " implies ") with (" "%char :: lit "implies" ++ [" "%char]).
    rewrite split_app.
    - f_equal. apply split_None. by apply find_token_None.
    - unfold J. rewrite (find_join_tokens (lit "implies")); [|char_notin..|done|done|done|done].
      rewrite find_here by apply startswith_app. simpl. f_equal. lia. }
  f_equal. f_equal.
  - by apply split_join_tokens.
  - apply strip_id.
    + intros c Hc. apply head_elem_of in Hc.
      rewrite Forall_forall in Hhd. by apply Hhd.
    + intros c Hc. apply last_elem_of in Hc.
      rewrite Forall_forall in Hhd. by apply Hhd.
Qed.

End Statements.

(** * Rules: rendering and reading back *)

Section RuleRoundTrip.

Lemma to_string_shape (r : PrudensRule.t) (n : PrudensRule.rule_name) :
  PrudensRule.to_string r n
  = PrudensRule.name_text n ++ lit " :: "
    ++ join (lit ", ") (PrudensRule.body r) ++ lit " implies "
    ++ PrudensRule.head r ++ lit ";".
Proof.
  unfold PrudensRule.to_string. cbn [join]. reflexivity.
Qed.

Lemma uint_chars (d : Decimal.uint) :
  Forall (fun c => is_decimal c = true)
    (list_ascii_of_string (NilEmpty.string_of_uint d)).
Proof. induction d; simpl; by constructor. Qed.

(** [str(i)] is made of digits, after a [-] for a negative [i]. *)
Lemma str_of_int_chars (i : Z) :
  str_of_int i <> []
  /\ Forall (fun c => is_decimal c = true \/ c = "-"%char) (str_of_int i).
Proof.
  assert (forall d, NilZero.string_of_uint d <> ""%string
            /\ Forall (fun c => is_decimal c = true \/ c = "-"%char)
                 (list_ascii_of_string (NilZero.string_of_uint d))) as Hu.
  { intros d. split.
    - by destruct d.
    - eapply Forall_impl; [|by intros c Hc; left; exact Hc].
      destruct d; try apply uint_chars. simpl. by constructor. }
  unfold str_of_int. destruct i as [|p|p]; simpl.
  - split; [done|]. constructor; [by left|constructor].
  - destruct (Hu (Pos.to_uint p)) as [Hne Hall]. split; [|done].
    by destruct (NilZero.string_of_uint _).
  - destruct (Hu (Pos.to_uint p)) as [Hne Hall]. split; [done|].
    constructor; [by right|done].
Qed.

Lemma digit_not_space (c : ascii) :
  is_decimal c = true \/ c = "-"%char ->
  is_space c = false /\ c <> ";"%char /\ c <> ascii_of_nat 10.
Proof.
  intros [H | ->]; [|done].
  unfold is_decimal in H. apply andb_true_iff in H as [H1 H2].
  apply Nat.leb_le in H1, H2.
  split; [|split].
  - unfold is_space. rewrite !orb_false_iff. repeat split.
    + apply andb_false_iff. right. apply Nat.leb_gt. lia.
    + apply andb_false_iff. right. apply Nat.leb_gt. lia.
    + apply Nat.eqb_neq. lia.
    + apply Nat.eqb_neq. lia.
  - intros ->. cbv in H2. lia.
  - intros ->. cbv in H1. lia.
Qed.

(** The printed name of a rule has no white space. *)
Lemma name_text_ok (n : PrudensRule.rule_name) :
  name_ok n = true ->
  PrudensRule.name_text n <> []
  /\ Forall (fun c => is_space c = false) (PrudensRule.name_text n).
Proof.
  destruct n as [|i|s]; simpl.
  - intros _. split; [done|]. by constructor.
  - intros _. split; [done|]. constructor; [done|].
    destruct (str_of_int_chars i) as [_ H].
    eapply Forall_impl; [exact H|].
    intros c Hc. by apply digit_not_space.
  - rewrite andb_true_iff, negb_true_iff, bool_decide_eq_false.
    intros [Hne Hall]. split; [done|].
    apply Forall_forall. intros c Hc. apply list_elem_of_In in Hc.
    rewrite forallb_forall in Hall. apply Hall in Hc.
    by apply negb_true_iff.
Qed.

Lemma rule_ok_spec (r : PrudensRule.t) :
  rule_ok r = true ->
  PrudensRule.body r <> []
  /\ forallb token_ok (PrudensRule.body r) = true
  /\ token_ok (PrudensRule.head r) = true
  /\ closing_token (PrudensRule.body r) <> Some (lit "::")
  /\ closing_token (PrudensRule.body r) <> Some (lit "implies").
Proof.
  unfold rule_ok.
  rewrite !andb_true_iff, !negb_true_iff, !bool_decide_eq_false.
  tauto.
Qed.

Lemma rule_eqb_same (b : list str) (h a1 a2 : str) (act1 act2 : bool) :
  PrudensRule.eqb (PrudensRule.mk b h a1 act1) (PrudensRule.mk b h a2 act2)
  = true.
Proof.
  unfold PrudensRule.eqb. simpl.
  by rewrite !bool_decide_eq_true_2.
Qed.

(** The statement of a well-formed rule, printed under a well-formed name,
    is read back as a rule of the same body and head. *)
Lemma parse_to_string (r : PrudensRule.t) (n : PrudensRule.rule_name)
    (a : str) (act : bool) :
  rule_ok r = true ->
  name_ok n = true ->
  PrudensRule.from_string (PrudensRule.to_string r n) a act
  = Ok (PrudensRule.mk (PrudensRule.body r) (PrudensRule.head r) a act).
Proof.
  intros Hr Hn.
  apply rule_ok_spec in Hr as (Hb & Htok & Hhd & Hc1 & Hc2).
  apply name_text_ok in Hn as [Hne Hsp].
  rewrite to_string_shape.
  apply parse_statement; auto.
Qed.

End RuleRoundTrip.

(** * Knowledge bases: cutting a block into statements *)

Section Blocks.

Lemma find_char_None (c : ascii) (s : str) : c ∉ s -> find [c] s = None.
Proof.
  intros Hc. by rewrite <- (app_nil_r s), (find_skip _ _ _ _ Hc).
Qed.

Lemma split_char_app (c : ascii) (a b : str) :
  c ∉ a -> split [c] (a ++ c :: b) = a :: split [c] b.
Proof.
  intros Hc. apply (split_app c [] a b).
  rewrite (find_skip _ _ _ _ Hc). simpl.
  rewrite Ascii.eqb_refl. simpl. f_equal. lia.
Qed.

(** [split] undoes [join] when the separator is a character that the
    pieces do not have. *)
Lemma split_join_char (c : ascii) (pieces : list str) :
  pieces <> [] ->
  Forall (fun p => c ∉ p) pieces ->
  split [c] (join [c] pieces) = pieces.
Proof.
  intros Hne Hall. induction pieces as [|p l IH]; [done|]. clear Hne.
  apply Forall_cons in Hall as [Hp Hl].
  destruct l as [|q l].
  - simpl. apply split_None. by apply find_char_None.
  - rewrite join_cons2.
    change ([c] ++ ?x) with (c :: x).
    rewrite (split_char_app _ _ _ Hp). by rewrite IH.
Qed.

Lemma join_prefix (sep pre x : str) (l : list str) :
  pre ++ join sep (x :: l) = join sep ((pre ++ x) :: l).
Proof. destruct l; simpl; [done|]. by rewrite <- app_assoc. Qed.

(** The statements of a block, each closed by its [;] and joined by
    spaces, are cut at the [;]: every piece but the first keeps the space
    in front of it, and an empty piece follows the last [;]. *)
Lemma split_statements (s : str) (ss : list str) :
  ";"%char ∉ s ->
  Forall (fun t => ";"%char ∉ t) ss ->
  split (lit ";") (join (lit " ") (map (fun t => t ++ lit ";") (s :: ss)))
  = s :: map (fun t => " "%char :: t) ss ++ [[]].
Proof.
  change (lit ";") with [";"%char]. change (lit " ") with [" "%char].
  revert s. induction ss as [|s2 ss IH]; intros s Hs Hss.
  - simpl. by rewrite (split_char_app _ _ _ Hs).
  - apply Forall_cons in Hss as [Hs2 Hss].
    cbn [map]. rewrite join_cons2, <- app_assoc.
    change ([";"%char] ++ ?x) with (";"%char :: x).
    rewrite (split_char_app _ _ _ Hs). f_equal.
    rewrite (join_prefix _ [" "%char]).
    change ([" "%char] ++ s2 ++ [";"%char])
      with ((" "%char :: s2) ++ [";"%char]).
    specialize (IH (" "%char :: s2)). cbn [map] in IH.
    rewrite IH; [done| |done].
    rewrite not_elem_of_cons. split; [done|done].
Qed.

Lemma strip_trimmed (s : str) : trimmed s -> strip s = s.
Proof. intros (_ & Hh & Hl). by apply strip_id. Qed.

Lemma clean_statements (s : str) (ss : list str) :
  Forall trimmed (s :: ss) ->
  map strip
    (filter (fun r => negb (bool_decide (r = [])))
       (s :: map (fun t => " "%char :: t) ss ++ [[]]))
  = s :: ss.
Proof.
  intros Hall. apply Forall_cons in Hall as [Hs Hss].
  rewrite filter_cons_True.
  2:{ destruct Hs as [Hs _]. by rewrite bool_decide_eq_false_2. }
  cbn [map]. rewrite (strip_trimmed _ Hs). f_equal.
  induction ss as [|t ss IH]; [done|].
  apply Forall_cons in Hss as [Ht Hss].
  cbn [map app]. rewrite filter_cons_True by done.
  cbn [map]. rewrite strip_space, (strip_trimmed _ Ht). f_equal. by apply IH.
Qed.

Lemma last_join (sep : str) (c : ascii) (l : list str) :
  l <> [] ->
  Forall (fun x => last x = Some c) l ->
  last (join sep l) = Some c.
Proof.
  intros Hne Hall. induction l as [|x l IH]; [done|]. clear Hne.
  apply Forall_cons in Hall as [Hx Hl].
  destruct l as [|y l]; [done|].
  rewrite join_cons2, !last_app, IH; done.
Qed.

Lemma head_join (sep x : str) (l : list str) :
  x <> [] -> head (join sep (x :: l)) = head x.
Proof. intros Hx. destruct l; [done|]. by destruct x. Qed.

Lemma map_result_map {A B C} (f : B -> result C) (g : A -> B) (h : A -> C)
    (l : list A) :
  Forall (fun x => f (g x) = Ok (h x)) l ->
  map_result f (map g l) = Ok (map h l).
Proof.
  induction 1 as [|x l Hx _ IH]; [done|].
  cbn [map map_result]. rewrite Hx. cbn [bind]. by rewrite IH.
Qed.

(** The block of the statement texts [ss], each closed by its [;], is cut
    back into [ss]. *)
Lemma cut_block (ss : list str) :
  Forall trimmed ss ->
  Forall (fun s => (";"%char ∉ s) /\ ("010"%char ∉ s)) ss ->
  let text :=
    join PrudensKnowledgeBase.newline
      (lit "@KnowledgeBase" :: map (fun t => t ++ lit ";") ss) in
  startswith (lit "@KnowledgeBase") (strip text) = true
  /\ map strip
       (filter (fun r => negb (bool_decide (r = [])))
          (split (lit ";")
             (strip
                (lstrip_chars (lit "@KnowledgeBase")
                   (replace PrudensKnowledgeBase.newline (lit " ")
                      (strip text))))))
     = ss.
Proof.
  intros Htr Hch text.
  destruct ss as [|s ss]; [by vm_compute|].
  set (stmts := map (fun t => t ++ lit ";") (s :: ss)) in *.
  assert (stmts <> []) as Hne by done.
  assert (Forall (fun x => last x = Some ";"%char) stmts) as Hlast.
  { unfold stmts. apply Forall_map, Forall_forall. intros x _.
    change (lit ";") with [";"%char]. apply last_snoc. }
  pose proof Htr as Htr'. apply Forall_cons in Htr' as [(Hs & Hhs & _) _].
  assert (strip text = text) as ->.
  { apply strip_id.
    - unfold text. rewrite head_join by done. by intros c [= <-].
    - unfold text, stmts. cbn [map]. rewrite join_cons2. fold stmts.
      intros c. rewrite !last_app, (last_join _ ";"%char) by done.
      by intros [= <-]. }
  split.
  { unfold text, stmts. cbn [map]. rewrite join_cons2. apply startswith_app. }
  assert (replace PrudensKnowledgeBase.newline (lit " ") text
          = join (lit " ") (lit "@KnowledgeBase" :: stmts)) as ->.
  { unfold replace, text, PrudensKnowledgeBase.newline.
    rewrite split_join_char; [done|done|].
    constructor; [char_notin|].
    unfold stmts. apply Forall_map.
    eapply Forall_impl; [exact Hch|]. intros x [_ Hx]. simpl.
    rewrite elem_of_app. intros [?|Hin]; [done|].
    by apply list_elem_of_singleton in Hin. }
  assert (lstrip_chars (lit "@KnowledgeBase")
            (join (lit " ") (lit "@KnowledgeBase" :: stmts))
          = " "%char :: join (lit " ") stmts) as ->.
  { unfold stmts. cbn [map]. rewrite join_cons2. reflexivity. }
  rewrite strip_space.
  assert (strip (join (lit " ") stmts) = join (lit " ") stmts) as ->.
  { apply strip_id.
    - unfold stmts. cbn [map]. rewrite head_join by (by destruct s).
      rewrite app_head_nonempty by done. apply Hhs.
    - intros c. rewrite (last_join _ ";"%char); [by intros [= <-]|done..]. }
  unfold stmts. rewrite split_statements.
  - by apply clean_statements.
  - apply Forall_cons in Hch as [[? _] _]. done.
  - apply Forall_cons in Hch as [_ Hch].
    eapply Forall_impl; [exact Hch|]. by intros x [? _].
Qed.

End Blocks.

(** * Knowledge bases: rendering and reading back *)

Section BlockRoundTrip.

Lemma to_string_stmt_text (r : PrudensRule.t) (n : PrudensRule.rule_name) :
  PrudensRule.to_string r n = stmt_text n r ++ lit ";".
Proof.
  rewrite to_string_shape. unfold stmt_text. by rewrite <- !app_assoc.
Qed.

Lemma parse_stmt_text (r : PrudensRule.t) (n : PrudensRule.rule_name)
    (a : str) (act : bool) :
  rule_ok r = true ->
  name_ok n = true ->
  PrudensRule.from_string (stmt_text n r) a act
  = Ok (PrudensRule.mk (PrudensRule.body r) (PrudensRule.head r) a act).
Proof.
  intros Hr Hn.
  apply rule_ok_spec in Hr as (Hb & Htok & Hhd & Hc1 & Hc2).
  apply name_text_ok in Hn as [Hne Hsp].
  unfold stmt_text.
  pose proof (parse_statement (PrudensRule.name_text n) (PrudensRule.body r)
                (PrudensRule.head r) [] a act) as H.
  rewrite app_nil_r in H. apply H; auto.
Qed.

Lemma stmt_text_trimmed (r : PrudensRule.t) (n : PrudensRule.rule_name) :
  rule_ok r = true -> name_ok n = true -> trimmed (stmt_text n r).
Proof.
  intros Hr Hn.
  apply rule_ok_spec in Hr as (_ & _ & Hhd & _).
  apply token_ok_spec in Hhd as [Hhd_ne Hhd].
  apply name_text_ok in Hn as [Hne Hsp].
  unfold stmt_text. split; [|split].
  - by destruct (PrudensRule.name_text n).
  - intros c. rewrite app_head_nonempty by done.
    intros Hc. apply head_elem_of in Hc.
    rewrite Forall_forall in Hsp. by apply Hsp.
  - intros c. rewrite !app_assoc, app_last_nonempty by done.
    intros Hc. apply last_elem_of in Hc.
    rewrite Forall_forall in Hhd. by apply Hhd.
Qed.

Lemma join_Forall (P : ascii -> Prop) (sep : str) (l : list str) :
  Forall P sep -> Forall (Forall P) l -> Forall P (join sep l).
Proof.
  intros Hsep Hl. induction Hl as [|x l Hx Hl IH]; [constructor|].
  destruct l as [|y l]; [done|].
  rewrite join_cons2. by rewrite !Forall_app.
Qed.

Lemma token_chars (t : str) :
  token_ok t = true ->
  Forall (fun c => c <> ";"%char /\ c <> "010"%char) t.
Proof.
  intros Ht. apply token_ok_spec in Ht as [_ Ht].
  eapply Forall_impl; [exact Ht|]. intros c [Hsp Hsemi].
  split; [done|]. by intros ->.
Qed.

Lemma stmt_text_chars (r : PrudensRule.t) (i : Z) :
  rule_ok r = true ->
  (";"%char ∉ stmt_text (PrudensRule.NameInt i) r)
  /\ ("010"%char ∉ stmt_text (PrudensRule.NameInt i) r).
Proof.
  intros Hr. apply rule_ok_spec in Hr as (_ & Htok & Hhd & _).
  assert (Forall (fun c => c <> ";"%char /\ c <> "010"%char)
            (stmt_text (PrudensRule.NameInt i) r)) as Hall.
  { unfold stmt_text. rewrite !Forall_app. repeat split.
    - simpl. constructor; [done|].
      destruct (str_of_int_chars i) as [_ H].
      eapply Forall_impl; [exact H|]. intros c Hc.
      by apply digit_not_space in Hc as (_ & ? & ?).
    - by repeat constructor.
    - apply join_Forall; [by repeat constructor|].
      apply Forall_forall. intros t Ht. apply token_chars.
      rewrite forallb_forall in Htok. by apply Htok, list_elem_of_In.
    - by repeat constructor.
    - by apply token_chars. }
  rewrite Forall_forall in Hall.
  split; intros Hin; apply Hall in Hin as [? ?]; done.
Qed.

Lemma filter_enumerate_active (n : nat) (rules : list PrudensRule.t) :
  Forall (fun r => PrudensRule.active r = true) rules ->
  filter (fun '(i, rule) => PrudensRule.active rule = true) (enumerate n rules)
  = enumerate n rules.
Proof.
  intros Hall. revert n. induction Hall as [|r l Hr _ IH]; intros n; [done|].
  cbn [enumerate]. rewrite filter_cons_True by done. by rewrite IH.
Qed.

Lemma rules_eqb_same (rules : list PrudensRule.t) (a : str) (act : bool) :
  PrudensKnowledgeBase.rules_eqb
    (map (fun r => PrudensRule.mk (PrudensRule.body r) (PrudensRule.head r)
                     a act) rules)
    rules = true.
Proof.
  induction rules as [|[b h a' act'] l IH]; [done|].
  cbn [map PrudensKnowledgeBase.rules_eqb]. rewrite IH.
  simpl. by rewrite rule_eqb_same.
Qed.

(** The block text of a knowledge base whose rules are all active and well
    formed is read back as the rules of the same bodies and heads. *)
Lemma parse_block_text (kb : PrudensKnowledgeBase.t) :
  kb_ok kb = true ->
  PrudensKnowledgeBase.from_string
    (PrudensKnowledgeBase.to_string kb PrudensKnowledgeBase.newline)
  = Ok (PrudensKnowledgeBase.mk
          (map (fun r => PrudensRule.mk (PrudensRule.body r)
                           (PrudensRule.head r) (lit "") true)
               (PrudensKnowledgeBase.rules kb))).
Proof.
  intros Hkb. destruct kb as [rules]. unfold kb_ok in Hkb. simpl in Hkb.
  assert (Forall (fun r => PrudensRule.active r = true /\ rule_ok r = true)
            rules) as Hall.
  { apply Forall_forall. intros r Hr. apply list_elem_of_In in Hr.
    rewrite forallb_forall in Hkb. apply Hkb in Hr.
    by apply andb_true_iff in Hr. }
  clear Hkb.
  unfold PrudensKnowledgeBase.to_string, PrudensKnowledgeBase.from_string,
    PrudensKnowledgeBase.statements.
  cbn [PrudensKnowledgeBase.rules].
  rewrite filter_enumerate_active
    by (eapply Forall_impl; [exact Hall|]; by intros r []).
  set (ss := map (fun '(i, rule) =>
                    stmt_text (PrudensRule.NameInt (Z.of_nat i)) rule)
                 (enumerate 1 rules)).
  assert (map (fun '(i, rule) =>
                 PrudensRule.to_string rule
                   (PrudensRule.NameInt (Z.of_nat i)))
              (enumerate 1 rules)
          = map (fun t => t ++ lit ";") ss) as ->.
  { unfold ss. rewrite map_map. apply map_ext. intros [i r].
    apply to_string_stmt_text. }
  assert (forall n, Forall (fun '(i, rule) => rule_ok rule = true)
                      (enumerate n rules)) as Hen.
  { clear ss. induction Hall as [|r l [_ Hr] _ IH]; intros n; simpl;
      constructor; auto. }
  destruct (cut_block ss) as [-> ->].
  - unfold ss. apply Forall_map.
    eapply Forall_impl; [apply Hen|]. intros [i r] Hr.
    by apply stmt_text_trimmed.
  - unfold ss. apply Forall_map.
    eapply Forall_impl; [apply Hen|]. intros [i r] Hr.
    by apply stmt_text_chars.
  - cbn [negb]. unfold ss.
    rewrite (map_result_map _ _
               (fun '(i, r) => PrudensRule.mk (PrudensRule.body r)
                                 (PrudensRule.head r) (lit "") true)).
    + cbn [bind]. f_equal. f_equal.
      generalize 1. clear. induction rules as [|r l IH]; intros n; [done|].
      simpl. by rewrite IH.
    + eapply Forall_impl; [apply Hen|]. intros [i r] Hr.
      by apply parse_stmt_text.
Qed.

End BlockRoundTrip.

(** * Numbering of the rendered rules *)

Section Numbering.

Context {X : Type} (f : nat -> PrudensRule.t -> X).

Local Abbreviation rendered := (rendered f).

Lemma rendered_cons (n : nat) (r : PrudensRule.t) (l : list PrudensRule.t) :
  rendered n (r :: l)
  = if PrudensRule.active r then f n r :: rendered (S n) l
    else rendered (S n) l.
Proof.
  unfold rendered. cbn [enumerate].
  destruct (PrudensRule.active r) eqn:E.
  - by rewrite filter_cons_True.
  - rewrite filter_cons_False; [done|]. by rewrite E.
Qed.

Lemma active_count_cons (r : PrudensRule.t) (l : list PrudensRule.t) :
  active_count (r :: l)
  = if PrudensRule.active r then S (active_count l) else active_count l.
Proof.
  unfold active_count. destruct (PrudensRule.active r) eqn:E.
  - by rewrite filter_cons_True.
  - rewrite filter_cons_False; [done|]. by rewrite E.
Qed.

(** One rendered element per active rule. *)
Lemma rendered_length (n : nat) (l : list PrudensRule.t) :
  length (rendered n l) = active_count l.
Proof.
  revert n. induction l as [|r l IH]; intros n; [done|].
  rewrite rendered_cons, active_count_cons.
  destruct (PrudensRule.active r); simpl; by rewrite IH.
Qed.

(** The active rule at position [p] is rendered after the active rules
    before it, under the index [n + p]. *)
Lemma rendered_lookup (n p : nat) (l : list PrudensRule.t)
    (r : PrudensRule.t) :
  l !! p = Some r ->
  PrudensRule.active r = true ->
  rendered n l !! active_count (take p l) = Some (f (n + p) r).
Proof.
  revert n p. induction l as [|x l IH]; intros n p Hp Hr; [done|].
  destruct p as [|p].
  - simpl in Hp. injection Hp as ->.
    rewrite rendered_cons, Hr. simpl. by rewrite Nat.add_0_r.
  - simpl in Hp. cbn [take]. rewrite rendered_cons, active_count_cons.
    replace (n + S p) with (S n + p) by lia.
    destruct (PrudensRule.active x); simpl; by apply IH.
Qed.

End Numbering.

(** * Literals *)

Section Literals.

Lemma contains_char (c : ascii) (s : str) :
  contains [c] s = true <-> c ∈ s.
Proof.
  unfold contains. split.
  - intros H. destruct (decide (c ∈ s)) as [|Hn]; [done|].
    by rewrite (find_char_None _ _ Hn) in H.
  - induction s as [|x s IH]; [by intros ?%elem_of_nil|].
    intros [->|Hin]%elem_of_cons.
    + cbn [find startswith]. by rewrite Ascii.eqb_refl.
    + cbn [find]. destruct (startswith [c] (x :: s)); [done|].
      specialize (IH Hin). by destruct (find [c] s).
Qed.

Lemma char_in_dash (c : ascii) :
  char_in (lit "-") c = true <-> c = "-"%char.
Proof.
  unfold char_in. simpl. rewrite orb_false_r. apply Ascii.eqb_eq.
Qed.

(** [lstrip("-")] takes every leading [-] away. *)
Lemma lstrip_dash (l : str) :
  (exists k, l = replicate k "-"%char ++ lstrip_chars (lit "-") l)
  /\ head (lstrip_chars (lit "-") l) <> Some "-"%char.
Proof.
  unfold lstrip_chars. induction l as [|c l [[k Hk] Hh]].
  - split; [by exists 0|done].
  - cbn [drop_while]. destruct (char_in (lit "-") c) eqn:E.
    + apply char_in_dash in E as ->. split; [|done].
      exists (S k). cbn [replicate app]. f_equal. exact Hk.
    + split; [by exists 0|]. simpl. intros [= ->].
      by rewrite (proj2 (char_in_dash _) eq_refl) in E.
Qed.

Lemma lstrip_dash_id (l : str) :
  head l <> Some "-"%char -> lstrip_chars (lit "-") l = l.
Proof.
  intros H. apply drop_while_id. intros c Hc.
  destruct (char_in (lit "-") c) eqn:E; [|done].
  apply char_in_dash in E as ->. done.
Qed.

End Literals.

(** * The full context *)

Section ResultFacts.

Context {A B : Type} (f : A -> result B).

Lemma map_result_Ok (xs : list A) (ys : list B) :
  map_result f xs = Ok ys -> Forall2 (fun x y => f x = Ok y) xs ys.
Proof.
  revert ys. induction xs as [|x xs IH]; intros ys; simpl.
  - intros [= <-]. constructor.
  - destruct (f x) as [y|] eqn:E; [|done]. simpl.
    destruct (map_result f xs) as [ys'|]; [|done]. simpl.
    intros [= <-]. constructor; [done|]. by apply IH.
Qed.

(** A result is built exactly when every call succeeds. *)
Lemma map_result_built (xs : list A) :
  (exists ys, map_result f xs = Ok ys)
  <-> Forall (fun x => exists y, f x = Ok y) xs.
Proof.
  induction xs as [|x xs IH]; simpl.
  - split; [constructor|eauto].
  - rewrite Forall_cons, <- IH. destruct (f x) as [y|e]; simpl.
    + destruct (map_result f xs) as [ys|e]; simpl.
      * split; eauto.
      * split; [by intros [? ?]|by intros [_ [? ?]]].
    + split; [by intros [? ?]|by intros [[? ?] _]].
Qed.

(** The exception that escapes was raised by one of the calls. *)
Lemma map_result_Raise (xs : list A) (e : PyError) :
  map_result f xs = Raise e -> exists x, x ∈ xs /\ f x = Raise e.
Proof.
  induction xs as [|x xs IH]; simpl; [done|].
  destruct (f x) as [y|e'] eqn:E; simpl.
  - destruct (map_result f xs) as [ys|e'']; simpl; [done|].
    intros [= ->]. destruct IH as (x' & Hx' & Hf); [done|].
    exists x'. split; [by right|done].
  - intros [= ->]. exists x. split; [left|done].
Qed.

End ResultFacts.

Section SortedFacts.

Context {A K : Type} (key : A -> K) (ltb : K -> K -> bool).
Hypothesis ltb_asym : forall a b, ltb a b = true -> ltb b a = false.

Local Abbreviation key_le := (key_le key ltb).

Lemma insert_sorted_Permutation (x : A) (l : list A) :
  Permutation (insert_sorted key ltb x l) (x :: l).
Proof.
  induction l as [|y l IH]; [done|]. simpl.
  destruct (ltb (key y) (key x)); [|done].
  rewrite IH. apply perm_swap.
Qed.

Lemma sorted_Permutation (l : list A) : Permutation (sorted key ltb l) l.
Proof.
  induction l as [|x l IH]; [done|]. simpl.
  by rewrite insert_sorted_Permutation, IH.
Qed.

Lemma insert_sorted_HdRel (a x : A) (l : list A) :
  key_le a x -> HdRel key_le a l -> HdRel key_le a (insert_sorted key ltb x l).
Proof.
  intros Hax Hl. destruct l as [|y l]; simpl; [by constructor|].
  destruct (ltb (key y) (key x)); constructor; [|done].
  by inversion Hl.
Qed.

Lemma insert_sorted_Sorted (x : A) (l : list A) :
  Sorted key_le l -> Sorted key_le (insert_sorted key ltb x l).
Proof.
  induction 1 as [|y l Hs IH Hhd]; simpl; [by repeat constructor|].
  destruct (ltb (key y) (key x)) eqn:E.
  - constructor; [done|]. apply insert_sorted_HdRel; [|done].
    unfold key_le. by apply ltb_asym.
  - constructor; [by constructor|]. by constructor.
Qed.

Lemma sorted_Sorted (l : list A) : Sorted key_le (sorted key ltb l).
Proof.
  induction l as [|x l IH]; simpl; [constructor|].
  by apply insert_sorted_Sorted.
Qed.

End SortedFacts.

Section SortedByFacts.

Context {A K : Type} (key : A -> result K) (ltb : K -> K -> bool).
Hypothesis ltb_asym : forall a b, ltb a b = true -> ltb b a = false.

(** The elements with their keys, as the sort holds them. *)
Lemma sorted_by_Ok (l r : list A) :
  sorted_by key ltb l = Ok r ->
  exists kl : list (K * A),
    Forall2 (fun x p => key x = Ok (fst p) /\ snd p = x) l kl
    /\ r = map snd (sorted fst ltb kl).
Proof.
  unfold sorted_by.
  destruct (map_result _ l) as [kl|] eqn:E; [|done]. simpl.
  intros [= <-]. exists kl. split; [|done].
  apply map_result_Ok in E. eapply Forall2_impl; [exact E|].
  intros x [k y] H. simpl. destruct (key x); simpl in H; [|done].
  by injection H as -> ->.
Qed.

Lemma decorated_snd (l : list A) (kl : list (K * A)) :
  Forall2 (fun x p => key x = Ok (fst p) /\ snd p = x) l kl ->
  map snd kl = l.
Proof.
  induction 1 as [|x p l kl [_ Hp] _ IH]; [done|].
  cbn [map]. by rewrite Hp, IH.
Qed.

Lemma decorated_keys (l : list A) (kl : list (K * A)) :
  Forall2 (fun x p => key x = Ok (fst p) /\ snd p = x) l kl ->
  Forall (fun p => key (snd p) = Ok (fst p)) kl.
Proof.
  induction 1 as [|x p l kl [Hk Hp] _ IH]; constructor; [|done].
  by rewrite Hp.
Qed.

Lemma sorted_by_Permutation (l r : list A) :
  sorted_by key ltb l = Ok r -> Permutation r l.
Proof.
  intros (kl & Hkl & ->)%sorted_by_Ok.
  rewrite <- (decorated_snd l kl Hkl).
  apply Permutation_map, sorted_Permutation.
Qed.

Lemma Sorted_decorated (kl : list (K * A)) :
  Forall (fun p => key (snd p) = Ok (fst p)) kl ->
  Sorted (key_le fst ltb) kl ->
  Sorted (built_le key ltb) (map snd kl).
Proof.
  intros HF HS. induction HS as [|p kl' HS IH Hhd]; [constructor|].
  apply Forall_cons in HF as [Hp HF]. cbn [map].
  constructor; [by apply IH|].
  destruct Hhd as [|q kl'' Hpq]; [constructor|].
  apply Forall_cons in HF as [Hq _]. constructor.
  by exists (fst p), (fst q).
Qed.

Lemma sorted_by_Sorted (l r : list A) :
  sorted_by key ltb l = Ok r -> Sorted (built_le key ltb) r.
Proof.
  intros (kl & Hkl & ->)%sorted_by_Ok. apply Sorted_decorated.
  - pose proof (decorated_keys l kl Hkl) as HF.
    by rewrite (sorted_Permutation fst ltb kl).
  - by apply sorted_Sorted.
Qed.

(** The list is sorted exactly when every key is built. *)
Lemma sorted_by_built (l : list A) :
  (exists r, sorted_by key ltb l = Ok r)
  <-> Forall (fun x => exists k, key x = Ok k) l.
Proof.
  unfold sorted_by. split.
  - intros [r Hr].
    destruct (map_result _ l) as [kl|] eqn:E; [|done].
    assert (exists kl, map_result
              (fun x => bind (key x) (fun k => Ok (k, x))) l = Ok kl)
      as H by eauto.
    apply map_result_built in H. eapply Forall_impl; [exact H|].
    intros x [[k y] Hy]. simpl in Hy. destruct (key x); [eauto|done].
  - intros H.
    assert (exists kl, map_result
              (fun x => bind (key x) (fun k => Ok (k, x))) l = Ok kl)
      as [kl ->]; [|simpl; eauto].
    apply map_result_built. eapply Forall_impl; [exact H|].
    intros x [k ->]. simpl. eauto.
Qed.

(** The exception that escapes was raised by the key of an element. *)
Lemma sorted_by_Raise (l : list A) (e : PyError) :
  sorted_by key ltb l = Raise e -> exists x, x ∈ l /\ key x = Raise e.
Proof.
  unfold sorted_by.
  destruct (map_result _ l) as [kl|e'] eqn:E; [done|]. simpl.
  intros [= ->]. apply map_result_Raise in E as (x & Hx & Hk).
  exists x. split; [done|]. cbv beta in Hk.
  destruct (key x); simpl in Hk; [done|by injection Hk as ->].
Qed.

End SortedByFacts.

Section NaturalOrder.

Lemma str_ltb_asym (a b : str) : str_ltb a b = true -> str_ltb b a = false.
Proof.
  revert b. induction a as [|x a IH]; intros [|y b]; simpl; try done.
  destruct (nat_of_ascii x <? nat_of_ascii y)%nat eqn:E1.
  - intros _. apply Nat.ltb_lt in E1.
    destruct (nat_of_ascii y <? nat_of_ascii x)%nat eqn:E2; [|done].
    apply Nat.ltb_lt in E2. lia.
  - destruct (nat_of_ascii y <? nat_of_ascii x)%nat eqn:E2; [done|].
    apply IH.
Qed.

Lemma key_elem_eqb_sym (a b : key_elem) : key_elem_eqb a b = key_elem_eqb b a.
Proof.
  destruct a, b; simpl; try done.
  - apply N.eqb_sym.
  - apply bool_decide_ext. naive_solver.
Qed.

Lemma key_elem_ltb_asym (a b : key_elem) :
  key_elem_ltb a b = true -> key_elem_ltb b a = false.
Proof.
  destruct a, b; simpl; try done.
  - rewrite N.ltb_lt. intros H. apply N.ltb_ge. lia.
  - apply str_ltb_asym.
Qed.

Lemma key_ltb_asym (a b : list key_elem) :
  key_ltb a b = true -> key_ltb b a = false.
Proof.
  revert b. induction a as [|x a IH]; intros [|y b]; simpl; try done.
  rewrite (key_elem_eqb_sym y x).
  destruct (key_elem_eqb x y); [apply IH|apply key_elem_ltb_asym].
Qed.

Lemma isdecimal_Forall (s : str) :
  s <> [] -> Forall (fun c => is_decimal c = true) s -> isdecimal s = true.
Proof.
  intros Hne Hall. destruct s as [|c s]; [done|].
  unfold isdecimal. apply forallb_forall. intros x Hx.
  rewrite Forall_forall in Hall. by apply Hall, list_elem_of_In.
Qed.

Lemma isdecimal_Forall_not (s : str) :
  Forall (fun c => is_decimal c = false) s -> isdecimal s = false.
Proof.
  intros Hall. destruct s as [|c s]; [done|].
  apply Forall_cons in Hall as [Hc _]. unfold isdecimal. simpl.
  by rewrite Hc.
Qed.

Lemma isdecimal_isdigit (s : str) : isdecimal s = true -> isdigit s = true.
Proof.
  destruct s as [|c s]; [done|]. unfold isdecimal, isdigit.
  rewrite !forallb_forall. intros H x Hx. unfold is_digit.
  by rewrite (H x Hx).
Qed.

Lemma isdecimal_piece (b : bool) (acc : str) :
  piece_inv b acc -> isdecimal (reverse acc) = b.
Proof.
  destruct b; simpl.
  - intros [Hne Hall]. apply isdecimal_Forall.
    + intros Hr. apply Hne. by rewrite <- (reverse_involutive acc), Hr.
    + by apply Forall_reverse.
  - intros Hall. apply isdecimal_Forall_not. by apply Forall_reverse.
Qed.

(** The pieces are by turns text and decimal digits. *)
Lemma nsre_split_go_shape (s : str) (b : bool) (acc : str) (i : nat)
    (p : str) :
  piece_inv b acc ->
  nsre_split_go b acc s !! i = Some p ->
  isdecimal p = xorb b (Nat.odd i).
Proof.
  revert b acc i. induction s as [|c s IH]; intros b acc i Hinv Hi.
  - pose proof (isdecimal_piece _ _ Hinv) as Hd. simpl in Hi.
    destruct b.
    + destruct i as [|[|i]]; simpl in Hi; [| |done].
      * by injection Hi as <-.
      * by injection Hi as <-.
    + destruct i as [|i]; simpl in Hi; [|done]. by injection Hi as <-.
  - cbn [nsre_split_go] in Hi.
    destruct (Bool.eqb (is_decimal c) b) eqn:E.
    + apply Bool.eqb_prop in E. apply (IH b (c :: acc)); [|done].
      destruct b; simpl in *.
      * split; [done|]. constructor; [done|]. by destruct Hinv.
      * by constructor.
    + apply Bool.eqb_false_iff in E.
      destruct i as [|i].
      * simpl in Hi. injection Hi as <-.
        rewrite (isdecimal_piece _ _ Hinv). by destruct b.
      * simpl in Hi. rewrite (IH (is_decimal c) [c] i); [|..|done].
        -- rewrite Nat.odd_succ, <- Nat.negb_odd.
           destruct (is_decimal c), b, (Nat.odd i); done.
        -- destruct (is_decimal c) eqn:Ec; simpl.
           ++ split; [done|]. by constructor.
           ++ by constructor.
Qed.

(** The element of a piece is an [int] exactly when the piece is
    decimal. *)
Lemma key_elem_of_Ok (t : str) (e : key_elem) :
  key_elem_of t = Ok e -> is_int e = isdecimal t.
Proof.
  unfold key_elem_of, int_of_str. destruct (isdigit t) eqn:Ed.
  - destruct (isdecimal t); [|done]. by intros [= <-].
  - intros [= <-]. simpl. destruct (isdecimal t) eqn:E; [|done].
    apply isdecimal_isdigit in E. congruence.
Qed.

(** The element of a piece is built unless the piece passes [isdigit] and
    is not decimal; the error is then [ValueError]. *)
Lemma key_elem_of_built (t : str) :
  (exists e, key_elem_of t = Ok e) <-> negb (isdigit t) || isdecimal t = true.
Proof.
  unfold key_elem_of, int_of_str.
  destruct (isdigit t), (isdecimal t); simpl; split; try done; eauto.
  by intros [e ?].
Qed.

Lemma key_elem_of_Raise (t : str) (e : PyError) :
  key_elem_of t = Raise e -> e = ValueError.
Proof.
  unfold key_elem_of, int_of_str.
  destruct (isdigit t), (isdecimal t); simpl; try done. by intros [= <-].
Qed.

(** In a key the elements at odd indices are [int]s and the elements at
    even indices are strings. *)
Lemma natural_sort_key_kind (s : str) (k : list key_elem) (i : nat)
    (e : key_elem) :
  natural_sort_key s = Ok k -> k !! i = Some e -> is_int e = Nat.odd i.
Proof.
  unfold natural_sort_key. intros Hk%map_result_Ok Hi.
  destruct (Forall2_lookup_r _ _ _ _ _ Hk Hi) as (p & Hp & He).
  apply (nsre_split_go_shape s false [] i p) in Hp; [|constructor].
  simpl in Hp. rewrite <- Hp. by apply key_elem_of_Ok.
Qed.


(** A key is built exactly for the names that are [keyed], and the only
    error is [ValueError]. *)
Lemma natural_sort_key_built (s : str) :
  (exists k, natural_sort_key s = Ok k) <-> keyed s = true.
Proof.
  unfold natural_sort_key, keyed. rewrite map_result_built, forallb_forall.
  rewrite Forall_forall. split.
  - intros H t Ht. by apply key_elem_of_built, H, list_elem_of_In.
  - intros H t Ht. by apply key_elem_of_built, H, list_elem_of_In.
Qed.

Lemma natural_sort_key_Raise (s : str) (e : PyError) :
  natural_sort_key s = Raise e -> e = ValueError /\ keyed s = false.
Proof.
  intros H. split.
  - apply map_result_Raise in H as (t & _ & Ht).
    by apply key_elem_of_Raise in Ht.
  - destruct (keyed s) eqn:E; [|done].
    apply natural_sort_key_built in E as [k Hk]. congruence.
Qed.


(** The order of the keys is a total preorder on the keys of
    [natural_sort_key]. *)

Lemma str_ltb_irrefl (a : str) : str_ltb a a = false.
Proof.
  induction a as [|x a IH]; [done|]. simpl.
  by rewrite Nat.ltb_irrefl.
Qed.

Lemma nat_of_ascii_inj (x y : ascii) : nat_of_ascii x = nat_of_ascii y -> x = y.
Proof.
  intros H. by rewrite <- (ascii_nat_embedding x), <- (ascii_nat_embedding y), H.
Qed.

Lemma str_ltb_total (a b : str) :
  a = b \/ str_ltb a b = true \/ str_ltb b a = true.
Proof.
  revert b. induction a as [|x a IH]; intros [|y b]; simpl; auto.
  destruct (nat_of_ascii x <? nat_of_ascii y)%nat eqn:E1; [auto|].
  destruct (nat_of_ascii y <? nat_of_ascii x)%nat eqn:E2; [auto|].
  apply Nat.ltb_ge in E1, E2.
  assert (x = y) as -> by (apply nat_of_ascii_inj; lia).
  destruct (IH b) as [->|[?|?]]; auto.
Qed.

Lemma str_ltb_trans (a b c : str) :
  str_ltb a b = true -> str_ltb b c = true -> str_ltb a c = true.
Proof.
  revert b c. induction a as [|x a IH]; intros [|y b] [|z c]; simpl; try done.
  destruct (nat_of_ascii x <? nat_of_ascii y)%nat eqn:E1;
    destruct (nat_of_ascii y <? nat_of_ascii x)%nat eqn:E1';
    destruct (nat_of_ascii y <? nat_of_ascii z)%nat eqn:E2;
    destruct (nat_of_ascii z <? nat_of_ascii y)%nat eqn:E2';
    destruct (nat_of_ascii x <? nat_of_ascii z)%nat eqn:E3;
    destruct (nat_of_ascii z <? nat_of_ascii x)%nat eqn:E3';
    try done;
    rewrite ?Nat.ltb_lt, ?Nat.ltb_ge in *; try lia.
  apply IH.
Qed.

Lemma key_elem_eqb_eq (a b : key_elem) : key_elem_eqb a b = true <-> a = b.
Proof.
  destruct a, b; simpl; try (split; done).
  - rewrite N.eqb_eq. split; congruence.
  - rewrite bool_decide_eq_true. split; congruence.
Qed.

Lemma key_elem_ltb_irrefl (a : key_elem) : key_elem_ltb a a = false.
Proof. destruct a; simpl; [apply N.ltb_irrefl|apply str_ltb_irrefl]. Qed.

Lemma key_elem_total (a b : key_elem) :
  is_int a = is_int b ->
  a = b \/ key_elem_ltb a b = true \/ key_elem_ltb b a = true.
Proof.
  destruct a as [m|s], b as [n|t]; simpl; try done; intros _.
  - rewrite !N.ltb_lt. destruct (N.lt_trichotomy m n) as [?|[->|?]]; auto.
  - destruct (str_ltb_total s t) as [->|[?|?]]; auto.
Qed.

Lemma key_elem_ltb_trans (a b c : key_elem) :
  key_elem_ltb a b = true -> key_elem_ltb b c = true -> key_elem_ltb a c = true.
Proof.
  destruct a, b, c; simpl; try done.
  - rewrite !N.ltb_lt. lia.
  - apply str_ltb_trans.
Qed.

Lemma key_ltb_cons (x y : key_elem) (a b : list key_elem) :
  key_ltb (x :: a) (y :: b)
  = if key_elem_eqb x y then key_ltb a b else key_elem_ltb x y.
Proof. done. Qed.

Lemma key_ltb_cons_eq (x : key_elem) (a b : list key_elem) :
  key_ltb (x :: a) (x :: b) = key_ltb a b.
Proof.
  rewrite key_ltb_cons. by rewrite (proj2 (key_elem_eqb_eq x x) eq_refl).
Qed.

Lemma key_ltb_cons_lt (x y : key_elem) (a b : list key_elem) :
  key_elem_ltb x y = true -> key_ltb (x :: a) (y :: b) = true.
Proof.
  intros H. rewrite key_ltb_cons.
  destruct (key_elem_eqb x y) eqn:E; [|done].
  apply key_elem_eqb_eq in E as ->. by rewrite key_elem_ltb_irrefl in H.
Qed.

Lemma key_ltb_cons_inv (x y : key_elem) (a b : list key_elem) :
  key_ltb (x :: a) (y :: b) = true ->
  (x = y /\ key_ltb a b = true) \/ (x <> y /\ key_elem_ltb x y = true).
Proof.
  rewrite key_ltb_cons. destruct (key_elem_eqb x y) eqn:E.
  - apply key_elem_eqb_eq in E. auto.
  - intros H. right. split; [|done]. intros ->.
    by rewrite key_elem_ltb_irrefl in H.
Qed.

Lemma key_ltb_neg_trans (b : bool) (x y z : list key_elem) :
  kinded b x -> kinded b y -> kinded b z ->
  key_ltb x z = true -> key_ltb x y = true \/ key_ltb y z = true.
Proof.
  revert b y z. induction x as [|e x IH]; intros b y z Hx Hy Hz Hxz.
  - destruct z as [|g z]; [done|]. destruct y as [|f y]; auto.
  - destruct z as [|g z]; [done|]. destruct y as [|f y]; [by right|].
    destruct Hx as [He Hx], Hy as [Hf Hy], Hz as [Hg Hz].
    assert (is_int e = is_int f) as Hk by congruence.
    destruct (key_elem_total e f Hk) as [->|[Hef|Hfe]].
    + apply key_ltb_cons_inv in Hxz as [[-> Hxz]|[Hne Hxz]].
      * rewrite !key_ltb_cons_eq. by apply (IH (negb b)).
      * right. by apply key_ltb_cons_lt.
    + left. by apply key_ltb_cons_lt.
    + right. apply key_ltb_cons_inv in Hxz as [[-> Hxz]|[Hne Hxz]].
      * by apply key_ltb_cons_lt.
      * apply key_ltb_cons_lt. by apply (key_elem_ltb_trans f e g).
Qed.

Lemma kinded_lookup (k : list key_elem) (b : bool) :
  (forall i e, k !! i = Some e -> is_int e = xorb b (Nat.odd i)) -> kinded b k.
Proof.
  revert b. induction k as [|e k IH]; intros b H; [done|]. split.
  - rewrite (H 0 e eq_refl). by destruct b.
  - apply IH. intros i e' Hi. rewrite (H (S i) e' Hi).
    rewrite Nat.odd_succ, <- Nat.negb_odd. by destruct b, (Nat.odd i).
Qed.

Lemma natural_sort_key_kinded (s : str) (k : list key_elem) :
  natural_sort_key s = Ok k -> kinded false k.
Proof.
  intros Hk. apply kinded_lookup. intros i e Hi.
  by rewrite (natural_sort_key_kind s k i e Hk Hi).
Qed.

Lemma natural_le_trans : Transitive natural_le.
Proof.
  intros a b c (ka & kb & Ha & Hb & Hab) (kb' & kc & Hb' & Hc & Hbc).
  assert (kb' = kb) as -> by congruence.
  exists ka, kc. do 2 (split; [done|]).
  destruct (key_ltb kc ka) eqn:E; [|done].
  destruct (key_ltb_neg_trans false kc kb ka
              (natural_sort_key_kinded c kc Hc)
              (natural_sort_key_kinded b kb Hb)
              (natural_sort_key_kinded a ka Ha) E); congruence.
Qed.


Lemma natural_le_keyed (a b : str) :
  natural_le a b -> keyed a = true /\ keyed b = true.
Proof.
  intros (ka & kb & Ha & Hb & _).
  split; apply natural_sort_key_built; eauto.
Qed.

End NaturalOrder.

Section FullContextAdds.

Lemma in_list_reserved (t : str) :
  in_list t [lit "true"; lit "empty"] = false
  <-> t <> lit "true" /\ t <> lit "empty".
Proof.
  unfold in_list. simpl. rewrite !orb_false_iff, !bool_decide_eq_false.
  tauto.
Qed.

Lemma inner_loop (body : list str) (acc : list str) (x : str) :
  x ∈ foldl (fun acc literal =>
               if negb (in_list literal [lit "true"; lit "empty"])
               then acc ++ [replace (lit "-") (lit "") literal]
               else acc) acc body
  <-> x ∈ acc
      \/ exists t, t ∈ body /\ t <> lit "true" /\ t <> lit "empty"
                  /\ x = context_name t.
Proof.
  revert acc. induction body as [|t body IH]; intros acc; cbn [foldl].
  - split; [by left|]. intros [?|(t & Ht & _)]; [done|]. by apply elem_of_nil in Ht.
  - rewrite IH. clear IH.
    destruct (in_list t [lit "true"; lit "empty"]) eqn:E; cbn [negb].
    + split.
      * intros [?|(t' & Ht' & ?)]; [by left|]. right. exists t'.
        split; [by right|done].
      * intros [?|(t' & Ht' & Hne1 & Hne2 & ->)]; [by left|].
        apply elem_of_cons in Ht' as [->|Ht'].
        -- assert (in_list t [lit "true"; lit "empty"] = false) as E'
             by by apply in_list_reserved.
           congruence.
        -- right. by exists t'.
    + apply in_list_reserved in E as [E1 E2]. split.
      * intros [Hx|(t' & Ht' & ?)].
        -- apply elem_of_app in Hx as [?|Hx]; [by left|].
           apply list_elem_of_singleton in Hx as ->. right. exists t.
           split; [left|done].
        -- right. exists t'. split; [by right|done].
      * intros [?|(t' & Ht' & Hne1 & Hne2 & ->)].
        -- left. apply elem_of_app. by left.
        -- apply elem_of_cons in Ht' as [->|Ht'].
           ++ left. apply elem_of_app. right.
              by apply list_elem_of_singleton.
           ++ right. by exists t'.
Qed.

(** The names in the set: one for every body token, of any rule, other
    than the two reserved tokens. *)
Lemma full_context_adds_spec (kb : PrudensKnowledgeBase.t) (x : str) :
  x ∈ PrudensKnowledgeBase.full_context_adds kb
  <-> exists r t, r ∈ PrudensKnowledgeBase.rules kb
                /\ t ∈ PrudensRule.body r
                /\ t <> lit "true" /\ t <> lit "empty"
                /\ x = context_name t.
Proof.
  unfold PrudensKnowledgeBase.full_context_adds.
  assert (forall rules (acc : list str),
    x ∈ foldl (fun acc rule =>
                 foldl (fun acc literal =>
                          if negb (in_list literal [lit "true"; lit "empty"])
                          then acc ++ [replace (lit "-") (lit "") literal]
                          else acc) acc (PrudensRule.body rule)) acc rules
    <-> x ∈ acc
        \/ exists r t, r ∈ rules /\ t ∈ PrudensRule.body r
                      /\ t <> lit "true" /\ t <> lit "empty"
                      /\ x = context_name t) as H.
  { induction rules as [|r rules IH]; intros acc; simpl.
    - split; [by left|]. intros [?|(r & t & Hr & _)]; [done|].
      by apply elem_of_nil in Hr.
    - rewrite IH, inner_loop. split.
      + intros [[?|(t & Ht & ?)]|(r' & t & Hr' & ?)].
        * by left.
        * right. exists r, t. split; [left|done].
        * right. exists r', t. split; [by right|done].
      + intros [?|(r' & t & Hr' & Ht & ?)]; [by left; left|].
        apply elem_of_cons in Hr' as [->|Hr'].
        * left. right. by exists t.
        * right. by exists r', t. }
  rewrite H. split; [|by right].
  intros [Hx|?]; [|done]. by apply elem_of_nil in Hx.
Qed.

(** The two orders of iteration list the elements of the set. *)
Lemma added_order_listing : set_listing added_order.
Proof.
  intros adds. unfold added_order. split; [apply NoDup_remove_dups|].
  intros x. apply elem_of_remove_dups.
Qed.

Lemma reverse_order_listing : set_listing reverse_order.
Proof.
  intros adds. unfold reverse_order. split.
  - rewrite reverse_Permutation. apply NoDup_remove_dups.
  - intros x. rewrite elem_of_reverse. apply elem_of_remove_dups.
Qed.

(** The outcome of [get_full_context]: a list when every name of the set
    has a key, and [ValueError] otherwise. *)
Lemma get_full_context_built (set_iter : list str -> list str)
    (kb : PrudensKnowledgeBase.t) :
  set_listing set_iter ->
  (exists l, PrudensKnowledgeBase.get_full_context set_iter kb = Ok l)
  <-> forall x, x ∈ PrudensKnowledgeBase.full_context_adds kb ->
                keyed x = true.
Proof.
  intros Hiter. unfold PrudensKnowledgeBase.get_full_context.
  destruct (Hiter (PrudensKnowledgeBase.full_context_adds kb)) as [_ Hin].
  rewrite sorted_by_built, Forall_forall. split.
  - intros H x Hx. by apply natural_sort_key_built, H, Hin.
  - intros H x Hx. by apply natural_sort_key_built, H, Hin.
Qed.

Lemma get_full_context_Raise (set_iter : list str -> list str)
    (kb : PrudensKnowledgeBase.t) (e : PyError) :
  set_listing set_iter ->
  PrudensKnowledgeBase.get_full_context set_iter kb = Raise e ->
  e = ValueError
  /\ exists x, x ∈ PrudensKnowledgeBase.full_context_adds kb
               /\ keyed x = false.
Proof.
  intros Hiter H. unfold PrudensKnowledgeBase.get_full_context in H.
  destruct (Hiter (PrudensKnowledgeBase.full_context_adds kb)) as [_ Hin].
  apply sorted_by_Raise in H as (x & Hx & Hk).
  apply natural_sort_key_Raise in Hk as [-> Hk].
  split; [done|]. exists x. split; [by apply Hin|done].
Qed.

Lemma get_full_context_unkeyed (set_iter : list str -> list str)
    (kb : PrudensKnowledgeBase.t) (x : str) :
  set_listing set_iter ->
  x ∈ PrudensKnowledgeBase.full_context_adds kb ->
  keyed x = false ->
  PrudensKnowledgeBase.get_full_context set_iter kb = Raise ValueError.
Proof.
  intros Hiter Hx Hk.
  destruct (PrudensKnowledgeBase.get_full_context set_iter kb) as [l|e] eqn:E.
  - assert (keyed x = true); [|congruence].
    apply (proj1 (get_full_context_built set_iter kb Hiter)); eauto.
  - by apply get_full_context_Raise in E as [-> _].
Qed.

(** What the list that is returned holds. *)
Lemma get_full_context_Ok (set_iter : list str -> list str)
    (kb : PrudensKnowledgeBase.t) (l : list str) :
  set_listing set_iter ->
  PrudensKnowledgeBase.get_full_context set_iter kb = Ok l ->
  NoDup l
  /\ StronglySorted natural_le l
  /\ forall x, x ∈ l <-> x ∈ PrudensKnowledgeBase.full_context_adds kb.
Proof.
  intros Hiter H. unfold PrudensKnowledgeBase.get_full_context in H.
  destruct (Hiter (PrudensKnowledgeBase.full_context_adds kb)) as [Hnd Hin].
  pose proof (sorted_by_Permutation _ _ _ _ H) as Hp.
  split; [by rewrite Hp|]. split.
  - apply Sorted_StronglySorted; [apply natural_le_trans|].
    by apply (sorted_by_Sorted natural_sort_key key_ltb key_ltb_asym _ _ H).
  - intros x. by rewrite Hp, Hin.
Qed.

End FullContextAdds.

(** * Errors of the parsers *)

Section ParseErrors.

(** The assertion of [PrudensRule.from_string] fails exactly when one of
    the two delimiters is missing. *)
Lemma from_string_AssertionError (s a : str) (act : bool) :
  PrudensRule.from_string s a act = Raise AssertionError
  <-> contains (lit " :: ") s = false \/ contains (lit " implies ") s = false.
Proof.
  unfold PrudensRule.from_string. cbn [forallb].
  destruct (contains (lit " :: ") s), (contains (lit " implies ") s);
    cbn [andb negb]; try (split; [auto|done]).
  split; [|by intros [|]].
  repeat case_match; done.
Qed.

(** After the assertion the statement is cut without any look at the
    tokens; the cuts may fail. *)
Lemma from_string_Ok (s a : str) (act : bool) (r : PrudensRule.t) :
  PrudensRule.from_string s a act = Ok r
  <-> contains (lit " :: ") s = true
      /\ contains (lit " implies ") s = true
      /\ exists seg ctx hd,
           split (lit " :: ") (rstrip_chars (lit ";") (strip s)) !! 1
           = Some seg
           /\ split (lit " implies ") seg = [ctx; hd]
           /\ r = PrudensRule.mk (split (lit ", ") ctx) (strip hd) a act.
Proof.
  unfold PrudensRule.from_string. cbn [forallb].
  destruct (contains (lit " :: ") s), (contains (lit " implies ") s);
    cbn [andb negb]; try (split; [done|by intros (? & ? & _)]).
  destruct (split (lit " :: ") (rstrip_chars (lit ";") (strip s)) !! 1)
    as [seg|]; [|split; [done|by intros (_ & _ & ? & ? & ? & ? & _)]].
  destruct (split (lit " implies ") seg) as [|ctx [|hd [|x l]]] eqn:E.
  - split; [done|]. intros (_ & _ & seg' & ? & ? & [= <-] & ? & _). congruence.
  - split; [done|]. intros (_ & _ & seg' & ? & ? & [= <-] & ? & _). congruence.
  - split.
    + intros [= <-]. do 2 (split; [done|]). by exists seg, ctx, hd.
    + intros (_ & _ & seg' & ctx' & hd' & [= <-] & H & ->).
      rewrite E in H. by injection H as <- <-.
  - split; [done|]. intros (_ & _ & seg' & ? & ? & [= <-] & ? & _). congruence.
Qed.

Lemma kb_from_string_AssertionError (s : str) :
  startswith (lit "@KnowledgeBase") (strip s) = false ->
  PrudensKnowledgeBase.from_string s = Raise AssertionError.
Proof.
  intros H. unfold PrudensKnowledgeBase.from_string. by rewrite H.
Qed.

End ParseErrors.

(** * Equality of rules *)

Section Equality.

Lemma rule_eqb_spec (a b : PrudensRule.t) :
  PrudensRule.eqb a b = true
  <-> PrudensRule.head a = PrudensRule.head b
      /\ forall t, t ∈ PrudensRule.body a <-> t ∈ PrudensRule.body b.
Proof.
  unfold PrudensRule.eqb.
  rewrite andb_true_iff, !bool_decide_eq_true. split.
  - intros [Hset Hhead]. split; [done|]. intros t.
    rewrite <- !(elem_of_list_to_set (C := gset str)). by rewrite Hset.
  - intros [Hhead Hbody]. split; [|done].
    apply set_eq. intros t. rewrite !elem_of_list_to_set. apply Hbody.
Qed.

End Equality.

(** * The claims about numbering *)

(** Claim C1 as stated fails.  In the knowledge base of three rules whose
    second rule is inactive, the block text names the third rule [R3]: the
    statements are not the ones that a running index over the active rules
    gives. *)
Lemma block_numbering_counterexample :
  PrudensKnowledgeBase.to_string kb3 PrudensKnowledgeBase.newline
  = lines "@KnowledgeBase|R1 :: a implies x;|R3 :: c implies z;"
  /\ PrudensKnowledgeBase.statements kb3 <> statements_by_active_position kb3.
Proof. split; [by vm_compute|]. vm_compute. discriminate. Qed.

(** Claim C1, amended.  The block text is the marker followed by one
    statement per active rule, in the order of the rules; the inactive rules
    are left out; and the statement of the active rule at position [p]
    (counted from 0 over all the rules, active or not) is named [R<p+1>]: it
    keeps the 1-based position of the rule in the whole sequence. *)
Theorem block_numbering (kb : PrudensKnowledgeBase.t) :
  (forall sep,
      PrudensKnowledgeBase.to_string kb sep
      = join sep (lit "@KnowledgeBase" :: PrudensKnowledgeBase.statements kb))
  /\ length (PrudensKnowledgeBase.statements kb)
     = PrudensKnowledgeBase.number_of_active_rules kb
  /\ forall (p : nat) (r : PrudensRule.t),
      PrudensKnowledgeBase.rules kb !! p = Some r ->
      PrudensRule.active r = true ->
      PrudensKnowledgeBase.statements kb
        !! active_count (take p (PrudensKnowledgeBase.rules kb))
      = Some (PrudensRule.to_string r
                (PrudensRule.NameInt (Z.of_nat (p + 1)))).
Proof.
  split; [done|]. split.
  - apply (rendered_length
             (fun i rule => PrudensRule.to_string rule
                              (PrudensRule.NameInt (Z.of_nat i)))).
  - intros p r Hp Hr. rewrite Nat.add_comm.
    by apply (rendered_lookup
                (fun i rule => PrudensRule.to_string rule
                                 (PrudensRule.NameInt (Z.of_nat i)))).
Qed.

Lemma block_numbering_witness :
  PrudensKnowledgeBase.statements kb3 !! 1
  = Some (lit "R3 :: c implies z;").
Proof.
  exact (proj2 (proj2 (block_numbering kb3)) 2
           (rule_of ["c"]%string "z" true) eq_refl eq_refl).
Defined.

(** Claim C2 as stated fails.  The exchange form of the same knowledge base
    names its two rule objects [R0] and [R2], not [R1] and [R2]. *)
Lemma exchange_numbering_counterexample :
  map PrudensKnowledgeBase.rj_name
    (PrudensKnowledgeBase.kj_kb
       (PrudensKnowledgeBase.to_prudens_kb_json_object kb3))
  = [lit "R0"; lit "R2"]
  /\ map PrudensKnowledgeBase.rj_name
       (PrudensKnowledgeBase.kj_kb
          (PrudensKnowledgeBase.to_prudens_kb_json_object kb3))
     <> names_by_active_position kb3.
Proof. split; [by vm_compute|]. vm_compute. discriminate. Qed.

(** Claim C2, amended.  The [kb] field of the exchange form holds one rule
    object per active rule, in the order of the rules, with the literals of
    the body and of the head converted one by one; the inactive rules
    contribute nothing; and the name of the object of the active rule at
    position [p] of the whole sequence is [R<base + p>] for a base that is
    the same for every knowledge base: as in the block text the number
    follows the position among all the rules, not among the active ones. *)
Theorem exchange_numbering :
  exists base : nat,
    forall kb : PrudensKnowledgeBase.t,
      let obj := PrudensKnowledgeBase.to_prudens_kb_json_object kb in
      PrudensKnowledgeBase.kj_type obj = lit "output"
      /\ PrudensKnowledgeBase.kj_imports obj = lit ""
      /\ PrudensKnowledgeBase.kj_warnings obj = []
      /\ length (PrudensKnowledgeBase.kj_kb obj)
         = PrudensKnowledgeBase.number_of_active_rules kb
      /\ forall (p : nat) (r : PrudensRule.t),
          PrudensKnowledgeBase.rules kb !! p = Some r ->
          PrudensRule.active r = true ->
          PrudensKnowledgeBase.kj_kb obj
            !! active_count (take p (PrudensKnowledgeBase.rules kb))
          = Some (PrudensKnowledgeBase.mk_rule_json
                    (lit "R" ++ str_of_int (Z.of_nat (base + p)))
                    (map to_prudens_literal (PrudensRule.body r))
                    (to_prudens_literal (PrudensRule.head r))).
Proof.
  exists 0. intros kb obj. do 3 (split; [done|]). split.
  - apply (rendered_length PrudensKnowledgeBase.rule_converted).
  - intros p r Hp Hr.
    by apply (rendered_lookup PrudensKnowledgeBase.rule_converted).
Qed.

Lemma exchange_numbering_witness :
  exists base : nat,
    PrudensKnowledgeBase.kj_kb
      (PrudensKnowledgeBase.to_prudens_kb_json_object kb3) !! 1
    = Some (PrudensKnowledgeBase.mk_rule_json
              (lit "R" ++ str_of_int (Z.of_nat (base + 2)))
              [to_prudens_literal (lit "c")] (to_prudens_literal (lit "z"))).
Proof.
  destruct exchange_numbering as [base H]. exists base.
  exact (proj2 (proj2 (proj2 (proj2 (H kb3)))) 2
           (rule_of ["c"]%string "z" true) eq_refl eq_refl).
Defined.

(** * The claims about literals *)

(** Claim C3 as stated fails.  Of [--a] both [-] are stripped, where one
    leading [-] stripped leaves [-a]; and [a-b], which has no leading [-],
    gets the sign [false]. *)
Lemma literal_parse_counterexample :
  PrudensLiteral.name (to_prudens_literal (lit "--a")) = lit "a"
  /\ fst (strip_one_sign (lit "--a")) = lit "-a"
  /\ PrudensLiteral.sign (to_prudens_literal (lit "a-b")) = false
  /\ snd (strip_one_sign (lit "a-b")) = true.
Proof. by vm_compute. Qed.

(** Claim C3, amended.  For every token the name is the token without all
    of its leading [-], so that the name never begins with [-]; the sign is
    true if and only if the token has no [-] at all, leading or not; and the
    other fields have their fixed values. *)
Theorem literal_parse (l : str) :
  (exists k : nat,
      l = replicate k "-"%char ++ PrudensLiteral.name (to_prudens_literal l))
  /\ head (PrudensLiteral.name (to_prudens_literal l)) <> Some "-"%char
  /\ (PrudensLiteral.sign (to_prudens_literal l) = true <-> "-"%char ∉ l)
  /\ PrudensLiteral.isJS (to_prudens_literal l) = false
  /\ PrudensLiteral.isEquality (to_prudens_literal l) = false
  /\ PrudensLiteral.isInequality (to_prudens_literal l) = false
  /\ PrudensLiteral.isAction (to_prudens_literal l) = false
  /\ PrudensLiteral.arity (to_prudens_literal l) = 0%Z.
Proof.
  unfold to_prudens_literal. cbn [PrudensLiteral.name PrudensLiteral.sign].
  destruct (lstrip_dash l) as [Hk Hh].
  do 2 (split; [done|]). split; [|done].
  rewrite negb_true_iff. change (lit "-") with ["-"%char].
  rewrite <- contains_char. by destruct (contains ["-"%char] l).
Qed.

(** Claim C8 as stated fails.  The token [a-b] has no leading [-], so the
    name that one stripped [-] leaves does not begin with [-]; it is
    rendered back as [-a-b]. *)
Lemma literal_round_trip_counterexample :
  single_sign (lit "a-b") = true
  /\ PrudensLiteral.to_string (to_prudens_literal (lit "a-b")) = lit "-a-b"
  /\ PrudensLiteral.to_string (to_prudens_literal (lit "a-b")) <> lit "a-b".
Proof. split; [by vm_compute|]. split; [by vm_compute|]. vm_compute. discriminate. Qed.

(** Claim C8, amended.  For every token that has no [-] after its first
    character, rendering the literal parsed from the token gives the token
    back. *)
Theorem literal_round_trip (t : str) :
  "-"%char ∉ drop 1 t ->
  PrudensLiteral.to_string (to_prudens_literal t) = t.
Proof.
  destruct t as [|c t]; [done|]. cbn [drop]. intros Ht.
  assert (lstrip_chars (lit "-") t = t) as Htail.
  { apply lstrip_dash_id. intros Hh. apply Ht. by apply head_elem_of. }
  unfold PrudensLiteral.to_string, to_prudens_literal.
  cbn [PrudensLiteral.name PrudensLiteral.sign].
  change (lit "-") with ["-"%char] in *.
  destruct (decide (c = "-"%char)) as [->|Hc].
  - assert (contains ["-"%char] ("-"%char :: t) = true) as ->
      by (apply contains_char; left).
    cbn [negb]. change (lstrip_chars ["-"%char] ("-"%char :: t))
      with (lstrip_chars ["-"%char] t).
    by rewrite Htail.
  - assert (contains ["-"%char] (c :: t) = false) as ->.
    { destruct (contains ["-"%char] (c :: t)) eqn:E; [|done].
      apply contains_char in E. apply elem_of_cons in E as [?|?]; done. }
    cbn [negb]. rewrite lstrip_dash_id; [done|].
    simpl. by intros [= ->].
Qed.

Lemma literal_round_trip_witness :
  ("-"%char ∉ drop 1 (lit "-b"))
  /\ PrudensLiteral.to_string (to_prudens_literal (lit "-b")) = lit "-b".
Proof.
  assert ("-"%char ∉ drop 1 (lit "-b")) as H by char_notin.
  split; [exact H|]. exact (literal_round_trip (lit "-b") H).
Defined.

(** * The claim about the full context *)


(** The example of the specification: [item2], [item10], [item1] sort to
    [item1], [item2], [item10]. *)
Example natural_sort_example :
  sorted_by natural_sort_key key_ltb [lit "item2"; lit "item10"; lit "item1"]
  = Ok [lit "item1"; lit "item2"; lit "item10"].
Proof. by vm_compute. Qed.

Section FullContext.

Variable set_iter : list str -> list str.
Hypothesis set_iter_listing : set_listing set_iter.


End FullContext.


(** The superscript two passes [isdigit] and is not a decimal digit: the
    full context of a knowledge base with this body token cannot be
    sorted. *)
Lemma full_context_superscript :
  PrudensKnowledgeBase.get_full_context added_order
    (PrudensKnowledgeBase.mk
       [PrudensRule.mk [["178"%char]] (lit "h") (lit "") true])
  = Raise ValueError.
Proof. by vm_compute. Qed.

(** * The claims about equality *)

(** Claim C5.  Two rules are equal if and only if their heads are equal and
    their bodies have the same tokens, whatever their order and their
    number of occurrences.  The hash does not follow the equality: the rules
    of bodies [a, b] and [b, a] are equal, and the tuples of fields that
    their generated [__hash__] hashes are different. *)
Theorem rule_equality_and_hash :
  (forall a b : PrudensRule.t,
      PrudensRule.eqb a b = true
      <-> PrudensRule.head a = PrudensRule.head b
          /\ forall t, t ∈ PrudensRule.body a <-> t ∈ PrudensRule.body b)
  /\ PrudensRule.eqb rule_ab rule_ba = true
  /\ PrudensRule.hash_fields rule_ab <> PrudensRule.hash_fields rule_ba
  /\ forall (H : Type) (tuple_hash : list str * str * str * bool -> H),
      PrudensRule.hash tuple_hash rule_ab
      = tuple_hash ([lit "a"; lit "b"], lit "c", lit "", true)
      /\ PrudensRule.hash tuple_hash rule_ba
         = tuple_hash ([lit "b"; lit "a"], lit "c", lit "", true).
Proof.
  split; [apply rule_eqb_spec|]. split; [by vm_compute|]. split; [|done].
  vm_compute. discriminate.
Qed.

(** Claim C10.  The equality of rules does not look at [added_as] and
    [active], and the equality of knowledge bases is the equality of their
    rules index by index: a knowledge base and its copy with other
    [added_as] and [active] fields are equal.  The knowledge base of one
    active rule and the knowledge base of its inactive twin are equal, and
    their block texts differ: the second one is the marker alone. *)
Theorem equality_ignores_flags :
  (forall (b : list str) (h a1 a2 : str) (act1 act2 : bool),
      PrudensRule.eqb (PrudensRule.mk b h a1 act1) (PrudensRule.mk b h a2 act2)
      = true)
  /\ (forall (rules : list PrudensRule.t) (a : str) (act : bool),
        PrudensKnowledgeBase.eqb
          (PrudensKnowledgeBase.mk
             (map (fun r => PrudensRule.mk (PrudensRule.body r)
                              (PrudensRule.head r) a act) rules))
          (PrudensKnowledgeBase.mk rules) = true)
  /\ PrudensKnowledgeBase.eqb
       (PrudensKnowledgeBase.mk [rule_on]) (PrudensKnowledgeBase.mk [rule_off])
     = true
  /\ PrudensKnowledgeBase.to_string (PrudensKnowledgeBase.mk [rule_on])
       PrudensKnowledgeBase.newline
     = lines "@KnowledgeBase|R1 :: a implies c;"
  /\ PrudensKnowledgeBase.to_string (PrudensKnowledgeBase.mk [rule_off])
       PrudensKnowledgeBase.newline
     = lit "@KnowledgeBase".
Proof.
  split; [apply rule_eqb_same|]. split; [apply rules_eqb_same|].
  by vm_compute.
Qed.

(** * The claims about the round trips *)

(** Claim C7 as stated fails.  The head [c ] (with a final space) is read
    back as [c]; the closing body token [::] makes a third [" :: "] segment
    and the parser raises; the empty rule name leaves a statement that
    begins with the delimiter, which [strip] breaks; and the rule built from
    a statement text whose head [:: x] follows a tab has tokens without
    delimiters and is not read back from its own statement. *)
Lemma rule_round_trip_counterexample :
  (delimiter_free_rule rule_spaced_head = true
   /\ PrudensRule.from_string
        (PrudensRule.to_string rule_spaced_head PrudensRule.NameNone)
        (lit "") true
      = Ok (rule_of ["a"]%string "c" true)
   /\ PrudensRule.eqb (rule_of ["a"]%string "c" true) rule_spaced_head = false)
  /\ (delimiter_free_rule rule_closing_colons = true
      /\ PrudensRule.from_string
           (PrudensRule.to_string rule_closing_colons PrudensRule.NameNone)
           (lit "") true
         = Raise ValueError)
  /\ (delimiter_free_rule rule_on = true
      /\ PrudensRule.from_string
           (PrudensRule.to_string rule_on (PrudensRule.NameStr (lit "")))
           (lit "") true
         = Raise IndexError)
  /\ (PrudensRule.from_string text_tab_head (lit "") true
      = Ok (rule_of ["a"]%string ":: x" true)
      /\ delimiter_free_rule (rule_of ["a"]%string ":: x" true) = true
      /\ PrudensRule.from_string
           (PrudensRule.to_string (rule_of ["a"]%string ":: x" true)
              PrudensRule.NameNone)
           (lit "") true
         = Raise ValueError).
Proof. by vm_compute. Qed.

(** Claim C7, amended.  For every rule with a body that is not empty, whose
    body and head tokens are not empty and have no white space and no [;],
    and whose last body token, when there are two body tokens or more, is
    not the word [::] or [implies], and for every rule name that is
    omitted, an integer, or a string that is not empty and has no white
    space, parsing the statement rendered under that name gives a rule of
    the same body, in the same order, and of the same head, which is equal
    to the rule under the set-based equality. *)
Theorem rule_round_trip (r : PrudensRule.t) (n : PrudensRule.rule_name) :
  rule_ok r = true ->
  name_ok n = true ->
  exists r' : PrudensRule.t,
    PrudensRule.from_string (PrudensRule.to_string r n) (lit "") true = Ok r'
    /\ PrudensRule.body r' = PrudensRule.body r
    /\ PrudensRule.head r' = PrudensRule.head r
    /\ PrudensRule.eqb r' r = true.
Proof.
  intros Hr Hn. eexists. split; [by apply parse_to_string|].
  do 2 (split; [done|]). destruct r. apply rule_eqb_same.
Qed.

Lemma rule_round_trip_witness :
  rule_ok (rule_of ["a"; "-b"]%string "c" false) = true
  /\ name_ok (PrudensRule.NameInt 7) = true
  /\ exists r' : PrudensRule.t,
      PrudensRule.from_string (lit "R7 :: a, -b implies c;") (lit "") true
      = Ok r'
      /\ PrudensRule.body r' = [lit "a"; lit "-b"]
      /\ PrudensRule.head r' = lit "c"
      /\ PrudensRule.eqb r' (rule_of ["a"; "-b"]%string "c" false) = true.
Proof.
  split; [reflexivity|]. split; [reflexivity|].
  exact (rule_round_trip (rule_of ["a"; "-b"]%string "c" false)
           (PrudensRule.NameInt 7) eq_refl eq_refl).
Defined.

(** Claim C6 as stated fails, on knowledge bases whose rules are all active
    and whose tokens are not empty and have no delimiter: the head [c ] is
    read back as [c]; the closing body token [::] makes the parser raise;
    and an empty body is read back as the body of one empty token. *)
Lemma kb_round_trip_counterexample :
  (delimiter_free_kb (PrudensKnowledgeBase.mk [rule_spaced_head]) = true
   /\ PrudensKnowledgeBase.from_string
        (PrudensKnowledgeBase.to_string
           (PrudensKnowledgeBase.mk [rule_spaced_head])
           PrudensKnowledgeBase.newline)
      = Ok (PrudensKnowledgeBase.mk [rule_of ["a"]%string "c" true])
   /\ PrudensKnowledgeBase.eqb
        (PrudensKnowledgeBase.mk [rule_of ["a"]%string "c" true])
        (PrudensKnowledgeBase.mk [rule_spaced_head]) = false)
  /\ (delimiter_free_kb (PrudensKnowledgeBase.mk [rule_closing_colons]) = true
      /\ PrudensKnowledgeBase.from_string
           (PrudensKnowledgeBase.to_string
              (PrudensKnowledgeBase.mk [rule_closing_colons])
              PrudensKnowledgeBase.newline)
         = Raise ValueError)
  /\ (delimiter_free_kb (PrudensKnowledgeBase.mk [rule_empty_body]) = true
      /\ PrudensKnowledgeBase.from_string
           (PrudensKnowledgeBase.to_string
              (PrudensKnowledgeBase.mk [rule_empty_body])
              PrudensKnowledgeBase.newline)
         = Ok (PrudensKnowledgeBase.mk [rule_of [""]%string "c" true])
      /\ PrudensKnowledgeBase.eqb
           (PrudensKnowledgeBase.mk [rule_of [""]%string "c" true])
           (PrudensKnowledgeBase.mk [rule_empty_body]) = false).
Proof. by vm_compute. Qed.

(** Claim C6, amended.  For every knowledge base whose rules are all active
    and have a body that is not empty, tokens that are not empty and have
    no white space and no [;], and a last body token that, when there are
    two body tokens or more, is not the word [::] or [implies], parsing the
    block text rendered with the default separator gives a knowledge base
    of as many rules, with the same bodies, in the same order, and the same
    heads, which is equal to the knowledge base under the order-sensitive
    equality. *)
Theorem kb_round_trip (kb : PrudensKnowledgeBase.t) :
  kb_ok kb = true ->
  exists kb' : PrudensKnowledgeBase.t,
    PrudensKnowledgeBase.from_string
      (PrudensKnowledgeBase.to_string kb PrudensKnowledgeBase.newline)
    = Ok kb'
    /\ map PrudensRule.body (PrudensKnowledgeBase.rules kb')
       = map PrudensRule.body (PrudensKnowledgeBase.rules kb)
    /\ map PrudensRule.head (PrudensKnowledgeBase.rules kb')
       = map PrudensRule.head (PrudensKnowledgeBase.rules kb)
    /\ PrudensKnowledgeBase.eqb kb' kb = true.
Proof.
  intros Hkb. eexists. split; [by apply parse_block_text|].
  cbn [PrudensKnowledgeBase.rules]. rewrite !map_map.
  do 2 (split; [done|]). apply rules_eqb_same.
Qed.

Lemma kb_round_trip_witness :
  kb_ok (PrudensKnowledgeBase.mk
           [rule_of ["a"; "-b"]%string "c" true; rule_on]) = true
  /\ exists kb' : PrudensKnowledgeBase.t,
      PrudensKnowledgeBase.from_string
        (lines "@KnowledgeBase|R1 :: a, -b implies c;|R2 :: a implies c;")
      = Ok kb'
      /\ map PrudensRule.body (PrudensKnowledgeBase.rules kb')
         = [[lit "a"; lit "-b"]; [lit "a"]]
      /\ map PrudensRule.head (PrudensKnowledgeBase.rules kb')
         = [lit "c"; lit "c"]
      /\ PrudensKnowledgeBase.eqb kb'
           (PrudensKnowledgeBase.mk
              [rule_of ["a"; "-b"]%string "c" true; rule_on]) = true.
Proof.
  split; [reflexivity|].
  exact (kb_round_trip
           (PrudensKnowledgeBase.mk
              [rule_of ["a"; "-b"]%string "c" true; rule_on]) eq_refl).
Defined.

(** * The claim about the errors *)

(** Claim C9 as stated fails.  The statement [a implies b :: c] has the two
    delimiters and is not parsed: its second [" :: "] segment has no
    [" implies "], and the unpacking raises [ValueError]; the statement
    [ :: a implies b] has them too and raises [IndexError]. *)
Lemma parse_errors_counterexample :
  (contains (lit " :: ") (lit "a implies b :: c") = true
   /\ contains (lit " implies ") (lit "a implies b :: c") = true
   /\ PrudensRule.from_string (lit "a implies b :: c") (lit "") true
      = Raise ValueError)
  /\ (contains (lit " :: ") (lit " :: a implies b") = true
      /\ contains (lit " implies ") (lit " :: a implies b") = true
      /\ PrudensRule.from_string (lit " :: a implies b") (lit "") true
         = Raise IndexError).
Proof. by vm_compute. Qed.

(** Claim C9, amended.  Parsing a rule statement fails with the assertion
    error exactly when [" :: "] or [" implies "] is missing from the
    statement.  A statement that has both is parsed exactly when the second
    [" :: "] segment of the trimmed statement exists and is cut by
    [" implies "] in two parts, and then into the rule of these parts, with
    no look at the tokens; it fails otherwise, with another error.  Parsing
    a block fails with the assertion error when the trimmed text does not
    begin with the marker.  A failure carries no rule and no knowledge
    base. *)
Theorem parse_errors :
  (forall (s a : str) (act : bool),
      PrudensRule.from_string s a act = Raise AssertionError
      <-> contains (lit " :: ") s = false
          \/ contains (lit " implies ") s = false)
  /\ (forall (s a : str) (act : bool) (r : PrudensRule.t),
        PrudensRule.from_string s a act = Ok r
        <-> contains (lit " :: ") s = true
            /\ contains (lit " implies ") s = true
            /\ exists seg ctx hd,
                 split (lit " :: ") (rstrip_chars (lit ";") (strip s)) !! 1
                 = Some seg
                 /\ split (lit " implies ") seg = [ctx; hd]
                 /\ r = PrudensRule.mk (split (lit ", ") ctx) (strip hd)
                          a act)
  /\ (forall s : str,
        startswith (lit "@KnowledgeBase") (strip s) = false ->
        PrudensKnowledgeBase.from_string s = Raise AssertionError)
  /\ (forall (s : str) (e : PyError) (kb : PrudensKnowledgeBase.t),
        PrudensKnowledgeBase.from_string s = Raise e ->
        PrudensKnowledgeBase.from_string s <> Ok kb)
  /\ (forall (s a : str) (act : bool) (e : PyError) (r : PrudensRule.t),
        PrudensRule.from_string s a act = Raise e ->
        PrudensRule.from_string s a act <> Ok r).
Proof.
  split; [apply from_string_AssertionError|].
  split; [apply from_string_Ok|].
  split; [apply kb_from_string_AssertionError|].
  split; intros; congruence.
Qed.

Lemma parse_errors_witness :
  startswith (lit "@KnowledgeBase")
    (strip (lit "KnowledgeBase R1 :: a implies b;")) = false
  /\ PrudensKnowledgeBase.from_string (lit "KnowledgeBase R1 :: a implies b;")
     = Raise AssertionError.
Proof.
  split; [reflexivity|].
  exact (proj1 (proj2 (proj2 parse_errors))
           (lit "KnowledgeBase R1 :: a implies b;") eq_refl).
Defined.

(** * White space, digits and letters above code point 127 *)

(** The no-break space (160) and NEL (133) are white space: [strip] removes
    them, a token that holds one is not well formed, and the parsers trim
    them as Python does. *)
Example no_break_space :
  strip (lit "b" ++ ["160"%char]) = lit "b"
  /\ strip ("133"%char :: lit "b") = lit "b"
  /\ token_ok (lit "b" ++ ["160"%char]) = false
  /\ name_ok (PrudensRule.NameStr ["160"%char]) = false
  /\ PrudensRule.from_string ("160"%char :: lit " :: a implies b") (lit "")
       true
     = Raise IndexError
  /\ PrudensKnowledgeBase.from_string ("160"%char :: lit "@KnowledgeBase")
     = Ok (PrudensKnowledgeBase.mk [])
  /\ PrudensRule.from_string (lit "R :: a implies b;" ++ ["160"%char])
       (lit "") true
     = Ok (rule_of ["a"]%string "b" true)
  /\ PrudensRule.from_string (lit "R :: a implies b;" ++ ["160"%char; ";"%char])
       (lit "") true
     = Ok (rule_of ["a"]%string "b;" true).
Proof. repeat split; by vm_compute. Qed.

(** The superscript digits pass [isdigit] and are not decimal; the capital
    letters 192 to 222 have lower-case forms. *)
Example superscripts_and_capitals :
  isdigit ["178"%char] = true
  /\ isdecimal ["178"%char] = false
  /\ nsre_split (lit "a" ++ ["178"%char] ++ lit "3b")
     = [lit "a" ++ ["178"%char]; lit "3"; lit "b"]
  /\ natural_sort_key ["178"%char] = Raise ValueError
  /\ natural_sort_key (lit "a" ++ ["178"%char])
     = Ok [KStr (lit "a" ++ ["178"%char])]
  /\ lower ["192"%char; "215"%char; "222"%char; "223"%char]
     = ["224"%char; "215"%char; "254"%char; "223"%char]
  /\ natural_sort_key ["192"%char] = natural_sort_key ["224"%char].
Proof. repeat split; by vm_compute. Qed.

(** * Further facts about [find], [split] and [strip] *)

Section SplitFacts.

Lemma startswith_take (p s : str) (n : nat) :
  startswith p (take n s) = true -> startswith p s = true.
Proof.
  rewrite !startswith_true. intros [r Hr].
  exists (r ++ drop n s). by rewrite app_assoc, <- Hr, take_drop.
Qed.

(** No occurrence of the separator lies before the first one. *)
Lemma find_take (c : ascii) (sep s : str) (i : nat) :
  find (c :: sep) s = Some i -> find (c :: sep) (take i s) = None.
Proof.
  revert i. induction s as [|x s IH]; intros i; [done|].
  cbn [find]. destruct (startswith (c :: sep) (x :: s)) eqn:E.
  - by intros [= <-].
  - destruct (find (c :: sep) s) as [j|] eqn:Ej; [|done].
    intros [= <-]. cbn [take find].
    destruct (startswith (c :: sep) (x :: take j s)) eqn:E'.
    + apply (startswith_take _ (x :: s) (S j)) in E'. congruence.
    + by rewrite (IH j eq_refl).
Qed.

Lemma find_Some_app (sep s : str) (i : nat) :
  find sep s = Some i -> s = take i s ++ sep ++ drop (i + length sep) s.
Proof.
  revert i. induction s as [|x s IH]; intros i; cbn [find].
  - destruct sep; [|done]. by intros [= <-].
  - destruct (startswith sep (x :: s)) eqn:E.
    + intros [= <-]. apply startswith_true in E as [r Hr].
      rewrite Hr. cbn [Nat.add]. by rewrite take_0, drop_app_length.
    + destruct (find sep s) as [j|]; [|done].
      intros [= <-]. cbn [take drop Nat.add app]. f_equal. by apply IH.
Qed.

(** [sub in s] holds exactly when [sub] occurs in [s]. *)
Lemma contains_infix (sub s : str) :
  contains sub s = true <-> infix_of sub s.
Proof.
  split.
  - unfold contains. destruct (find sub s) as [i|] eqn:E; [|done].
    intros _. eexists _, _. by apply find_Some_app.
  - intros (l & r & ->). apply contains_app.
Qed.

Lemma infix_of_trans (a b c : str) : infix_of a b -> infix_of b c -> infix_of a c.
Proof.
  intros (l1 & r1 & ->) (l2 & r2 & ->).
  exists (l2 ++ l1), (r1 ++ r2). by rewrite <- !app_assoc.
Qed.

Lemma contains_false_infix (sub t s : str) :
  infix_of t s -> contains sub s = false -> contains sub t = false.
Proof.
  intros Hts Hs. destruct (contains sub t) eqn:E; [|done].
  apply contains_infix in E.
  assert (contains sub s = true) as H
    by (apply contains_infix; by eapply infix_of_trans).
  congruence.
Qed.

Lemma infix_of_take (s : str) (n : nat) : infix_of (take n s) s.
Proof. exists [], (drop n s). by rewrite take_drop. Qed.

Lemma infix_of_drop (s : str) (n : nat) : infix_of (drop n s) s.
Proof. exists (take n s), []. by rewrite app_nil_r, take_drop. Qed.

Lemma infix_of_refl (s : str) : infix_of s s.
Proof. exists [], []. by rewrite app_nil_r. Qed.

(** The pieces of [split] are parts of the text and have no separator. *)
Lemma split_fuel_pieces (c : ascii) (sep : str) (n : nat) (s p : str) :
  length s <= n ->
  p ∈ split_fuel n (c :: sep) s ->
  contains (c :: sep) p = false /\ infix_of p s.
Proof.
  revert s. induction n as [|n IH]; intros s Hn Hp.
  - destruct s; [|simpl in Hn; lia]. apply list_elem_of_singleton in Hp as ->.
    split; [done|apply infix_of_refl].
  - cbn [split_fuel] in Hp.
    destruct (find (c :: sep) s) as [i|] eqn:E.
    + pose proof (find_Some_length _ _ _ E) as Hi.
      apply elem_of_cons in Hp as [->|Hp].
      * split; [|apply infix_of_take].
        unfold contains. by rewrite (find_take _ _ _ _ E).
      * apply IH in Hp as [H1 H2].
        -- split; [done|]. eapply infix_of_trans; [exact H2|].
           apply infix_of_drop.
        -- rewrite length_drop. simpl in *. lia.
    + apply list_elem_of_singleton in Hp as ->.
      split; [|apply infix_of_refl]. unfold contains. by rewrite E.
Qed.

Lemma split_pieces (c : ascii) (sep s p : str) :
  p ∈ split (c :: sep) s ->
  contains (c :: sep) p = false /\ infix_of p s.
Proof. by apply split_fuel_pieces. Qed.

Lemma split_fuel_nonempty (n : nat) (sep s : str) : split_fuel n sep s <> [].
Proof. destruct n; cbn [split_fuel]; [done|]. by case_match. Qed.

Lemma split_nonempty (sep s : str) : split sep s <> [].
Proof. apply split_fuel_nonempty. Qed.

Lemma join_cons_nonempty (sep x : str) (l : list str) :
  l <> [] -> join sep (x :: l) = x ++ sep ++ join sep l.
Proof. by destruct l. Qed.

(** [sep.join(s.split(sep)) == s] *)
Lemma join_split (c : ascii) (sep s : str) :
  join (c :: sep) (split (c :: sep) s) = s.
Proof.
  unfold split.
  assert (forall n t, length t <= n ->
            join (c :: sep) (split_fuel n (c :: sep) t) = t) as H.
  { induction n as [|n IH]; intros t Hn; [done|].
    cbn [split_fuel]. destruct (find (c :: sep) t) as [i|] eqn:E; [|done].
    pose proof (find_Some_length _ _ _ E) as Hi.
    rewrite join_cons_nonempty.
    - rewrite IH by (rewrite length_drop; simpl in *; lia).
      symmetry. by apply find_Some_app.
    - apply split_fuel_nonempty. }
  by apply H.
Qed.

Lemma drop_while_suffix (p : ascii -> bool) (s : str) :
  exists l, s = l ++ drop_while p s.
Proof.
  induction s as [|c s [l IH]]; [by exists []|].
  simpl. destruct (p c); [|by exists []].
  exists (c :: l). simpl. by f_equal.
Qed.

Lemma drop_while_head (p : ascii -> bool) (s : str) (c : ascii) :
  head (drop_while p s) = Some c -> p c = false.
Proof.
  induction s as [|x s IH]; [done|]. simpl.
  destruct (p x) eqn:E; [done|]. simpl. by intros [= <-].
Qed.

Lemma strip_infix (s : str) : infix_of (strip s) s.
Proof.
  unfold strip. destruct (drop_while_suffix is_space s) as [l Hl].
  destruct (drop_while_suffix is_space (reverse (drop_while is_space s)))
    as [l2 Hl2].
  exists l, (reverse l2). rewrite Hl at 1. f_equal.
  apply (f_equal reverse) in Hl2.
  rewrite reverse_involutive, reverse_app in Hl2. done.
Qed.

(** A stripped text has no white space at its ends. *)
Lemma strip_trimmed_ends (s : str) : trimmed_ends (strip s).
Proof.
  unfold strip. set (t := drop_while is_space s).
  split; intros c.
  - rewrite head_reverse. intros Hc.
    destruct (drop_while_suffix is_space (reverse t)) as [l Hl].
    assert (last (reverse t) = Some c) as Hlast.
    { rewrite Hl, last_app, Hc. done. }
    rewrite last_reverse in Hlast. by apply drop_while_head in Hlast.
  - rewrite last_reverse. apply drop_while_head.
Qed.

End SplitFacts.

(** * What the parsers always give *)

Section ParsedRules.

Lemma rstrip_chars_infix (chars s : str) : infix_of (rstrip_chars chars s) s.
Proof.
  unfold rstrip_chars.
  destruct (drop_while_suffix (char_in chars) (reverse s)) as [l Hl].
  exists [], (reverse l). simpl.
  apply (f_equal reverse) in Hl.
  by rewrite reverse_involutive, reverse_app in Hl.
Qed.

End ParsedRules.

(** Property X1.  A rendered statement has the two delimiters, whatever the
    rule and the name: parsing it cannot fail on the assertion. *)
Theorem rendered_statement_outcome (r : PrudensRule.t)
    (n : PrudensRule.rule_name) (a : str) (act : bool) :
  contains (lit " :: ") (PrudensRule.to_string r n) = true
  /\ contains (lit " implies ") (PrudensRule.to_string r n) = true
  /\ (PrudensRule.from_string (PrudensRule.to_string r n) a act
      = Raise IndexError
      \/ PrudensRule.from_string (PrudensRule.to_string r n) a act
         = Raise ValueError
      \/ exists r', PrudensRule.from_string (PrudensRule.to_string r n) a act
                    = Ok r').
Proof.
  assert (contains (lit " :: ") (PrudensRule.to_string r n) = true) as H1
    by (rewrite to_string_shape; apply contains_app).
  assert (contains (lit " implies ") (PrudensRule.to_string r n) = true) as H2.
  { rewrite to_string_shape.
    rewrite (app_assoc (PrudensRule.name_text n)), app_assoc.
    apply contains_app. }
  do 2 (split; [done|]).
  destruct (PrudensRule.from_string (PrudensRule.to_string r n) a act)
    as [r'|[]] eqn:E; eauto.
  apply from_string_AssertionError in E as [E|E]; congruence.
Qed.

(** What the parser of statements leaves in a rule. *)
Lemma from_string_facts (s a : str) (act : bool) (r : PrudensRule.t) :
  PrudensRule.from_string s a act = Ok r ->
  PrudensRule.body r <> []
  /\ Forall (fun t => contains (lit ", ") t = false
                     /\ contains (lit " :: ") t = false
                     /\ contains (lit " implies ") t = false
                     /\ infix_of t s)
       (PrudensRule.body r)
  /\ contains (lit " :: ") (PrudensRule.head r) = false
  /\ contains (lit " implies ") (PrudensRule.head r) = false
  /\ infix_of (PrudensRule.head r) s
  /\ trimmed_ends (PrudensRule.head r)
  /\ PrudensRule.added_as r = a
  /\ PrudensRule.active r = act.
Proof.
  intros H. apply from_string_Ok in H as (_ & _ & seg & ctx & hd & Hseg & Hcut & ->).
  cbn [PrudensRule.body PrudensRule.head PrudensRule.added_as PrudensRule.active].
  apply list_elem_of_lookup_2 in Hseg.
  change (lit " :: ") with (" "%char :: lit ":: ") in Hseg |- *.
  apply split_pieces in Hseg as [Hseg1 Hseg_s].
  assert (infix_of seg s) as Hseg_in.
  { eapply infix_of_trans; [exact Hseg_s|].
    eapply infix_of_trans; [apply rstrip_chars_infix|apply strip_infix]. }
  assert (ctx ∈ split (lit " implies ") seg) as Hctx by (rewrite Hcut; left).
  assert (hd ∈ split (lit " implies ") seg) as Hhd
    by (rewrite Hcut; right; left).
  change (lit " implies ") with (" "%char :: lit "implies ") in Hctx, Hhd |- *.
  apply split_pieces in Hctx as [Hctx1 Hctx_in].
  apply split_pieces in Hhd as [Hhd1 Hhd_in].
  split; [apply split_nonempty|]. split.
  - apply Forall_forall. intros t Ht.
    change (lit ", ") with (","%char :: lit " ") in Ht |- *.
    apply split_pieces in Ht as [Ht1 Ht_in].
    split; [done|]. split; [|split].
    + eapply contains_false_infix; [|exact Hseg1].
      by eapply infix_of_trans.
    + by eapply contains_false_infix.
    + eapply infix_of_trans; [exact Ht_in|]. by eapply infix_of_trans.
  - pose proof (strip_infix hd) as Hs.
    split; [|split; [|split; [|split; [apply strip_trimmed_ends|done]]]].
    + eapply contains_false_infix; [|exact Hseg1].
      by eapply infix_of_trans.
    + by eapply contains_false_infix.
    + eapply infix_of_trans; [exact Hs|]. by eapply infix_of_trans.
Qed.

(** Property X2.  A rule read from a text has a body that is not empty; its
    tokens are parts of the text and have none of the delimiters [", "],
    [" :: "] and [" implies "]; its head has no white space at its ends;
    and its [added_as] and [active] are the arguments of the call. *)
Theorem parsed_rule_invariants (s a : str) (act : bool) (r : PrudensRule.t) :
  PrudensRule.from_string s a act = Ok r ->
  PrudensRule.body r <> []
  /\ Forall (fun t => contains (lit ", ") t = false
                     /\ contains (lit " :: ") t = false
                     /\ contains (lit " implies ") t = false
                     /\ infix_of t s)
       (PrudensRule.body r)
  /\ contains (lit " :: ") (PrudensRule.head r) = false
  /\ contains (lit " implies ") (PrudensRule.head r) = false
  /\ infix_of (PrudensRule.head r) s
  /\ trimmed_ends (PrudensRule.head r)
  /\ PrudensRule.added_as r = a
  /\ PrudensRule.active r = act.
Proof. apply from_string_facts. Qed.

Lemma parsed_rule_invariants_witness :
  PrudensRule.from_string (lit "R1 :: a, -b implies c;") (lit "x") false
  = Ok (PrudensRule.mk [lit "a"; lit "-b"] (lit "c") (lit "x") false)
  /\ trimmed_ends (lit "c").
Proof.
  split; [reflexivity|].
  exact (proj1 (proj2 (proj2 (proj2 (proj2 (proj2
           (parsed_rule_invariants (lit "R1 :: a, -b implies c;") (lit "x")
              false _ eq_refl))))))).
Defined.

(** Property X3.  Every rule of a knowledge base read from a text is active,
    has an empty [added_as], a body that is not empty and a head with no
    white space at its ends: all the rules that were read are rendered
    again. *)
Theorem parsed_kb_invariants (s : str) (kb : PrudensKnowledgeBase.t) :
  PrudensKnowledgeBase.from_string s = Ok kb ->
  Forall (fun r => PrudensRule.active r = true
                   /\ PrudensRule.added_as r = lit ""
                   /\ PrudensRule.body r <> []
                   /\ trimmed_ends (PrudensRule.head r))
    (PrudensKnowledgeBase.rules kb)
  /\ PrudensKnowledgeBase.number_of_active_rules kb
     = length (PrudensKnowledgeBase.rules kb)
  /\ length (PrudensKnowledgeBase.statements kb)
     = length (PrudensKnowledgeBase.rules kb).
Proof.
  unfold PrudensKnowledgeBase.from_string.
  destruct (startswith _ _); [|done]. cbn [negb].
  destruct (map_result _ _) as [rs|] eqn:E; [|done]. simpl.
  intros [= <-]. cbn [PrudensKnowledgeBase.rules].
  apply map_result_Ok in E.
  assert (Forall (fun r => PrudensRule.active r = true
                           /\ PrudensRule.added_as r = lit ""
                           /\ PrudensRule.body r <> []
                           /\ trimmed_ends (PrudensRule.head r)) rs) as Hall.
  { induction E as [|x r xs rs' Hx _ IH]; constructor; [|done].
    apply from_string_facts in Hx.
    destruct Hx as (? & _ & _ & _ & _ & ? & ? & ?). done. }
  assert (PrudensKnowledgeBase.number_of_active_rules
            (PrudensKnowledgeBase.mk rs) = length rs) as Hn.
  { unfold PrudensKnowledgeBase.number_of_active_rules.
    cbn [PrudensKnowledgeBase.rules]. clear E.
    induction Hall as [|r l (Hr & _) _ IH]; [done|].
    rewrite filter_cons_True by done. simpl. by rewrite IH. }
  split; [done|]. split; [done|].
  rewrite <- Hn.
  apply (rendered_length
           (fun i rule => PrudensRule.to_string rule
                            (PrudensRule.NameInt (Z.of_nat i)))).
Qed.

Lemma parsed_kb_invariants_witness :
  PrudensKnowledgeBase.from_string (lit "@KnowledgeBase R7 :: a implies c;")
  = Ok (PrudensKnowledgeBase.mk [fresh_rule [lit "a"] (lit "c")])
  /\ PrudensKnowledgeBase.number_of_active_rules
       (PrudensKnowledgeBase.mk [fresh_rule [lit "a"] (lit "c")]) = 1.
Proof.
  split; [reflexivity|].
  exact (proj1 (proj2
           (parsed_kb_invariants (lit "@KnowledgeBase R7 :: a implies c;")
              (PrudensKnowledgeBase.mk [fresh_rule [lit "a"] (lit "c")])
              eq_refl))).
Defined.


(** * Blocks under any blank separator *)

Section BlankSeparators.

Lemma split_char_cons_ne (c x : ascii) (s : str) :
  x <> c ->
  split [c] (x :: s)
  = match split [c] s with
    | hd :: tl => (x :: hd) :: tl
    | [] => [[x]]
    end.
Proof.
  intros Hx.
  assert (find [c] (x :: s) = S <$> find [c] s) as Hf
    by (apply find_next, startswith_cons_ne; congruence).
  destruct (find [c] s) as [i|] eqn:E.
  - rewrite (split_Some c [] (x :: s) (S i)) by done.
    rewrite (split_Some c [] s i) by done. done.
  - rewrite (split_None _ (x :: s)) by done.
    by rewrite (split_None _ s).
Qed.

(** [s.replace(c, d)] for two characters changes every [c] into [d]. *)
Lemma replace_char (c d : ascii) (s : str) :
  replace [c] [d] s = map (subst_char c d) s.
Proof.
  unfold replace. induction s as [|x s IH]; [done|].
  cbn [map]. unfold subst_char at 1.
  destruct (Ascii.eqb x c) eqn:E.
  - apply Ascii.eqb_eq in E as ->.
    assert (split [c] (c :: s) = [] :: split [c] s) as ->
      by apply (split_char_app c [] s), not_elem_of_nil.
    rewrite join_cons_nonempty by apply split_nonempty.
    simpl. by rewrite IH.
  - apply Ascii.eqb_neq in E. rewrite (split_char_cons_ne _ _ _ E).
    rewrite <- IH.
    destruct (split [c] s) as [|hd tl] eqn:Es;
      [by apply split_nonempty in Es|].
    change ((x :: hd) :: tl) with (([x] ++ hd) :: tl).
    by rewrite <- join_prefix.
Qed.

Lemma map_join {f : ascii -> ascii} (sep : str) (l : list str) :
  map f (join sep l) = join (map f sep) (map (map f) l).
Proof.
  induction l as [|x l IH]; [done|]. destruct l as [|y l]; [done|].
  rewrite join_cons2. cbn [map]. rewrite join_cons2, !map_app.
  by rewrite IH.
Qed.

Lemma map_subst_id (c d : ascii) (s : str) :
  c ∉ s -> map (subst_char c d) s = s.
Proof.
  induction s as [|x s IH]; [done|]. rewrite not_elem_of_cons.
  intros [Hx Hs]. cbn [map]. rewrite IH by done. unfold subst_char.
  by rewrite (proj2 (Ascii.eqb_neq x c)) by congruence.
Qed.

Lemma lstrip_chars_prefix (chars p s : str) :
  Forall (fun c => char_in chars c = true) p ->
  lstrip_chars chars (p ++ s) = lstrip_chars chars s.
Proof.
  unfold lstrip_chars. induction 1 as [|c p Hc _ IH]; [done|].
  simpl. by rewrite Hc.
Qed.

Lemma strip_blank_prefix (b s : str) :
  Forall (fun c => is_space c = true) b -> strip (b ++ s) = strip s.
Proof.
  unfold strip. induction 1 as [|c b Hc _ IH]; [done|].
  simpl. by rewrite Hc.
Qed.

(** [split_statements] for any separator without [;]. *)
Lemma split_statements_sep (sep s : str) (ss : list str) :
  ";"%char ∉ sep ->
  ";"%char ∉ s ->
  Forall (fun t => ";"%char ∉ t) ss ->
  split (lit ";") (join sep (map (fun t => t ++ lit ";") (s :: ss)))
  = s :: map (fun t => sep ++ t) ss ++ [[]].
Proof.
  change (lit ";") with [";"%char]. intros Hsep.
  revert s. induction ss as [|s2 ss IH]; intros s Hs Hss.
  - simpl. by rewrite (split_char_app _ _ _ Hs).
  - apply Forall_cons in Hss as [Hs2 Hss].
    cbn [map]. rewrite join_cons2, <- app_assoc.
    change ([";"%char] ++ ?x) with (";"%char :: x).
    rewrite (split_char_app _ _ _ Hs). f_equal.
    rewrite (join_prefix _ sep), app_assoc.
    specialize (IH (sep ++ s2)). cbn [map] in IH.
    rewrite IH; [done| |done].
    rewrite elem_of_app. by intros [?|?].
Qed.

Lemma clean_statements_sep (sep s : str) (ss : list str) :
  Forall (fun c => is_space c = true) sep ->
  Forall trimmed (s :: ss) ->
  map strip
    (filter (fun r => negb (bool_decide (r = [])))
       (s :: map (fun t => sep ++ t) ss ++ [[]]))
  = s :: ss.
Proof.
  intros Hsep Hall. apply Forall_cons in Hall as [Hs Hss].
  rewrite filter_cons_True.
  2:{ destruct Hs as [Hs _]. by rewrite bool_decide_eq_false_2. }
  cbn [map]. rewrite (strip_trimmed _ Hs). f_equal.
  induction ss as [|t ss IH]; [done|].
  apply Forall_cons in Hss as [Ht Hss].
  cbn [map app]. rewrite filter_cons_True.
  2:{ destruct Ht as [Ht _]. rewrite bool_decide_eq_false_2; [done|].
      intros [_ ?]%app_eq_nil. done. }
  cbn [map]. rewrite (strip_blank_prefix _ _ Hsep), (strip_trimmed _ Ht).
  f_equal. by apply IH.
Qed.

Lemma space_not_in_marker (x : ascii) :
  is_space x = true -> char_in (lit "@KnowledgeBase") x = false.
Proof.
  intros Hx. destruct (char_in (lit "@KnowledgeBase") x) eqn:E; [|done].
  unfold char_in in E. apply existsb_exists in E as (y & Hy & Hxy).
  apply Ascii.eqb_eq in Hxy as <-. exfalso.
  simpl in Hy.
  repeat (destruct Hy as [<-|Hy]; [by vm_compute in Hx|]). done.
Qed.

(** [cut_block] for any blank separator: the block of the statement texts
    [ss] is cut back into [ss]. *)
Lemma cut_block_blank (sep : str) (ss : list str) :
  blank sep = true ->
  Forall trimmed ss ->
  Forall (fun s => (";"%char ∉ s) /\ ("010"%char ∉ s)) ss ->
  Forall (fun s => forall c, head s = Some c ->
                             char_in (lit "@KnowledgeBase") c = false) ss ->
  let text := join sep (lit "@KnowledgeBase" :: map (fun t => t ++ lit ";") ss) in
  startswith (lit "@KnowledgeBase") (strip text) = true
  /\ map strip
       (filter (fun r => negb (bool_decide (r = [])))
          (split (lit ";")
             (strip
                (lstrip_chars (lit "@KnowledgeBase")
                   (replace PrudensKnowledgeBase.newline (lit " ")
                      (strip text))))))
     = ss.
Proof.
  intros Hblank Htr Hch Hhd text.
  destruct ss as [|s ss]; [by vm_compute|].
  set (stmts := map (fun t => t ++ lit ";") (s :: ss)) in *.
  assert (stmts <> []) as Hne by done.
  assert (Forall (fun x => last x = Some ";"%char) stmts) as Hlast.
  { unfold stmts. apply Forall_map, Forall_forall. intros x _.
    change (lit ";") with [";"%char]. apply last_snoc. }
  pose proof Htr as Htr'. apply Forall_cons in Htr' as [(Hs & Hhs & _) _].
  assert (Forall (fun c => is_space c = true) sep) as Hsep.
  { apply Forall_forall. intros c Hc. unfold blank in Hblank.
    rewrite forallb_forall in Hblank. by apply Hblank, list_elem_of_In. }
  set (sep' := map (subst_char "010" " ") sep).
  assert (Forall (fun c => is_space c = true) sep') as Hsep'.
  { unfold sep'. apply Forall_map. eapply Forall_impl; [exact Hsep|].
    intros c Hc. simpl. unfold subst_char. by destruct (Ascii.eqb c "010"). }
  assert (strip text = text) as ->.
  { apply strip_id.
    - unfold text. rewrite head_join by done. by intros c [= <-].
    - unfold text, stmts. cbn [map]. rewrite join_cons2. fold stmts.
      intros c. rewrite !last_app, (last_join _ ";"%char) by done.
      by intros [= <-]. }
  split.
  { unfold text, stmts. cbn [map]. rewrite join_cons2. apply startswith_app. }
  assert (replace PrudensKnowledgeBase.newline (lit " ") text
          = join sep' (lit "@KnowledgeBase" :: stmts)) as ->.
  { unfold PrudensKnowledgeBase.newline. change (lit " ") with [" "%char].
    rewrite replace_char. unfold text. rewrite map_join. fold sep'.
    f_equal. cbn [map]. f_equal.
    rewrite <- (map_id stmts) at 2. apply Forall_fmap_ext_1.
    unfold stmts. apply Forall_map.
    eapply Forall_impl; [exact Hch|]. intros x [_ Hx]. simpl.
    apply map_subst_id. rewrite elem_of_app. intros [?|Hin]; [done|].
    by apply list_elem_of_singleton in Hin. }
  assert (lstrip_chars (lit "@KnowledgeBase")
            (join sep' (lit "@KnowledgeBase" :: stmts))
          = sep' ++ join sep' stmts) as ->.
  { unfold stmts at 1. cbn [map]. rewrite join_cons2. fold stmts.
    rewrite lstrip_chars_prefix by (by repeat constructor).
    apply drop_while_id. intros c.
    destruct sep' as [|x sep''] eqn:Es.
    - unfold stmts. cbn [map app]. rewrite head_join by (by destruct s).
      rewrite app_head_nonempty by done.
      apply Forall_cons in Hhd as [Hhd _]. apply Hhd.
    - simpl. intros [= <-]. apply Forall_cons in Hsep' as [Hx _].
      by apply space_not_in_marker. }
  rewrite (strip_blank_prefix _ _ Hsep').
  assert (strip (join sep' stmts) = join sep' stmts) as ->.
  { apply strip_id.
    - unfold stmts. cbn [map]. rewrite head_join by (by destruct s).
      rewrite app_head_nonempty by done. apply Hhs.
    - intros c. rewrite (last_join _ ";"%char); [by intros [= <-]|done..]. }
  unfold stmts. rewrite split_statements_sep.
  - by apply clean_statements_sep.
  - intros Hin. rewrite Forall_forall in Hsep'. by apply Hsep' in Hin.
  - apply Forall_cons in Hch as [[? _] _]. done.
  - apply Forall_cons in Hch as [_ Hch].
    eapply Forall_impl; [exact Hch|]. by intros x [? _].
Qed.

End BlankSeparators.

(** * Knowledge bases with inactive rules, under any blank separator *)

Section ActiveRoundTrip.

Lemma filter_enumerate_map {X : Type} (g : PrudensRule.t -> X) (n : nat)
    (rules : list PrudensRule.t) :
  map (fun '(i, r) => g r)
      (filter (fun '(i, rule) => PrudensRule.active rule = true)
         (enumerate n rules))
  = map g (filter (fun r => PrudensRule.active r = true) rules).
Proof.
  revert n. induction rules as [|r l IH]; intros n; [done|].
  cbn [enumerate]. destruct (PrudensRule.active r) eqn:E.
  - rewrite !filter_cons_True by done. cbn [map]. by rewrite IH.
  - rewrite !filter_cons_False by (by rewrite E). apply IH.
Qed.

Lemma filter_enumerate_ok (n : nat) (rules : list PrudensRule.t) :
  forallb (fun r => implb (PrudensRule.active r) (rule_ok r)) rules = true ->
  Forall (fun '(i, rule) => rule_ok rule = true)
    (filter (fun '(i, rule) => PrudensRule.active rule = true)
       (enumerate n rules)).
Proof.
  revert n. induction rules as [|r l IH]; intros n; [constructor|].
  cbn [forallb enumerate]. rewrite andb_true_iff. intros [Hr Hl].
  destruct (PrudensRule.active r) eqn:E.
  - rewrite filter_cons_True by done. constructor; [done|]. by apply IH.
  - rewrite filter_cons_False by (by rewrite E). by apply IH.
Qed.

(** Reading back the block text of a knowledge base whose active rules are
    well formed, rendered with any blank separator. *)
Lemma parse_block_text_active (kb : PrudensKnowledgeBase.t) (sep : str) :
  active_ok kb = true ->
  blank sep = true ->
  PrudensKnowledgeBase.from_string (PrudensKnowledgeBase.to_string kb sep)
  = Ok (PrudensKnowledgeBase.mk
          (map (fun r => fresh_rule (PrudensRule.body r) (PrudensRule.head r))
               (active_rules kb))).
Proof.
  intros Hkb Hsep. destruct kb as [rules]. unfold active_ok in Hkb.
  cbn [PrudensKnowledgeBase.rules] in Hkb.
  unfold PrudensKnowledgeBase.to_string, PrudensKnowledgeBase.from_string,
    PrudensKnowledgeBase.statements, active_rules.
  cbn [PrudensKnowledgeBase.rules].
  pose proof (filter_enumerate_ok 1 rules Hkb) as Hen.
  set (L := filter (fun '(i, rule) => PrudensRule.active rule = true)
              (enumerate 1 rules)) in *.
  set (ss := map (fun '(i, rule) =>
                    stmt_text (PrudensRule.NameInt (Z.of_nat i)) rule) L).
  assert (map (fun '(i, rule) =>
                 PrudensRule.to_string rule
                   (PrudensRule.NameInt (Z.of_nat i))) L
          = map (fun t => t ++ lit ";") ss) as ->.
  { unfold ss. rewrite map_map. apply map_ext. intros [i r].
    apply to_string_stmt_text. }
  destruct (cut_block_blank sep ss Hsep) as [-> ->].
  - unfold ss. apply Forall_map.
    eapply Forall_impl; [apply Hen|]. intros [i r] Hr.
    by apply stmt_text_trimmed.
  - unfold ss. apply Forall_map.
    eapply Forall_impl; [apply Hen|]. intros [i r] Hr.
    by apply stmt_text_chars.
  - unfold ss. apply Forall_map, Forall_forall. intros [i r] _.
    simpl. by intros c [= <-].
  - cbn [negb]. unfold ss.
    rewrite (map_result_map _ _
               (fun '(i, r) => fresh_rule (PrudensRule.body r)
                                 (PrudensRule.head r))).
    + cbn [bind]. f_equal. f_equal. unfold L.
      apply (filter_enumerate_map
               (fun r => fresh_rule (PrudensRule.body r) (PrudensRule.head r))).
    + eapply Forall_impl; [apply Hen|]. intros [i r] Hr.
      by apply parse_stmt_text.
Qed.

Lemma rendered_fresh (n : nat) (l : list PrudensRule.t) :
  Forall (fun r => PrudensRule.active r = true) l ->
  rendered (fun i rule => PrudensRule.to_string rule
                            (PrudensRule.NameInt (Z.of_nat i))) n
    (map (fun r => fresh_rule (PrudensRule.body r) (PrudensRule.head r)) l)
  = rendered (fun i rule => PrudensRule.to_string rule
                              (PrudensRule.NameInt (Z.of_nat i))) n l.
Proof.
  intros Hall. revert n. induction Hall as [|r l Hr _ IH]; intros n; [done|].
  cbn [map]. rewrite !rendered_cons, Hr. cbn [fresh_rule PrudensRule.active].
  by rewrite IH.
Qed.

Lemma active_rules_active (kb : PrudensKnowledgeBase.t) :
  Forall (fun r => PrudensRule.active r = true) (active_rules kb).
Proof.
  unfold active_rules. apply Forall_forall. intros r Hr.
  by apply list_elem_of_filter in Hr as [? _].
Qed.

End ActiveRoundTrip.

(** Property X4.  Parsing the block text of a knowledge base gives back its
    active rules, in their order, with the same bodies and heads, and drops
    the inactive ones, whatever blank separator (white space only, or none)
    the text was rendered with; only the active rules have to be well
    formed. *)
Theorem active_round_trip (kb : PrudensKnowledgeBase.t) (sep : str) :
  active_ok kb = true ->
  blank sep = true ->
  exists kb' : PrudensKnowledgeBase.t,
    PrudensKnowledgeBase.from_string (PrudensKnowledgeBase.to_string kb sep)
    = Ok kb'
    /\ map PrudensRule.body (PrudensKnowledgeBase.rules kb')
       = map PrudensRule.body (active_rules kb)
    /\ map PrudensRule.head (PrudensKnowledgeBase.rules kb')
       = map PrudensRule.head (active_rules kb)
    /\ length (PrudensKnowledgeBase.rules kb')
       = PrudensKnowledgeBase.number_of_active_rules kb
    /\ PrudensKnowledgeBase.eqb kb'
         (PrudensKnowledgeBase.mk (active_rules kb)) = true.
Proof.
  intros Hkb Hsep. eexists. split; [by apply parse_block_text_active|].
  cbn [PrudensKnowledgeBase.rules]. rewrite !map_map, length_map.
  do 3 (split; [done|]). apply rules_eqb_same.
Qed.

Lemma active_round_trip_witness :
  active_ok kb3 = true
  /\ blank (lit "  ") = true
  /\ exists kb' : PrudensKnowledgeBase.t,
      PrudensKnowledgeBase.from_string
        (lit "@KnowledgeBase  R1 :: a implies x;  R3 :: c implies z;")
      = Ok kb'
      /\ map PrudensRule.body (PrudensKnowledgeBase.rules kb')
         = [[lit "a"]; [lit "c"]]
      /\ map PrudensRule.head (PrudensKnowledgeBase.rules kb')
         = [lit "x"; lit "z"]
      /\ length (PrudensKnowledgeBase.rules kb') = 2
      /\ PrudensKnowledgeBase.eqb kb'
           (PrudensKnowledgeBase.mk (active_rules kb3)) = true.
Proof.
  split; [reflexivity|]. split; [reflexivity|].
  exact (active_round_trip kb3 (lit "  ") eq_refl eq_refl).
Defined.

(** Property X5.  Rendering is stable under a round trip: for a knowledge
    base whose rules are all active and well formed, the knowledge base
    parsed from its block text renders, under every separator, to the same
    text as the knowledge base itself. *)
Theorem render_parse_render (kb : PrudensKnowledgeBase.t) (sep : str) :
  kb_ok kb = true ->
  blank sep = true ->
  exists kb' : PrudensKnowledgeBase.t,
    PrudensKnowledgeBase.from_string (PrudensKnowledgeBase.to_string kb sep)
    = Ok kb'
    /\ forall sep' : str,
        PrudensKnowledgeBase.to_string kb' sep'
        = PrudensKnowledgeBase.to_string kb sep'.
Proof.
  intros Hkb Hsep.
  assert (Forall (fun r => PrudensRule.active r = true /\ rule_ok r = true)
            (PrudensKnowledgeBase.rules kb)) as Hall.
  { apply Forall_forall. intros r Hr. apply list_elem_of_In in Hr.
    unfold kb_ok in Hkb. rewrite forallb_forall in Hkb. apply Hkb in Hr.
    by apply andb_true_iff in Hr. }
  assert (active_ok kb = true) as Hok.
  { unfold active_ok. apply forallb_forall. intros r Hr.
    apply list_elem_of_In in Hr. rewrite Forall_forall in Hall.
    destruct (Hall r Hr) as [-> ->]. done. }
  assert (active_rules kb = PrudensKnowledgeBase.rules kb) as Hact.
  { unfold active_rules. clear Hok Hkb.
    induction Hall as [|r l [Hr _] _ IH]; [done|].
    rewrite filter_cons_True by done. by rewrite IH. }
  eexists. split; [by apply parse_block_text_active|].
  intros sep'. unfold PrudensKnowledgeBase.to_string. f_equal. f_equal.
  rewrite Hact. apply rendered_fresh.
  eapply Forall_impl; [exact Hall|]. by intros r [? _].
Qed.

Lemma render_parse_render_witness :
  kb_ok (PrudensKnowledgeBase.mk [rule_ab; rule_on]) = true
  /\ blank (lit "") = true
  /\ exists kb' : PrudensKnowledgeBase.t,
      PrudensKnowledgeBase.from_string
        (lit "@KnowledgeBaseR1 :: a, b implies c;R2 :: a implies c;")
      = Ok kb'
      /\ forall sep' : str,
          PrudensKnowledgeBase.to_string kb' sep'
          = PrudensKnowledgeBase.to_string
              (PrudensKnowledgeBase.mk [rule_ab; rule_on]) sep'.
Proof.
  split; [reflexivity|]. split; [reflexivity|].
  exact (render_parse_render (PrudensKnowledgeBase.mk [rule_ab; rule_on])
           (lit "") eq_refl eq_refl).
Defined.

(** Property X6.  A knowledge base without active rules renders, under every
    separator, as the marker alone, and this text is read back as the empty
    knowledge base: its rules are lost, whatever they are. *)
Theorem no_active_rule (kb : PrudensKnowledgeBase.t) (sep : str) :
  PrudensKnowledgeBase.number_of_active_rules kb = 0 ->
  PrudensKnowledgeBase.to_string kb sep = lit "@KnowledgeBase"
  /\ PrudensKnowledgeBase.from_string (PrudensKnowledgeBase.to_string kb sep)
     = Ok (PrudensKnowledgeBase.mk [])
  /\ PrudensKnowledgeBase.kj_kb
       (PrudensKnowledgeBase.to_prudens_kb_json_object kb) = [].
Proof.
  intros H.
  assert (PrudensKnowledgeBase.statements kb = []) as Hs.
  { apply length_zero_iff_nil. rewrite <- H.
    apply (rendered_length
             (fun i rule => PrudensRule.to_string rule
                              (PrudensRule.NameInt (Z.of_nat i)))). }
  unfold PrudensKnowledgeBase.to_string. rewrite Hs. cbn [join].
  split; [done|]. split; [by vm_compute|].
  apply length_zero_iff_nil. rewrite <- H.
  apply (rendered_length PrudensKnowledgeBase.rule_converted).
Qed.

Lemma no_active_rule_witness :
  PrudensKnowledgeBase.number_of_active_rules
    (PrudensKnowledgeBase.mk [rule_off; rule_spaced_head_off]) = 0
  /\ PrudensKnowledgeBase.to_string
       (PrudensKnowledgeBase.mk [rule_off; rule_spaced_head_off]) (lit ", ")
     = lit "@KnowledgeBase".
Proof.
  split; [reflexivity|].
  exact (proj1 (no_active_rule
                  (PrudensKnowledgeBase.mk [rule_off; rule_spaced_head_off])
                  (lit ", ") eq_refl)).
Defined.

Section LiteralFacts.

Lemma lstrip_dash_cons (t : str) :
  lstrip_chars (lit "-") ("-"%char :: t) = lstrip_chars (lit "-") t.
Proof. done. Qed.

Lemma lstrip_dash_fix (t : str) :
  lstrip_chars (lit "-") t = t <-> head t <> Some "-"%char.
Proof.
  split; [|apply lstrip_dash_id].
  intros H. destruct (lstrip_dash t) as [_ Hh]. by rewrite H in Hh.
Qed.

Lemma contains_dash_false (t : str) :
  contains (lit "-") t = false <-> "-"%char ∉ t.
Proof.
  change (lit "-") with ["-"%char]. rewrite <- contains_char.
  by destruct (contains ["-"%char] t).
Qed.

Lemma contains_dash_cons (t : str) :
  contains (lit "-") ("-"%char :: t) = true.
Proof. change (lit "-") with ["-"%char]. apply contains_char. left. Qed.

Lemma head_notin (c : ascii) (t : str) : c ∉ t -> head t <> Some c.
Proof. intros H Hh. apply H. by apply head_elem_of. Qed.

(** The text of the literal of a token. *)
Lemma normal_token_eq (t : str) :
  normal_token t
  = if contains (lit "-") t then "-"%char :: lstrip_chars (lit "-") t else t.
Proof.
  unfold normal_token, PrudensLiteral.to_string, to_prudens_literal.
  cbn [PrudensLiteral.name PrudensLiteral.sign]. rewrite negb_involutive.
  destruct (contains (lit "-") t) eqn:E; [done|].
  cbn [app lit]. apply lstrip_dash_id, head_notin.
  by apply contains_dash_false.
Qed.

Lemma normal_token_signed (t : str) :
  signed_token t = true -> normal_token t = t.
Proof.
  unfold signed_token. rewrite negb_true_iff, contains_dash_false.
  intros H. rewrite normal_token_eq.
  destruct t as [|c t]; [done|]. cbn [drop] in H.
  destruct (contains (lit "-") (c :: t)) eqn:E; [|done].
  change (lit "-") with ["-"%char] in E. apply contains_char in E.
  apply elem_of_cons in E as [<-|E]; [|done].
  rewrite lstrip_dash_cons. f_equal. by apply lstrip_dash_id, head_notin.
Qed.

Lemma canonical_literal_spec (l : PrudensLiteral.t) :
  to_prudens_literal (PrudensLiteral.to_string l) = l
  <-> canonical_literal l = true.
Proof.
  destruct l as [n s js e i a ar].
  unfold canonical_literal, to_prudens_literal, PrudensLiteral.to_string.
  cbn [PrudensLiteral.name PrudensLiteral.sign PrudensLiteral.isJS
       PrudensLiteral.isEquality PrudensLiteral.isInequality
       PrudensLiteral.isAction PrudensLiteral.arity].
  rewrite !andb_true_iff, !negb_true_iff, bool_decide_eq_false,
    bool_decide_eq_true.
  destruct s; cbn [negb implb].
  - change (lit "" ++ n) with n. rewrite negb_true_iff, contains_dash_false.
    split.
    + intros [= Hn Hs <- <- <- <- <-]. rewrite negb_true_iff in Hs.
      apply contains_dash_false in Hs.
      repeat split; try done. by apply head_notin.
    + intros ((((((Hh & Hn) & ->) & ->) & ->) & ->) & ->).
      rewrite lstrip_dash_id by done.
      by rewrite (proj2 (contains_dash_false n) Hn).
  - change (lit "-" ++ n) with ("-"%char :: n).
    rewrite contains_dash_cons, lstrip_dash_cons. split.
    + intros [= Hn <- <- <- <- <-]. repeat split; try done.
      by apply lstrip_dash_fix.
    + intros ((((((Hh & _) & ->) & ->) & ->) & ->) & ->).
      by rewrite lstrip_dash_id.
Qed.

End LiteralFacts.

(** Property X7.  Converting a token to a literal is not changed by
    rendering the literal and converting its text again: the text of a
    literal is a normal form of the token, so that rendering it is
    idempotent, and it is the token itself exactly when the token has no
    [-], or begins with one [-] that no other [-] follows at once. *)
Theorem literal_reparse (t : str) :
  to_prudens_literal (normal_token t) = to_prudens_literal t
  /\ normal_token (normal_token t) = normal_token t
  /\ (normal_token t = t
      <-> "-"%char ∉ t
          \/ exists n, t = "-"%char :: n /\ head n <> Some "-"%char).
Proof.
  assert (to_prudens_literal (normal_token t) = to_prudens_literal t) as H.
  { rewrite normal_token_eq. destruct (contains (lit "-") t) eqn:E; [|done].
    unfold to_prudens_literal. rewrite contains_dash_cons, E, lstrip_dash_cons.
    f_equal. apply lstrip_dash_id. by destruct (lstrip_dash t). }
  split; [exact H|]. split; [unfold normal_token at 1; by rewrite H|].
  rewrite normal_token_eq. destruct (contains (lit "-") t) eqn:E.
  - split.
    + intros Ht. right. exists (lstrip_chars (lit "-") t).
      split; [done|]. by destruct (lstrip_dash t).
    + intros [Hn|(n & -> & Hn)].
      * apply contains_dash_false in Hn. congruence.
      * rewrite lstrip_dash_cons. f_equal. by apply lstrip_dash_id.
  - split; [|done]. intros _. left. by apply contains_dash_false.
Qed.

(** Property X8.  The literals that the conversion of their own text gives
    back are exactly those with the default fields whose name does not begin
    with [-] and, when the sign is positive, has no [-] at all. *)
Theorem literal_canonical (l : PrudensLiteral.t) :
  to_prudens_literal (PrudensLiteral.to_string l) = l
  <-> canonical_literal l = true.
Proof. apply canonical_literal_spec. Qed.

(** * The exchange form, there and back *)

Section ExchangeForm.

Lemma import_rule_converted (i : nat) (r : PrudensRule.t) :
  PrudensRule.from_prudens_rule_json_object
    (PrudensKnowledgeBase.as_json_object
       (PrudensKnowledgeBase.rule_converted i r))
  = Ok (normal_rule r).
Proof.
  unfold PrudensRule.from_prudens_rule_json_object,
    PrudensKnowledgeBase.as_json_object, PrudensKnowledgeBase.rule_converted,
    normal_rule, fresh_rule.
  cbn [PrudensRule.jo_name PrudensRule.jo_body PrudensRule.jo_head
       PrudensKnowledgeBase.rj_name PrudensKnowledgeBase.rj_body
       PrudensKnowledgeBase.rj_head].
  by rewrite map_map.
Qed.

Lemma import_exported (kb : PrudensKnowledgeBase.t) :
  map_result PrudensRule.from_prudens_rule_json_object
    (map PrudensKnowledgeBase.as_json_object
       (PrudensKnowledgeBase.kj_kb
          (PrudensKnowledgeBase.to_prudens_kb_json_object kb)))
  = Ok (map normal_rule (active_rules kb)).
Proof.
  unfold PrudensKnowledgeBase.to_prudens_kb_json_object.
  cbn [PrudensKnowledgeBase.kj_kb]. rewrite map_map.
  rewrite (map_result_map _ _ (fun '(i, r) => normal_rule r)).
  - f_equal. apply (filter_enumerate_map normal_rule).
  - apply Forall_forall. intros [i r] _. apply import_rule_converted.
Qed.

Lemma normal_rule_signed (r : PrudensRule.t) :
  signed_rule r = true ->
  normal_rule r = fresh_rule (PrudensRule.body r) (PrudensRule.head r).
Proof.
  unfold signed_rule, normal_rule. rewrite andb_true_iff. intros [Hb Hh].
  rewrite (normal_token_signed _ Hh). f_equal.
  rewrite forallb_forall in Hb. rewrite <- (map_id (PrudensRule.body r)) at 2.
  apply map_ext_in. intros t Ht. by apply normal_token_signed, Hb.
Qed.

End ExchangeForm.

(** Property X9.  Importing, one by one, the rule objects of the exchange
    form of a knowledge base never fails, whatever the tokens are, and gives
    its active rules in their order, each token replaced by the text of its
    literal; the names [R<i>] of the objects are lost, and what was inactive
    is gone. *)
Theorem json_export_import (kb : PrudensKnowledgeBase.t) :
  map_result PrudensRule.from_prudens_rule_json_object
    (map PrudensKnowledgeBase.as_json_object
       (PrudensKnowledgeBase.kj_kb
          (PrudensKnowledgeBase.to_prudens_kb_json_object kb)))
  = Ok (map (fun r => fresh_rule (map normal_token (PrudensRule.body r))
                        (normal_token (PrudensRule.head r)))
            (active_rules kb)).
Proof. apply import_exported. Qed.

(** Property X10.  When the tokens of the active rules have no [-] after
    their first character, the rules imported from the exchange form are the
    active rules themselves, with their bodies in order, and make a
    knowledge base equal to the one of the active rules. Tokens with white
    space, empty bodies and the words [::] and [implies], which the block
    text loses, go through. *)
Theorem json_round_trip (kb : PrudensKnowledgeBase.t) :
  signed_kb kb = true ->
  exists rs : list PrudensRule.t,
    map_result PrudensRule.from_prudens_rule_json_object
      (map PrudensKnowledgeBase.as_json_object
         (PrudensKnowledgeBase.kj_kb
            (PrudensKnowledgeBase.to_prudens_kb_json_object kb)))
    = Ok rs
    /\ map PrudensRule.body rs = map PrudensRule.body (active_rules kb)
    /\ map PrudensRule.head rs = map PrudensRule.head (active_rules kb)
    /\ Forall (fun r => PrudensRule.active r = true
                       /\ PrudensRule.added_as r = lit "") rs
    /\ PrudensKnowledgeBase.eqb (PrudensKnowledgeBase.mk rs)
         (PrudensKnowledgeBase.mk (active_rules kb)) = true.
Proof.
  intros Hkb. exists (map normal_rule (active_rules kb)).
  split; [apply import_exported|].
  assert (map normal_rule (active_rules kb)
          = map (fun r => fresh_rule (PrudensRule.body r) (PrudensRule.head r))
              (active_rules kb)) as ->.
  { apply map_ext_in. intros r Hr. apply normal_rule_signed.
    apply list_elem_of_In in Hr. unfold active_rules in Hr.
    apply list_elem_of_filter in Hr as [Hact Hr].
    unfold signed_kb in Hkb. rewrite forallb_forall in Hkb.
    apply list_elem_of_In, Hkb in Hr. by rewrite Hact in Hr. }
  rewrite !map_map. do 2 (split; [done|]). split.
  - apply Forall_map, Forall_forall. by intros r _.
  - apply rules_eqb_same.
Qed.

Lemma json_round_trip_witness :
  signed_kb
    (PrudensKnowledgeBase.mk
       [rule_spaced_head; rule_off; rule_closing_colons; rule_empty_body;
        rule_of ["-a"; "b c"]%string "-d" true]) = true
  /\ exists rs : list PrudensRule.t,
      map_result PrudensRule.from_prudens_rule_json_object
        (map PrudensKnowledgeBase.as_json_object
           (PrudensKnowledgeBase.kj_kb
              (PrudensKnowledgeBase.to_prudens_kb_json_object
                 (PrudensKnowledgeBase.mk
                    [rule_spaced_head; rule_off; rule_closing_colons;
                     rule_empty_body;
                     rule_of ["-a"; "b c"]%string "-d" true]))))
      = Ok rs
      /\ map PrudensRule.body rs
         = [[lit "a"]; [lit "a"; lit "::"]; []; [lit "-a"; lit "b c"]]
      /\ map PrudensRule.head rs = [lit "c "; lit "c"; lit "c"; lit "-d"]
      /\ Forall (fun r => PrudensRule.active r = true
                         /\ PrudensRule.added_as r = lit "") rs
      /\ PrudensKnowledgeBase.eqb (PrudensKnowledgeBase.mk rs)
           (PrudensKnowledgeBase.mk
              [rule_spaced_head; rule_closing_colons; rule_empty_body;
               rule_of ["-a"; "b c"]%string "-d" true]) = true.
Proof.
  split; [reflexivity|].
  exact (json_round_trip
           (PrudensKnowledgeBase.mk
              [rule_spaced_head; rule_off; rule_closing_colons;
               rule_empty_body; rule_of ["-a"; "b c"]%string "-d" true])
           eq_refl).
Defined.

(** Property X11.  A rule object with the three keys whose literals are
    canonical is imported as a rule, and the exchange form of the knowledge
    base of this one rule has one rule object with the same body and head
    literals; its name is [R0], whatever the name of the object was. *)
Theorem json_import_export (name : str) (body : list PrudensLiteral.t)
    (head : PrudensLiteral.t) :
  Forall (fun l => canonical_literal l = true) body ->
  canonical_literal head = true ->
  exists r : PrudensRule.t,
    PrudensRule.from_prudens_rule_json_object
      (PrudensRule.mk_json_object (Some name) (Some body) (Some head))
    = Ok r
    /\ PrudensKnowledgeBase.kj_kb
         (PrudensKnowledgeBase.to_prudens_kb_json_object
            (PrudensKnowledgeBase.mk [r]))
       = [PrudensKnowledgeBase.mk_rule_json (lit "R0") body head].
Proof.
  intros Hb Hh. eexists. split; [reflexivity|].
  unfold PrudensKnowledgeBase.to_prudens_kb_json_object.
  cbn [PrudensKnowledgeBase.kj_kb PrudensKnowledgeBase.rules enumerate].
  rewrite filter_cons_True by done. rewrite filter_nil. cbn [map].
  unfold PrudensKnowledgeBase.rule_converted.
  cbn [PrudensRule.body PrudensRule.head].
  rewrite (proj2 (canonical_literal_spec head) Hh). f_equal. f_equal.
  rewrite map_map. rewrite <- (map_id body) at 2.
  apply map_ext_in. intros l Hl. apply canonical_literal_spec.
  rewrite Forall_forall in Hb. by apply Hb, list_elem_of_In.
Qed.

Lemma json_import_export_witness :
  Forall (fun l => canonical_literal l = true)
    [to_prudens_literal (lit "-a"); to_prudens_literal (lit "b c")]
  /\ canonical_literal (to_prudens_literal (lit "d")) = true
  /\ exists r : PrudensRule.t,
      PrudensRule.from_prudens_rule_json_object
        (PrudensRule.mk_json_object (Some (lit "Rule7"))
           (Some [to_prudens_literal (lit "-a"); to_prudens_literal (lit "b c")])
           (Some (to_prudens_literal (lit "d"))))
      = Ok r
      /\ PrudensKnowledgeBase.kj_kb
           (PrudensKnowledgeBase.to_prudens_kb_json_object
              (PrudensKnowledgeBase.mk [r]))
         = [PrudensKnowledgeBase.mk_rule_json (lit "R0")
              [to_prudens_literal (lit "-a"); to_prudens_literal (lit "b c")]
              (to_prudens_literal (lit "d"))].
Proof.
  assert (Forall (fun l => canonical_literal l = true)
            [to_prudens_literal (lit "-a"); to_prudens_literal (lit "b c")])
    as H by (repeat constructor).
  split; [exact H|]. split; [reflexivity|].
  exact (json_import_export (lit "Rule7")
           [to_prudens_literal (lit "-a"); to_prudens_literal (lit "b c")]
           (to_prudens_literal (lit "d")) H eq_refl).
Defined.

(** * Equality *)

Section EqualityFacts.

Lemma rule_eqb_refl (a : PrudensRule.t) : PrudensRule.eqb a a = true.
Proof. by apply rule_eqb_spec. Qed.

Lemma rule_eqb_sym (a b : PrudensRule.t) :
  PrudensRule.eqb a b = PrudensRule.eqb b a.
Proof.
  apply eq_true_iff_eq. rewrite !rule_eqb_spec.
  split; intros [-> H]; split; try done; intros t; by rewrite H.
Qed.

Lemma rule_eqb_trans (a b c : PrudensRule.t) :
  PrudensRule.eqb a b = true -> PrudensRule.eqb b c = true ->
  PrudensRule.eqb a c = true.
Proof.
  rewrite !rule_eqb_spec. intros [-> H1] [-> H2]. split; [done|].
  intros t. by rewrite H1.
Qed.

Lemma rules_eqb_Forall2 (a b : list PrudensRule.t) :
  PrudensKnowledgeBase.rules_eqb a b = true
  <-> Forall2 (fun x y => PrudensRule.eqb x y = true) a b.
Proof.
  revert b. induction a as [|x a IH]; intros [|y b]; simpl.
  - split; [constructor|done].
  - split; [done|inversion 1].
  - split; [done|inversion 1].
  - rewrite andb_true_iff, IH. split.
    + intros [? ?]. by constructor.
    + inversion 1; by subst.
Qed.

Lemma rules_eqb_trans (a b c : list PrudensRule.t) :
  PrudensKnowledgeBase.rules_eqb a b = true ->
  PrudensKnowledgeBase.rules_eqb b c = true ->
  PrudensKnowledgeBase.rules_eqb a c = true.
Proof.
  revert b c. induction a as [|x a IH]; intros [|y b] [|z c]; simpl;
    try done.
  rewrite !andb_true_iff. intros [H1 H2] [H3 H4].
  split; [by eapply rule_eqb_trans|by eapply IH].
Qed.

Lemma full_context_adds_eqb (kb1 kb2 : PrudensKnowledgeBase.t) (x : str) :
  PrudensKnowledgeBase.eqb kb1 kb2 = true ->
  x ∈ PrudensKnowledgeBase.full_context_adds kb1 ->
  x ∈ PrudensKnowledgeBase.full_context_adds kb2.
Proof.
  unfold PrudensKnowledgeBase.eqb. rewrite rules_eqb_Forall2. intros H.
  rewrite !full_context_adds_spec. intros (r & t & Hr & Ht & Hrest).
  apply list_elem_of_lookup_1 in Hr as [i Hi].
  destruct (Forall2_lookup_l _ _ _ _ _ H Hi) as (r' & Hi' & He).
  exists r', t. split; [by eapply list_elem_of_lookup_2|].
  split; [|done]. apply rule_eqb_spec in He as [_ He]. by apply He.
Qed.

End EqualityFacts.

(** Property X13.  The equality of rules is an equivalence relation. *)
Theorem rule_eqb_equivalence :
  (forall a : PrudensRule.t, PrudensRule.eqb a a = true)
  /\ (forall a b : PrudensRule.t, PrudensRule.eqb a b = PrudensRule.eqb b a)
  /\ (forall a b c : PrudensRule.t,
        PrudensRule.eqb a b = true -> PrudensRule.eqb b c = true ->
        PrudensRule.eqb a c = true).
Proof.
  split; [apply rule_eqb_refl|]. split; [apply rule_eqb_sym|].
  apply rule_eqb_trans.
Qed.

Lemma rule_eqb_equivalence_witness :
  PrudensRule.eqb rule_ab rule_ba = true
  /\ PrudensRule.eqb rule_ba (rule_of ["b"; "a"; "b"]%string "c" false) = true
  /\ PrudensRule.eqb rule_ab (rule_of ["b"; "a"; "b"]%string "c" false) = true.
Proof.
  split; [reflexivity|]. split; [reflexivity|].
  exact (proj2 (proj2 rule_eqb_equivalence) rule_ab rule_ba
           (rule_of ["b"; "a"; "b"]%string "c" false) eq_refl eq_refl).
Defined.

(** Property X14.  The equality of knowledge bases is an equivalence
    relation; it holds exactly between knowledge bases with as many rules,
    equal index by index; and a knowledge base is equal to its copy. *)
Theorem kb_eqb_equivalence :
  (forall a : PrudensKnowledgeBase.t, PrudensKnowledgeBase.eqb a a = true)
  /\ (forall a b : PrudensKnowledgeBase.t,
        PrudensKnowledgeBase.eqb a b = PrudensKnowledgeBase.eqb b a)
  /\ (forall a b c : PrudensKnowledgeBase.t,
        PrudensKnowledgeBase.eqb a b = true ->
        PrudensKnowledgeBase.eqb b c = true ->
        PrudensKnowledgeBase.eqb a c = true)
  /\ (forall a b : PrudensKnowledgeBase.t,
        PrudensKnowledgeBase.eqb a b = true
        <-> length (PrudensKnowledgeBase.rules a)
            = length (PrudensKnowledgeBase.rules b)
            /\ forall i x y,
                PrudensKnowledgeBase.rules a !! i = Some x ->
                PrudensKnowledgeBase.rules b !! i = Some y ->
                PrudensRule.eqb x y = true)
  /\ (forall a : PrudensKnowledgeBase.t,
        PrudensKnowledgeBase.eqb a (PrudensKnowledgeBase.copy a) = true
        /\ PrudensKnowledgeBase.rules (PrudensKnowledgeBase.copy a)
           = PrudensKnowledgeBase.rules a).
Proof.
  assert (forall a, PrudensKnowledgeBase.eqb a a = true) as Hrefl.
  { intros a. apply rules_eqb_Forall2, Forall_Forall2_diag, Forall_forall.
    intros x _. apply rule_eqb_refl. }
  split; [exact Hrefl|]. split; [|split; [|split]].
  - intros a b. apply eq_true_iff_eq.
    unfold PrudensKnowledgeBase.eqb. rewrite !rules_eqb_Forall2.
    split; intros H; apply Forall2_flip; eapply Forall2_impl; try exact H;
      intros x y Hxy; cbv beta; by rewrite rule_eqb_sym.
  - intros a b c. apply rules_eqb_trans.
  - intros a b. unfold PrudensKnowledgeBase.eqb.
    rewrite rules_eqb_Forall2. apply Forall2_same_length_lookup.
  - intros a. split; [|done]. destruct a. apply Hrefl.
Qed.

Lemma kb_eqb_equivalence_witness :
  PrudensKnowledgeBase.eqb (PrudensKnowledgeBase.mk [rule_ab; rule_on])
    (PrudensKnowledgeBase.mk [rule_ba; rule_off]) = true
  /\ PrudensKnowledgeBase.eqb (PrudensKnowledgeBase.mk [rule_ba; rule_off])
       (PrudensKnowledgeBase.mk [rule_ab; rule_off]) = true
  /\ PrudensKnowledgeBase.eqb (PrudensKnowledgeBase.mk [rule_ab; rule_on])
       (PrudensKnowledgeBase.mk [rule_ab; rule_off]) = true.
Proof.
  split; [reflexivity|]. split; [reflexivity|].
  exact (proj1 (proj2 (proj2 kb_eqb_equivalence))
           (PrudensKnowledgeBase.mk [rule_ab; rule_on])
           (PrudensKnowledgeBase.mk [rule_ba; rule_off])
           (PrudensKnowledgeBase.mk [rule_ab; rule_off]) eq_refl eq_refl).
Defined.

Section NaturalOrderFacts.




Lemma natural_le_tied (a b : str) (k : list key_elem) :
  natural_sort_key a = Ok k -> natural_sort_key b = Ok k ->
  natural_le a b /\ natural_le b a.
Proof.
  intros Ha Hb.
  assert (key_ltb k k = false) as Hk.
  { destruct (key_ltb k k) eqn:E; [|done].
    pose proof (key_ltb_asym k k E). congruence. }
  split; by exists k, k.
Qed.

Lemma is_decimal_lower (c : ascii) :
  is_decimal (lower_char c) = is_decimal c.
Proof. by destruct c as [[] [] [] [] [] [] [] []]. Qed.

Lemma is_digit_lower (c : ascii) : is_digit (lower_char c) = is_digit c.
Proof. by destruct c as [[] [] [] [] [] [] [] []]. Qed.

Lemma lower_char_digit (c : ascii) : is_digit c = true -> lower_char c = c.
Proof. by destruct c as [[] [] [] [] [] [] [] []]. Qed.

Lemma lower_char_idemp (c : ascii) : lower_char (lower_char c) = lower_char c.
Proof. by destruct c as [[] [] [] [] [] [] [] []]. Qed.

Lemma lower_idemp (s : str) : lower (lower s) = lower s.
Proof.
  unfold lower. rewrite map_map. apply map_ext. apply lower_char_idemp.
Qed.

Lemma reverse_lower (s : str) : reverse (lower s) = lower (reverse s).
Proof.
  unfold lower. induction s as [|c s IH]; [done|].
  cbn [map]. by rewrite !reverse_cons, map_app, IH.
Qed.

Lemma nsre_split_go_lower (b : bool) (acc s : str) :
  nsre_split_go b (lower acc) (lower s) = map lower (nsre_split_go b acc s).
Proof.
  revert b acc. induction s as [|c s IH]; intros b acc.
  - cbn [lower map nsre_split_go]. fold (lower acc). rewrite reverse_lower.
    by destruct b.
  - change (lower (c :: s)) with (lower_char c :: lower s).
    cbn [nsre_split_go]. rewrite is_decimal_lower.
    destruct (Bool.eqb (is_decimal c) b).
    + apply (IH b (c :: acc)).
    + cbn [map]. rewrite reverse_lower. f_equal.
      apply (IH (is_decimal c) [c]).
Qed.

Lemma forallb_digit_lower (t : str) :
  forallb is_digit (lower t) = forallb is_digit t.
Proof.
  induction t as [|c t IH]; [done|].
  change (lower (c :: t)) with (lower_char c :: lower t).
  cbn [forallb]. by rewrite is_digit_lower, IH.
Qed.

Lemma isdigit_lower (t : str) : isdigit (lower t) = isdigit t.
Proof.
  destruct t as [|c t]; [done|]. apply (forallb_digit_lower (c :: t)).
Qed.

Lemma lower_digits (t : str) : isdigit t = true -> lower t = t.
Proof.
  destruct t as [|c t]; [done|]. unfold isdigit. intros H.
  rewrite forallb_forall in H. unfold lower.
  rewrite <- (map_id (c :: t)) at 2. apply map_ext_in. intros x Hx.
  by apply lower_char_digit, H.
Qed.

Lemma key_elem_of_lower (t : str) : key_elem_of (lower t) = key_elem_of t.
Proof.
  unfold key_elem_of. rewrite isdigit_lower. destruct (isdigit t) eqn:E.
  - by rewrite lower_digits.
  - by rewrite lower_idemp.
Qed.

Lemma natural_sort_key_lower (s : str) :
  natural_sort_key (lower s) = natural_sort_key s.
Proof.
  unfold natural_sort_key, nsre_split.
  change (nsre_split_go false [] (lower s))
    with (nsre_split_go false (lower []) (lower s)).
  rewrite nsre_split_go_lower.
  induction (nsre_split_go false [] s) as [|t l IH]; [done|].
  cbn [map map_result]. by rewrite key_elem_of_lower, IH.
Qed.

(** The characters of the pieces are characters of the text. *)
Lemma nsre_split_go_chars (b : bool) (acc s p : str) (c : ascii) :
  p ∈ nsre_split_go b acc s -> c ∈ p -> c ∈ acc \/ c ∈ s.
Proof.
  revert b acc. induction s as [|x s IH]; intros b acc Hp Hc.
  - left. cbn [nsre_split_go] in Hp.
    destruct b.
    + apply elem_of_cons in Hp as [->|Hp]; [exact (proj1 (elem_of_reverse _ _) Hc)|].
      apply list_elem_of_singleton in Hp as ->. by apply elem_of_nil in Hc.
    + apply list_elem_of_singleton in Hp as ->. exact (proj1 (elem_of_reverse _ _) Hc).
  - cbn [nsre_split_go] in Hp.
    destruct (Bool.eqb (is_decimal x) b).
    + destruct (IH _ _ Hp Hc) as [H|H].
      * apply elem_of_cons in H as [->|H]; [right; left|by left].
      * right. by right.
    + apply elem_of_cons in Hp as [->|Hp].
      * left. exact (proj1 (elem_of_reverse _ _) Hc).
      * destruct (IH _ _ Hp Hc) as [H|H].
        -- apply list_elem_of_singleton in H as ->. right. left.
        -- right. by right.
Qed.

(** A name without superscript digits has a key. *)
Lemma keyed_decimal (s : str) :
  Forall (fun c => is_digit c = true -> is_decimal c = true) s ->
  keyed s = true.
Proof.
  intros Hs. unfold keyed. apply forallb_forall. intros p Hp.
  apply list_elem_of_In in Hp.
  destruct (isdigit p) eqn:E; [|done]. cbn [negb orb].
  destruct p as [|c p]; [done|]. unfold isdigit in E. unfold isdecimal.
  rewrite forallb_forall in E. apply forallb_forall. intros x Hx.
  rewrite Forall_forall in Hs. apply Hs; [|by apply E].
  apply list_elem_of_In in Hx.
  destruct (nsre_split_go_chars false [] s _ x Hp Hx) as [H|H]; [|done].
  by apply elem_of_nil in H.
Qed.

Lemma ascii_digit (c : ascii) :
  nat_of_ascii c < 128 -> is_digit c = true -> is_decimal c = true.
Proof.
  intros Hc. unfold is_digit. rewrite !orb_true_iff, !Nat.eqb_eq.
  intros [[[?|?]|?]|?]; [done|lia..].
Qed.

Lemma keyed_ascii (s : str) :
  Forall (fun c => nat_of_ascii c < 128) s -> keyed s = true.
Proof.
  intros H. apply keyed_decimal. eapply Forall_impl; [exact H|].
  intros c Hc. by apply ascii_digit.
Qed.

(** In a list of names that are not tied, the natural order is
    antisymmetric. *)
Lemma untied_antisym (names : list str) (a b : str) :
  untied names = true -> a ∈ names -> b ∈ names ->
  natural_le a b -> natural_le b a -> a = b.
Proof.
  unfold untied. rewrite forallb_forall.
  intros H Ha Hb (ka & kb & Hka & Hkb & Hab) (kb' & ka' & Hkb' & Hka' & Hba).
  assert (kb' = kb) as -> by congruence.
  assert (ka' = ka) as -> by congruence.
  apply list_elem_of_In, H in Ha. rewrite forallb_forall in Ha.
  apply list_elem_of_In, Ha in Hb.
  rewrite Hka, Hkb, Hab, Hba in Hb.
  rewrite !orb_false_r in Hb. by apply bool_decide_eq_true in Hb.
Qed.

(** Two listings of the same names, none of them tied, are sorted to the
    same list, or raise together. *)
Lemma sorted_names_unique (names l1 l2 : list str) :
  untied names = true ->
  NoDup l1 -> NoDup l2 ->
  (forall x, x ∈ l1 <-> x ∈ names) ->
  (forall x, x ∈ l2 <-> x ∈ names) ->
  sorted_by natural_sort_key key_ltb l1
  = sorted_by natural_sort_key key_ltb l2.
Proof.
  intros Hun Hnd1 Hnd2 Hin1 Hin2.
  assert (Permutation l1 l2) as Hp.
  { apply NoDup_Permutation; [done..|]. intros x. by rewrite Hin1, Hin2. }
  destruct (sorted_by natural_sort_key key_ltb l1) as [r1|e1] eqn:E1,
    (sorted_by natural_sort_key key_ltb l2) as [r2|e2] eqn:E2.
  - f_equal.
    pose proof (sorted_by_Permutation _ _ _ _ E1) as Hp1.
    pose proof (sorted_by_Permutation _ _ _ _ E2) as Hp2.
    apply (@Sorted_unique_strong _ natural_le natural_le_trans).
    + intros a b Ha Hb. rewrite Hp1, Hin1 in Ha. rewrite Hp2, Hin2 in Hb.
      by apply (untied_antisym names).
    + by apply (sorted_by_Sorted natural_sort_key key_ltb key_ltb_asym l1).
    + by apply (sorted_by_Sorted natural_sort_key key_ltb key_ltb_asym l2).
    + by rewrite Hp1, Hp2.
  - exfalso.
    assert (exists r, sorted_by natural_sort_key key_ltb l2 = Ok r) as [r Hr].
    { apply sorted_by_built. rewrite <- Hp.
      apply (sorted_by_built natural_sort_key key_ltb). eauto. }
    congruence.
  - exfalso.
    assert (exists r, sorted_by natural_sort_key key_ltb l1 = Ok r) as [r Hr].
    { apply sorted_by_built. rewrite Hp.
      apply (sorted_by_built natural_sort_key key_ltb). eauto. }
    congruence.
  - apply sorted_by_Raise in E1 as (x1 & _ & [-> _]%natural_sort_key_Raise).
    by apply sorted_by_Raise in E2 as (x2 & _ & [-> _]%natural_sort_key_Raise).
Qed.

End NaturalOrderFacts.



(** Property X17.  The natural order does not look at the case of the
    letters: a name and its lower-case form have the same key, or raise the
    same error, and are tied when the key is built, as it is for every name
    of code points under 128. *)
Theorem natural_order_ignores_case (s : str) :
  natural_sort_key (lower s) = natural_sort_key s
  /\ (keyed s = true ->
      natural_le s (lower s) /\ natural_le (lower s) s)
  /\ (Forall (fun c => nat_of_ascii c < 128) s ->
      natural_le s (lower s) /\ natural_le (lower s) s).
Proof.
  assert (keyed s = true ->
          natural_le s (lower s) /\ natural_le (lower s) s) as H.
  { intros [k Hk]%natural_sort_key_built.
    apply (natural_le_tied s (lower s) k); [done|].
    by rewrite natural_sort_key_lower. }
  split; [apply natural_sort_key_lower|]. split; [exact H|].
  intros Hs. by apply H, keyed_ascii.
Qed.

Lemma natural_order_ignores_case_witness :
  keyed (lit "Item10B") = true
  /\ natural_le (lit "Item10B") (lit "item10b")
  /\ natural_le (lit "item10b") (lit "Item10B").
Proof.
  split; [reflexivity|].
  exact (proj1 (proj2 (natural_order_ignores_case (lit "Item10B"))) eq_refl).
Defined.

(** Property X18.  When no two names of the full context are tied in the
    natural order, the outcome of [get_full_context], the list that it
    returns or the error that it raises, does not depend on the order in
    which Python iterates over the set. *)
Theorem full_context_deterministic (kb : PrudensKnowledgeBase.t)
    (iter1 iter2 : list str -> list str) :
  set_listing iter1 ->
  set_listing iter2 ->
  untied (PrudensKnowledgeBase.full_context_adds kb) = true ->
  PrudensKnowledgeBase.get_full_context iter1 kb
  = PrudensKnowledgeBase.get_full_context iter2 kb.
Proof.
  intros H1 H2 Hun. unfold PrudensKnowledgeBase.get_full_context.
  destruct (H1 (PrudensKnowledgeBase.full_context_adds kb)) as [Hnd1 Hin1].
  destruct (H2 (PrudensKnowledgeBase.full_context_adds kb)) as [Hnd2 Hin2].
  by apply (sorted_names_unique (PrudensKnowledgeBase.full_context_adds kb)).
Qed.

(** Names with the same key keep the order of the iteration: with the names
    [a] and [A] the two orders of iteration give two lists. *)
Lemma full_context_order_of_ties :
  PrudensKnowledgeBase.get_full_context added_order kb_two_cases
  <> PrudensKnowledgeBase.get_full_context reverse_order kb_two_cases.
Proof. vm_compute. discriminate. Qed.

Lemma full_context_deterministic_witness :
  set_listing added_order
  /\ set_listing reverse_order
  /\ untied (PrudensKnowledgeBase.full_context_adds kb3) = true
  /\ PrudensKnowledgeBase.get_full_context added_order kb3
     = PrudensKnowledgeBase.get_full_context reverse_order kb3.
Proof.
  split; [exact added_order_listing|]. split; [exact reverse_order_listing|].
  split; [reflexivity|].
  exact (full_context_deterministic kb3 added_order reverse_order
           added_order_listing reverse_order_listing eq_refl).
Defined.

(** Property X15.  Equal knowledge bases have as many rules and full
    contexts of the same names: under one order of iteration, the two calls
    of [get_full_context] raise together, the lists that they return have
    the same elements, and they are the same list when no two names are
    tied in the natural order. *)
Theorem equal_kbs_same_context (kb1 kb2 : PrudensKnowledgeBase.t)
    (set_iter : list str -> list str) :
  PrudensKnowledgeBase.eqb kb1 kb2 = true ->
  set_listing set_iter ->
  (PrudensKnowledgeBase.get_full_context set_iter kb1 = Raise ValueError
   <-> PrudensKnowledgeBase.get_full_context set_iter kb2 = Raise ValueError)
  /\ (forall l1 l2 : list str,
        PrudensKnowledgeBase.get_full_context set_iter kb1 = Ok l1 ->
        PrudensKnowledgeBase.get_full_context set_iter kb2 = Ok l2 ->
        Permutation l1 l2)
  /\ (untied (PrudensKnowledgeBase.full_context_adds kb1) = true ->
      PrudensKnowledgeBase.get_full_context set_iter kb1
      = PrudensKnowledgeBase.get_full_context set_iter kb2)
  /\ length (PrudensKnowledgeBase.rules kb1)
     = length (PrudensKnowledgeBase.rules kb2)
  /\ PrudensKnowledgeBase.is_empty kb1 = PrudensKnowledgeBase.is_empty kb2
  /\ PrudensKnowledgeBase.is_not_empty kb1
     = PrudensKnowledgeBase.is_not_empty kb2.
Proof.
  intros H Hiter.
  assert (forall x, x ∈ PrudensKnowledgeBase.full_context_adds kb1
                    <-> x ∈ PrudensKnowledgeBase.full_context_adds kb2)
    as Hsame.
  { intros x. split; apply full_context_adds_eqb; [done|].
    destruct kb1 as [r1], kb2 as [r2]. unfold PrudensKnowledgeBase.eqb in *.
    cbn [PrudensKnowledgeBase.rules] in *.
    apply rules_eqb_Forall2. apply rules_eqb_Forall2 in H.
    apply Forall2_flip. eapply Forall2_impl; [exact H|].
    intros a b Hab. cbv beta. by rewrite rule_eqb_sym. }
  split; [|split; [|split]].
  - split.
    + intros (_ & x & Hx & Hk)%get_full_context_Raise; [|done].
      apply (get_full_context_unkeyed set_iter kb2 x); [done| |done].
      by apply Hsame.
    + intros (_ & x & Hx & Hk)%get_full_context_Raise; [|done].
      apply (get_full_context_unkeyed set_iter kb1 x); [done| |done].
      by apply Hsame.
  - intros l1 l2 Hl1 Hl2.
    destruct (get_full_context_Ok set_iter kb1 l1 Hiter Hl1)
      as (Hnd1 & _ & Hin1).
    destruct (get_full_context_Ok set_iter kb2 l2 Hiter Hl2)
      as (Hnd2 & _ & Hin2).
    apply NoDup_Permutation; [done..|]. intros x.
    by rewrite Hin1, Hin2, Hsame.
  - intros Hun. unfold PrudensKnowledgeBase.get_full_context.
    destruct (Hiter (PrudensKnowledgeBase.full_context_adds kb1))
      as [Hnd1 Hin1].
    destruct (Hiter (PrudensKnowledgeBase.full_context_adds kb2))
      as [Hnd2 Hin2].
    apply (sorted_names_unique (PrudensKnowledgeBase.full_context_adds kb1));
      try done.
    intros x. by rewrite Hin2, Hsame.
  - assert (length (PrudensKnowledgeBase.rules kb1)
            = length (PrudensKnowledgeBase.rules kb2)) as Hlen.
    { unfold PrudensKnowledgeBase.eqb in H. apply rules_eqb_Forall2 in H.
      by eapply Forall2_length. }
    unfold PrudensKnowledgeBase.is_not_empty, PrudensKnowledgeBase.is_empty.
    by rewrite Hlen.
Qed.

Lemma equal_kbs_same_context_witness :
  PrudensKnowledgeBase.eqb
    (PrudensKnowledgeBase.mk [rule_ab; rule_off])
    (PrudensKnowledgeBase.mk [rule_ba; rule_on]) = true
  /\ set_listing added_order
  /\ untied (PrudensKnowledgeBase.full_context_adds
               (PrudensKnowledgeBase.mk [rule_ab; rule_off])) = true
  /\ PrudensKnowledgeBase.get_full_context added_order
       (PrudensKnowledgeBase.mk [rule_ab; rule_off])
     = PrudensKnowledgeBase.get_full_context added_order
         (PrudensKnowledgeBase.mk [rule_ba; rule_on]).
Proof.
  split; [reflexivity|]. split; [exact added_order_listing|].
  split; [reflexivity|].
  exact (proj1 (proj2 (proj2
           (equal_kbs_same_context
              (PrudensKnowledgeBase.mk [rule_ab; rule_off])
              (PrudensKnowledgeBase.mk [rule_ba; rule_on])
              added_order eq_refl added_order_listing))) eq_refl).
Defined.

(** Equal knowledge bases whose names are tied may get two lists: the
    bodies [a, A] and [A, a] make equal rules, and the names come out in
    the order in which they went in. *)
Lemma equal_kbs_context_order :
  PrudensKnowledgeBase.eqb kb_two_cases kb_two_cases_swapped = true
  /\ PrudensKnowledgeBase.get_full_context added_order kb_two_cases
     = Ok [lit "a"; lit "A"]
  /\ PrudensKnowledgeBase.get_full_context added_order kb_two_cases_swapped
     = Ok [lit "A"; lit "a"].
Proof. by vm_compute. Qed.

Section ContextNames.

(** [s.replace(c, "")] deletes every [c]. *)
Lemma replace_char_nil (c : ascii) (s : str) :
  replace [c] [] s = filter (fun x => x <> c) s.
Proof.
  unfold replace. induction s as [|x s IH]; [done|].
  destruct (decide (x = c)) as [->|Hx].
  - assert (split [c] (c :: s) = [] :: split [c] s) as ->
      by apply (split_char_app c [] s), not_elem_of_nil.
    rewrite join_cons_nonempty by apply split_nonempty.
    rewrite filter_cons_False by (by intros H; apply H).
    simpl. by rewrite IH.
  - rewrite (split_char_cons_ne _ _ _ Hx).
    rewrite filter_cons_True by done. rewrite <- IH.
    destruct (split [c] s) as [|hd tl] eqn:Es;
      [by apply split_nonempty in Es|].
    change ((x :: hd) :: tl) with (([x] ++ hd) :: tl).
    by rewrite <- join_prefix.
Qed.

Lemma context_name_filter (t : str) :
  context_name t = filter (fun x => x <> "-"%char) t.
Proof. apply (replace_char_nil "-"). Qed.

Lemma filter_dash_id (t : str) :
  filter (fun x => x <> "-"%char) t = t <-> "-"%char ∉ t.
Proof.
  split.
  - intros H Hin. rewrite <- H in Hin.
    by apply list_elem_of_filter in Hin as [? _].
  - induction t as [|x t IH]; [done|]. rewrite not_elem_of_cons.
    intros [Hx Ht]. rewrite filter_cons_True by done. by rewrite IH.
Qed.

Lemma filter_dash_lstrip (t : str) :
  filter (fun x => x <> "-"%char) (lstrip_chars (lit "-") t)
  = filter (fun x => x <> "-"%char) t.
Proof.
  destruct (lstrip_dash t) as [[k Hk] _]. rewrite Hk at 2.
  rewrite filter_app. clear Hk.
  assert (filter (fun x => x <> "-"%char) (replicate k "-"%char) = []) as ->;
    [|done].
  induction k as [|k IH]; [done|]. cbn [replicate].
  by rewrite filter_cons_False by (by intros H; apply H).
Qed.

End ContextNames.

(** Property X19.  The name that a body token gives to the full context has
    no [-]; it is the name of the literal of the token exactly when that
    name has no [-], that is, when the [-] of the token are all in front;
    and it is the same for a token and for the text of its literal. *)
Theorem context_name_of_literal (t : str) :
  ("-"%char ∉ context_name t)
  /\ (context_name t = PrudensLiteral.name (to_prudens_literal t)
      <-> "-"%char ∉ PrudensLiteral.name (to_prudens_literal t))
  /\ context_name (PrudensLiteral.to_string (to_prudens_literal t))
     = context_name t.
Proof.
  rewrite !context_name_filter. unfold to_prudens_literal.
  cbn [PrudensLiteral.name].
  split; [|split].
  - intros H. by apply list_elem_of_filter in H as [? _].
  - rewrite <- filter_dash_lstrip. apply filter_dash_id.
  - unfold PrudensLiteral.to_string.
    cbn [PrudensLiteral.name PrudensLiteral.sign]. rewrite filter_app.
    rewrite filter_dash_lstrip.
    destruct (contains (lit "-") t); [|done].
    cbn [negb lit list_ascii_of_string].
    by rewrite filter_cons_False by (by intros H; apply H).
Qed.

Section RuleNames.

Lemma to_int_not_nil (i : Z) :
  Z.to_int i <> Decimal.Pos Decimal.Nil
  /\ Z.to_int i <> Decimal.Neg Decimal.Nil.
Proof.
  split; intros H; pose proof (DecimalZ.of_to i) as Hi; rewrite H in Hi;
    cbn in Hi; subst i; discriminate H.
Qed.

Lemma str_of_int_inj (i j : Z) : str_of_int i = str_of_int j -> i = j.
Proof.
  unfold str_of_int. intros H.
  apply (f_equal string_of_list_ascii) in H.
  rewrite !string_of_list_ascii_of_string in H.
  apply (f_equal NilZero.int_of_string) in H.
  destruct (to_int_not_nil i) as [Hi1 Hi2].
  destruct (to_int_not_nil j) as [Hj1 Hj2].
  rewrite !NilZero.isi in H by done. injection H as H.
  apply (f_equal Z.of_int) in H. by rewrite !DecimalZ.of_to in H.
Qed.

Lemma index_name_inj (i j : nat) :
  lit "R" ++ str_of_int (Z.of_nat i) = lit "R" ++ str_of_int (Z.of_nat j) ->
  i = j.
Proof. intros [= H]. apply str_of_int_inj in H. lia. Qed.

(** The elements rendered for the active rules have distinct indices. *)
Lemma rendered_NoDup {X K : Type} (f : nat -> PrudensRule.t -> X)
    (g : X -> K) (h : nat -> K) (n : nat) (l : list PrudensRule.t) :
  (forall i r, g (f i r) = h i) ->
  (forall i j, h i = h j -> i = j) ->
  NoDup (map g (rendered f n l))
  /\ forall k, k ∈ map g (rendered f n l) -> exists i, n <= i /\ k = h i.
Proof.
  intros Hg Hh. revert n. induction l as [|r l IH]; intros n.
  - split; [constructor|]. by intros k ?%elem_of_nil.
  - rewrite rendered_cons. destruct (IH (S n)) as [Hnd Hin].
    destruct (PrudensRule.active r).
    + cbn [map]. split.
      * constructor; [|done]. intros Hk. apply Hin in Hk as (i & Hi & Hk).
        rewrite Hg in Hk. apply Hh in Hk. lia.
      * intros k [->|Hk]%elem_of_cons.
        -- exists n. by rewrite Hg.
        -- apply Hin in Hk as (i & Hi & ->). exists i. split; [lia|done].
    + split; [done|]. intros k Hk.
      apply Hin in Hk as (i & Hi & ->). exists i. split; [lia|done].
Qed.

Lemma statement_name_to_string (r : PrudensRule.t) (i : Z) :
  statement_name (PrudensRule.to_string r (PrudensRule.NameInt i))
  = lit "R" ++ str_of_int i.
Proof.
  rewrite to_string_shape. unfold statement_name.
  change (lit " :: " ++ ?x) with (" "%char :: lit ":: " ++ x).
  change (lit " ") with [" "%char]. rewrite split_char_app; [done|].
  destruct (name_text_ok (PrudensRule.NameInt i) eq_refl) as [_ H].
  by apply no_space_not_in.
Qed.

End RuleNames.

(** Property X20.  The names of the rule objects of the exchange form are
    pairwise distinct, and so are the names in front of the statements of
    the block text, and the statements themselves. *)
Theorem rule_names_distinct (kb : PrudensKnowledgeBase.t) :
  NoDup (map PrudensKnowledgeBase.rj_name
           (PrudensKnowledgeBase.kj_kb
              (PrudensKnowledgeBase.to_prudens_kb_json_object kb)))
  /\ NoDup (map statement_name (PrudensKnowledgeBase.statements kb))
  /\ NoDup (PrudensKnowledgeBase.statements kb).
Proof.
  assert (NoDup (map statement_name (PrudensKnowledgeBase.statements kb)))
    as Hs.
  { apply (rendered_NoDup
             (fun i rule => PrudensRule.to_string rule
                              (PrudensRule.NameInt (Z.of_nat i)))
             statement_name
             (fun i => lit "R" ++ str_of_int (Z.of_nat i))).
    - intros i r. apply statement_name_to_string.
    - apply index_name_inj. }
  split; [|split; [exact Hs|]].
  - apply (rendered_NoDup PrudensKnowledgeBase.rule_converted
             PrudensKnowledgeBase.rj_name
             (fun i => lit "R" ++ str_of_int (Z.of_nat i))).
    + done.
    + apply index_name_inj.
  - by apply NoDup_fmap_1 in Hs.
Qed.

Section Padding.

Lemma drop_while_all (p : ascii -> bool) (b : str) :
  Forall (fun c => p c = true) b -> drop_while p b = [].
Proof. induction 1 as [|c b Hc _ IH]; [done|]. simpl. by rewrite Hc. Qed.

Lemma drop_while_prefix (p : ascii -> bool) (b s : str) :
  Forall (fun c => p c = true) b -> drop_while p (b ++ s) = drop_while p s.
Proof. induction 1 as [|c b Hc _ IH]; [done|]. simpl. by rewrite Hc. Qed.

Lemma drop_while_app (p : ascii -> bool) (s b : str) :
  drop_while p (s ++ b)
  = if forallb p s then drop_while p b else drop_while p s ++ b.
Proof.
  induction s as [|c s IH]; [done|]. simpl.
  destruct (p c); [exact IH|done].
Qed.

Lemma strip_blank_suffix (s b : str) :
  Forall (fun c => is_space c = true) b -> strip (s ++ b) = strip s.
Proof.
  intros Hb. unfold strip. rewrite drop_while_app.
  destruct (forallb is_space s) eqn:E.
  - rewrite (drop_while_all _ b Hb).
    rewrite (drop_while_all _ s); [done|].
    apply Forall_forall. intros c Hc. rewrite forallb_forall in E.
    by apply E, list_elem_of_In.
  - rewrite reverse_app. rewrite drop_while_prefix; [done|].
    by apply Forall_reverse.
Qed.

Lemma forallb_last_false (p : ascii -> bool) (s : str) (c : ascii) :
  last s = Some c -> p c = false -> forallb p s = false.
Proof.
  intros Hl Hc. destruct (forallb p s) eqn:E; [|done].
  rewrite forallb_forall in E.
  apply last_elem_of, list_elem_of_In, E in Hl. congruence.
Qed.

(** [strip] on a text that ends with a character that is not white space
    only strips in front. *)
Lemma strip_last (s : str) (c : ascii) :
  last s = Some c -> is_space c = false -> strip s = drop_while is_space s.
Proof.
  intros Hl Hc. unfold strip.
  rewrite drop_while_id; [apply reverse_involutive|].
  intros x. rewrite head_reverse. intros Hx.
  destruct (drop_while_suffix is_space s) as [l Hs].
  assert (drop_while is_space s <> []) as Hne by (by intros E; rewrite E in Hx).
  rewrite Hs, last_app in Hl.
  destruct (last (drop_while is_space s)); [congruence|done].
Qed.

Lemma startswith_foreign (p s t : str) :
  Forall (fun c => c ∉ p) t ->
  p <> [] ->
  startswith p (s ++ t) = startswith p s.
Proof.
  intros Ht. revert s. induction p as [|a p IH]; intros s Hp; [done|].
  destruct s as [|x s].
  - cbn [app]. destruct t as [|b t]; [done|]. cbn [startswith].
    apply Forall_cons in Ht as [Hb _].
    rewrite (proj2 (Ascii.eqb_neq a b)); [done|].
    intros ->. apply Hb. left.
  - cbn [app startswith]. destruct (Ascii.eqb a x); [|done]. cbn [andb].
    destruct p as [|a' p]; [done|]. apply IH; [|done].
    eapply Forall_impl; [exact Ht|]. intros c Hc Hin. apply Hc. by right.
Qed.

Lemma find_foreign (a : ascii) (p t : str) :
  Forall (fun c => c ∉ a :: p) t -> find (a :: p) t = None.
Proof.
  induction 1 as [|b t Hb _ IH]; [done|].
  cbn [find startswith]. rewrite (proj2 (Ascii.eqb_neq a b)).
  - cbn [andb]. by rewrite IH.
  - intros ->. apply Hb. left.
Qed.

Lemma contains_cons (p : str) (x : ascii) (s : str) :
  contains p (x :: s) = startswith p (x :: s) || contains p s.
Proof.
  unfold contains.
  change (find p (x :: s))
    with (if startswith p (x :: s) then Some 0 else option_map S (find p s)).
  destruct (startswith p (x :: s)); [done|]. by destruct (find p s).
Qed.

(** Characters that are not in [p], added at the end of [s], add no
    occurrence of [p]. *)
Lemma contains_foreign (a : ascii) (p s t : str) :
  Forall (fun c => c ∉ a :: p) t ->
  contains (a :: p) (s ++ t) = contains (a :: p) s.
Proof.
  intros Ht. induction s as [|x s IH].
  - unfold contains. cbn [app]. by rewrite (find_foreign a p t Ht).
  - change ((x :: s) ++ t) with (x :: (s ++ t)).
    rewrite !contains_cons, IH. f_equal.
    by apply (startswith_foreign (a :: p) (x :: s) t).
Qed.

Lemma rstrip_chars_replicate (chars s : str) (c : ascii) (k : nat) :
  char_in chars c = true ->
  rstrip_chars chars (s ++ replicate k c) = rstrip_chars chars s.
Proof.
  intros Hc. induction k as [|k IH]; [by rewrite app_nil_r|].
  rewrite replicate_S_end, app_assoc, rstrip_chars_snoc by done. exact IH.
Qed.

Lemma semicolons_foreign (p : str) (k : nat) :
  ";"%char ∉ p -> Forall (fun c => c ∉ p) (replicate k ";"%char).
Proof.
  intros Hp. apply Forall_forall. intros c Hc.
  by apply elem_of_replicate in Hc as [-> _].
Qed.

(** White space around a statement that is read as a rule. *)
Lemma from_string_padded (ws1 ws2 s a : str) (act : bool)
    (r : PrudensRule.t) :
  blank ws1 = true -> blank ws2 = true ->
  PrudensRule.from_string s a act = Ok r ->
  PrudensRule.from_string (ws1 ++ s ++ ws2) a act = Ok r.
Proof.
  intros H1 H2 Hs.
  assert (forall ws, blank ws = true -> Forall (fun c => is_space c = true) ws)
    as Hblank.
  { intros ws H. apply Forall_forall. intros c Hc. unfold blank in H.
    rewrite forallb_forall in H. by apply H, list_elem_of_In. }
  pose proof Hs as (Hc1 & Hc2 & _)%from_string_Ok.
  assert (forall p, contains p s = true -> contains p (ws1 ++ s ++ ws2) = true)
    as Hc.
  { intros p Hp. apply contains_infix. apply contains_infix in Hp.
    eapply infix_of_trans; [exact Hp|]. by exists ws1, ws2. }
  unfold PrudensRule.from_string in *. cbn [forallb] in *.
  rewrite (Hc _ Hc1), (Hc _ Hc2). rewrite Hc1, Hc2 in Hs.
  rewrite strip_blank_prefix, strip_blank_suffix by auto. exact Hs.
Qed.

(** Semicolons after a statement that does not end with white space. *)
Lemma from_string_semicolons (s a : str) (act : bool) (c : ascii) (k : nat) :
  last s = Some c -> is_space c = false ->
  PrudensRule.from_string (s ++ replicate k ";"%char) a act
  = PrudensRule.from_string s a act.
Proof.
  intros Hl Hc. unfold PrudensRule.from_string. cbn [forallb].
  change (lit " :: ") with (" "%char :: lit ":: ").
  change (lit " implies ") with (" "%char :: lit "implies ").
  rewrite !contains_foreign by (apply semicolons_foreign; char_notin).
  assert (rstrip_chars (lit ";") (strip (s ++ replicate k ";"%char))
          = rstrip_chars (lit ";") (strip s)) as ->; [|done].
  rewrite (strip_last s c Hl Hc).
  destruct k as [|k]; [rewrite app_nil_r; by rewrite (strip_last s c Hl Hc)|].
  rewrite (strip_last _ ";"%char).
  - rewrite drop_while_app, (forallb_last_false _ _ _ Hl Hc).
    by apply rstrip_chars_replicate.
  - rewrite replicate_S_end, app_assoc. apply last_snoc.
  - done.
Qed.

End Padding.

(** Property X21.  White space around a statement that is read as a rule
    changes nothing, and neither do semicolons, however many, after a
    statement that does not end with white space: the outcome, rule or
    error, is the same. *)
Theorem statement_padding (ws1 ws2 s a : str) (act : bool) (c : ascii)
    (k : nat) (r : PrudensRule.t) :
  blank ws1 = true ->
  blank ws2 = true ->
  last s = Some c ->
  is_space c = false ->
  PrudensRule.from_string (s ++ replicate k ";"%char) a act
  = PrudensRule.from_string s a act
  /\ (PrudensRule.from_string s a act = Ok r ->
      PrudensRule.from_string (ws1 ++ s ++ ws2) a act = Ok r
      /\ PrudensRule.from_string
           (ws1 ++ (s ++ replicate k ";"%char) ++ ws2) a act = Ok r).
Proof.
  intros H1 H2 Hl Hc.
  pose proof (from_string_semicolons s a act c k Hl Hc) as Hk.
  split; [exact Hk|]. intros Hs.
  split; apply from_string_padded; congruence.
Qed.

Lemma statement_padding_witness :
  PrudensRule.from_string (lit "R7 :: a, b implies c;;;") (lit "") true
  = PrudensRule.from_string (lit "R7 :: a, b implies c") (lit "") true
  /\ PrudensRule.from_string
       ("009"%char :: lit " R7 :: a, b implies c;;;  ") (lit "") true
     = Ok (rule_of ["a"; "b"]%string "c" true).
Proof.
  pose proof (statement_padding ("009"%char :: lit " ") (lit "  ")
                (lit "R7 :: a, b implies c") (lit "") true "c"%char 3
                (rule_of ["a"; "b"]%string "c" true)
                eq_refl eq_refl eq_refl eq_refl) as [H1 H2].
  split; [exact H1|]. exact (proj2 (H2 eq_refl)).
Defined.
